(** * Product Query Normalizer: parse, detect ambiguity, clarify, validate

    A shallow embedding of [src/Product_Query_Normalizer] (schemas.py,
    parser.py, ambiguity_detector.py, validator.py, normalizer.py) and the
    properties its specification states about it.

    Modelling conventions.
    - Python [str] is a Rocq [string], a sequence of bytes (UTF-8).  Case
      folding, whitespace and digits are those of the ASCII range; the rupee
      sign is its three-byte encoding.
    - Python [float] is given twice.  The first definitions compute with
      exact rationals [Q], numeric equality being [==]: they carry the
      properties about which branch is taken, what is kept and what is
      valid.  The parser is given again in binary64 (module [B64]: round to
      nearest, ties to even, 53 bits, infinities and NaN), and the
      properties about the value of a price or of a confidence are stated
      there.
    - A raised exception is the [Raise] branch of [result]; [try/except]
      is a match on it.
    - A [dict] passed by the caller is a [gmap]; the class-level keyword
      tables, whose iteration order matters, are association lists in
      declaration order.
    - In-place mutation of a [ParsedQuery] is a record update returning the
      new record. *)

From Stdlib Require Import String Ascii List ZArith QArith Bool Lia Lqa.
From Stdlib Require Import Qabs Qpower.
From Stdlib Require Import Permutation Sorted DecimalString SetoidList.
From stdpp Require Import gmap strings.
Import ListNotations.

Local Open Scope string_scope.
Local Open Scope Q_scope.

(* ===================================================================== *)
(** ** Exceptions                                                          *)
(* ===================================================================== *)

(** [pydantic.ValidationError] is a subclass of [ValueError]; it carries the
    names of the fields that failed. *)
Inductive exn : Type :=
| ValueError
| ValidationError (fields : list string).

Inductive result (A : Type) : Type :=
| Ok (a : A)
| Raise (e : exn).
Arguments Ok {A} a.
Arguments Raise {A} e.

(** Sequencing of computations that may raise, with stdpp's [x ← r; k]. *)
#[global] Instance result_ret : MRet result := fun A a => Ok a.
#[global] Instance result_bind : MBind result := fun A B k r =>
  match r with
  | Ok a => k a
  | Raise e => Raise e
  end.

(** [except (ValueError, TypeError)]: both exceptions of the model are
    [ValueError]s, so the handler catches every one of them. *)
Definition try_except {A} (r : result A) (handler : A) : A :=
  match r with
  | Ok a => a
  | Raise _ => handler
  end.

(* ===================================================================== *)
(** ** Numbers                                                             *)
(* ===================================================================== *)

(** Python's [a < b], [a > b], [a >= b] and [a == b] on floats. *)
Definition Qltb (a b : Q) : bool := negb (Qle_bool b a).
Definition Qgtb (a b : Q) : bool := Qltb b a.
Definition Qgeb (a b : Q) : bool := Qle_bool b a.

(** [sum(xs)] *)
Definition Qsum (xs : list Q) : Q := fold_left Qplus xs 0.

(* ===================================================================== *)
(** ** Strings                                                             *)
(* ===================================================================== *)

Definition is_upper (c : ascii) : bool :=
  let n := nat_of_ascii c in (65 <=? n)%nat && (n <=? 90)%nat.

Definition lower_ascii (c : ascii) : ascii :=
  if is_upper c then ascii_of_nat (nat_of_ascii c + 32) else c.

(** [str.lower] *)
Fixpoint lower (s : string) : string :=
  match s with
  | EmptyString => EmptyString
  | String c s' => String (lower_ascii c) (lower s')
  end.

(** The characters [str.isspace] accepts below U+0080: tab, line feed,
    vertical tab, form feed, carriage return, the four separators
    0x1c..0x1f and space. *)
Definition is_space (c : ascii) : bool :=
  let n := nat_of_ascii c in
  ((9 <=? n)%nat && (n <=? 13)%nat) || ((28 <=? n)%nat && (n <=? 32)%nat).

Fixpoint lstrip (s : string) : string :=
  match s with
  | EmptyString => EmptyString
  | String c s' => if is_space c then lstrip s' else s
  end.

Fixpoint rstrip (s : string) : string :=
  match s with
  | EmptyString => EmptyString
  | String c s' =>
      match rstrip s' with
      | EmptyString => if is_space c then EmptyString else String c EmptyString
      | t => String c t
      end
  end.

(** [str.strip()] *)
Definition strip (s : string) : string := rstrip (lstrip s).

(** [s.startswith(p)] *)
Fixpoint startswith (p s : string) : bool :=
  match p, s with
  | EmptyString, _ => true
  | String a p', String b s' => if Ascii.eqb a b then startswith p' s' else false
  | String _ _, EmptyString => false
  end.

(** [p in s] for strings *)
Fixpoint contains (p s : string) : bool :=
  if startswith p s then true
  else match s with
       | EmptyString => false
       | String _ s' => contains p s'
       end.

(** [s.replace(c, "")] for a one-character [c] *)
Fixpoint remove_char (c : ascii) (s : string) : string :=
  match s with
  | EmptyString => EmptyString
  | String a s' => if Ascii.eqb a c then remove_char c s' else String a (remove_char c s')
  end.

(** [s.split(c)] for a one-character separator: never empty, one more piece
    than there are separators. *)
Fixpoint split_char (c : ascii) (s : string) : list string :=
  match s with
  | EmptyString => [EmptyString]
  | String a s' =>
      match split_char c s' with
      | [] => [String a EmptyString]
      | piece :: rest =>
          if Ascii.eqb a c then EmptyString :: piece :: rest
          else String a piece :: rest
      end
  end.

(** [", ".join(xs)] and friends *)
Fixpoint join (sep : string) (xs : list string) : string :=
  match xs with
  | [] => EmptyString
  | [x] => x
  | x :: rest => x ++ sep ++ join sep rest
  end.

Definition is_digit (c : ascii) : bool :=
  let n := nat_of_ascii c in (48 <=? n)%nat && (n <=? 57)%nat.

Definition digit_value (c : ascii) : Z := Z.of_nat (nat_of_ascii c - 48).

(** Value of a string of ASCII digits read left to right, [None] when a
    character is not a digit. *)
Fixpoint digits_acc (acc : Z) (s : string) : option Z :=
  match s with
  | EmptyString => Some acc
  | String c s' =>
      if is_digit c then digits_acc (10 * acc + digit_value c)%Z s' else None
  end.

(** [float(s)] on a string of ASCII digits; any other string met by the
    parser (the empty one, one with a stray character) raises [ValueError]. *)
Definition float_of_digits (s : string) : result Q :=
  match s with
  | EmptyString => Raise ValueError
  | _ => match digits_acc 0 s with
         | Some z => Ok (inject_Z z)
         | None => Raise ValueError
         end
  end.

(** [str(n)] for a non-negative integer: its decimal digits. *)
Definition string_of_N (n : N) : string :=
  DecimalString.NilZero.string_of_uint (N.to_uint n).

(** Round to the nearest integer, ties to even: the rounding of Python's
    format specifications, applied to the exact value. *)
Definition round_half_even (q : Q) : Z :=
  let n := Qnum q in
  let d := Zpos (Qden q) in
  let f := (n / d)%Z in
  let r := (n mod d)%Z in
  match (2 * r ?= d)%Z with
  | Lt => f
  | Gt => (f + 1)%Z
  | Eq => if Z.even f then f else (f + 1)%Z
  end.

(** [f"{q:.1f}"] *)
Definition format_fixed1 (q : Q) : string :=
  let neg := Qltb q 0 in
  let t := Z.to_N (round_half_even ((if neg then - q else q) * 10)) in
  (if neg then "-" else "") ++ string_of_N (t / 10) ++ "." ++ string_of_N (t mod 10).

(** [f"{q:.1%}"] *)
Definition format_percent1 (q : Q) : string := format_fixed1 (q * 100) ++ "%".

(* ===================================================================== *)
(** ** schemas.py                                                          *)
(* ===================================================================== *)

Module ProductTypeEnum.
Inductive t : Type :=
| HEADPHONES | EARBUDS | SPEAKERS | MICROPHONE | CAMERA
| LAPTOP | PHONE | TABLET | WATCH | UNKNOWN.

#[global] Instance eq_dec : EqDecision t.
Proof. solve_decision. Defined.

(** Members in definition order, as iterating the enum class yields them. *)
Definition members : list t :=
  [HEADPHONES; EARBUDS; SPEAKERS; MICROPHONE; CAMERA;
   LAPTOP; PHONE; TABLET; WATCH; UNKNOWN].

Definition value (p : t) : string :=
  match p with
  | HEADPHONES => "headphones"
  | EARBUDS => "earbuds"
  | SPEAKERS => "speakers"
  | MICROPHONE => "microphone"
  | CAMERA => "camera"
  | LAPTOP => "laptop"
  | PHONE => "phone"
  | TABLET => "tablet"
  | WATCH => "watch"
  | UNKNOWN => "unknown"
  end.

(** [ProductTypeEnum(s)]: the member whose value is [s], else
    [ValueError]. *)
Definition of_value (s : string) : result t :=
  match find (fun p => String.eqb (value p) s) members with
  | Some p => Ok p
  | None => Raise ValueError
  end.
End ProductTypeEnum.

Module UsageContextEnum.
Inductive t : Type :=
| GYM | OFFICE | HOME | OUTDOOR | TRAVEL | GAMING | PROFESSIONAL
| CASUAL | UNKNOWN.

#[global] Instance eq_dec : EqDecision t.
Proof. solve_decision. Defined.

Definition members : list t :=
  [GYM; OFFICE; HOME; OUTDOOR; TRAVEL; GAMING; PROFESSIONAL; CASUAL; UNKNOWN].

Definition value (c : t) : string :=
  match c with
  | GYM => "gym"
  | OFFICE => "office"
  | HOME => "home"
  | OUTDOOR => "outdoor"
  | TRAVEL => "travel"
  | GAMING => "gaming"
  | PROFESSIONAL => "professional"
  | CASUAL => "casual"
  | UNKNOWN => "unknown"
  end.

Definition of_value (s : string) : result t :=
  match find (fun c => String.eqb (value c) s) members with
  | Some c => Ok c
  | None => Raise ValueError
  end.
End UsageContextEnum.

Record PriceRange : Type := mkPriceRange {
  min_price : Q;
  max_price : Q;
}.

(** [PriceRange(min_price=lo, max_price=hi)].  Each field is checked against
    its [ge=0] bound; the [max_price] validator runs after that bound passed
    and compares with [min_price] only when [min_price] itself was accepted
    (["min_price" in info.data]).  All failing fields are reported in one
    [ValidationError]. *)
Definition PriceRange_new (lo hi : Q) : result PriceRange :=
  let min_ok := Qgeb lo 0 in
  let max_ok := Qgeb hi 0 && negb (min_ok && Qltb hi lo) in
  let errors := ((if min_ok then [] else ["min_price"])
              ++ (if max_ok then [] else ["max_price"]))%list in
  match errors with
  | [] => Ok (mkPriceRange lo hi)
  | _ => Raise (ValidationError errors)
  end.

Record ParsedQuery : Type := mkParsedQuery {
  product_type : ProductTypeEnum.t;
  price_range : option PriceRange;
  usage_context : list UsageContextEnum.t;
  feature_preferences : list string;
  original_query : string;
  confidence_score : Q;
  is_complete : bool;
  missing_fields : list string;
}.

(** [ParsedQuery(...)] with every field given: the only constrained field is
    [confidence_score] ([ge=0.0], [le=1.0]). *)
Definition ParsedQuery_new (pt : ProductTypeEnum.t) (pr : option PriceRange)
    (uc : list UsageContextEnum.t) (fp : list string) (oq : string)
    (cs : Q) (ic : bool) (mf : list string) : result ParsedQuery :=
  if Qgeb cs 0 && Qle_bool cs 1
  then Ok (mkParsedQuery pt pr uc fp oq cs ic mf)
  else Raise (ValidationError ["confidence_score"]).

(** [ParsedQuery(...)] with the defaults of the schema taken for
    [confidence_score] (0.5), [is_complete] (False) and [missing_fields]
    (the empty list). *)
Definition ParsedQuery_default (pt : ProductTypeEnum.t) (pr : option PriceRange)
    (uc : list UsageContextEnum.t) (fp : list string) (oq : string)
    : result ParsedQuery :=
  ParsedQuery_new pt pr uc fp oq (5 # 10) false [].

Record ClarificationRequest : Type := mkClarificationRequest {
  field_name : string;
  field_label : string;
  current_value : option string;
  options : option (list string);
  question : string;
}.

Record NormalizedResult : Type := mkNormalizedResult {
  parsed_query : ParsedQuery;
  clarifications_made : list ClarificationRequest;
  is_valid : bool;
  validation_errors : list string;
}.

(* ===================================================================== *)
(** ** validator.py: QueryValidator                                        *)
(* ===================================================================== *)

(** [d.get(k, default)] on a table keyed by product type. *)
Fixpoint table_get {V} (d : list (ProductTypeEnum.t * V)) (k : ProductTypeEnum.t)
    (default : V) : V :=
  match d with
  | [] => default
  | (k', v) :: d' => if decide (k' = k) then v else table_get d' k default
  end.

Definition MINIMUM_BUDGET : list (ProductTypeEnum.t * Z) :=
  [ (ProductTypeEnum.HEADPHONES, 500%Z);
    (ProductTypeEnum.EARBUDS, 1000%Z);
    (ProductTypeEnum.SPEAKERS, 1500%Z);
    (ProductTypeEnum.MICROPHONE, 2000%Z);
    (ProductTypeEnum.CAMERA, 15000%Z);
    (ProductTypeEnum.LAPTOP, 30000%Z);
    (ProductTypeEnum.PHONE, 10000%Z);
    (ProductTypeEnum.TABLET, 10000%Z);
    (ProductTypeEnum.WATCH, 5000%Z) ].

Definition MAXIMUM_BUDGET : list (ProductTypeEnum.t * Z) :=
  [ (ProductTypeEnum.HEADPHONES, 50000%Z);
    (ProductTypeEnum.EARBUDS, 30000%Z);
    (ProductTypeEnum.SPEAKERS, 100000%Z);
    (ProductTypeEnum.MICROPHONE, 50000%Z);
    (ProductTypeEnum.CAMERA, 500000%Z);
    (ProductTypeEnum.LAPTOP, 500000%Z);
    (ProductTypeEnum.PHONE, 150000%Z);
    (ProductTypeEnum.TABLET, 100000%Z);
    (ProductTypeEnum.WATCH, 50000%Z) ].

Definition too_wide_message (ratio : Q) : string :=
  "Price range too wide (ratio " ++ format_fixed1 ratio ++ "x). "
  ++ "Consider narrowing your budget for better recommendations.".

(** [QueryValidator.validate_price_range]: returns [(is_valid, errors)]. *)
Definition validate_price_range (price_range : option PriceRange)
    : bool * list string :=
  match price_range with
  | None => (true, [])
  | Some pr =>
      if Qltb (min_price pr) 0 || Qltb (max_price pr) 0
      then (false, ["Price values cannot be negative"])
      else if Qltb (max_price pr) (min_price pr)
      then (false, ["Maximum price must be >= minimum price"])
      else
        let errors :=
          if Qgtb (max_price pr) 0 && Qgtb (min_price pr) 0
          then
            let ratio := max_price pr / min_price pr in
            if Qgtb ratio 10 then [too_wide_message ratio] else []
          else [] in
        (Nat.eqb (length errors) 0, errors)
  end.

(** [QueryValidator.validate_against_product_type]: returns
    [(True, warnings)]. *)
Definition validate_against_product_type (pt : ProductTypeEnum.t)
    (price_range : option PriceRange) : bool * list string :=
  match price_range with
  | None => (true, [])
  | Some pr =>
      if decide (pt = ProductTypeEnum.UNKNOWN) then (true, [])
      else
        let min_budget := table_get MINIMUM_BUDGET pt 500%Z in
        let max_budget := table_get MAXIMUM_BUDGET pt 500000%Z in
        let w1 :=
          if Qltb (max_price pr) (inject_Z min_budget)
          then ["Budget may be too low for " ++ ProductTypeEnum.value pt ++ ". "
                ++ "Minimum recommended: ₹" ++ string_of_N (Z.to_N min_budget)]
          else [] in
        let w2 :=
          if Qgtb (min_price pr) (inject_Z max_budget)
          then ["Budget seems very high for " ++ ProductTypeEnum.value pt ++ ". "
                ++ "Maximum typical: ₹" ++ string_of_N (Z.to_N max_budget)]
          else [] in
        (true, (w1 ++ w2)%list)
  end.

(** [QueryValidator.validate_query] *)
Definition validate_query (pq : ParsedQuery) : NormalizedResult :=
  let '(price_valid, price_errors) := validate_price_range (price_range pq) in
  let is_valid := if negb price_valid then false else true in
  let errors := if negb price_valid then price_errors else [] in
  let '(_, price_warnings) :=
    validate_against_product_type (product_type pq) (price_range pq) in
  mkNormalizedResult pq [] is_valid errors.

(* ===================================================================== *)
(** ** Regular expressions ([re.findall])                                  *)
(* ===================================================================== *)

(** The fragment of Python's [re] syntax the price patterns use.  [Alt],
    [Opt] and [Star] are tried in the order of a backtracking matcher: the
    left alternative first, one more repetition before none. *)
Inductive regex : Type :=
| Eps
| Lit (c : ascii)
| Class (p : ascii -> bool)
| Seq (r1 r2 : regex)
| Alt (r1 r2 : regex)
| Opt (r : regex)
| Star (r : regex)
| Group (r : regex).

(** A literal word. *)
Fixpoint Str (s : string) : regex :=
  match s with
  | EmptyString => Eps
  | String c s' => Seq (Lit c) (Str s')
  end.

(** [(?:w1|w2|...)] *)
Fixpoint Words (ws : list string) : regex :=
  match ws with
  | [] => Eps
  | [w] => Str w
  | w :: ws' => Alt (Str w) (Words ws')
  end.

(** [r+] and [r{3}] *)
Definition Plus (r : regex) : regex := Seq r (Star r).
Definition Rep3 (r : regex) : regex := Seq r (Seq r r).

Section Matcher.
Context {R : Type}.

(** The loop of a greedy repetition, given the matcher [step] of the
    repeated expression: one more repetition first, then [k].  A repetition
    must consume at least one character, so [n] repetitions are enough for
    a text of [n] characters. *)
Fixpoint star_loop
    (step : string -> option string -> (string -> option string -> option R) -> option R)
    (k : string -> option string -> option R)
    (n : nat) (s : string) (cap : option string) {struct n} : option R :=
  match n with
  | O => k s cap
  | S n' =>
      match step s cap (fun s' cap' =>
              if (String.length s' <? String.length s)%nat
              then star_loop step k n' s' cap' else None) with
      | Some x => Some x
      | None => k s cap
      end
  end.

(** [rmatch r s cap k]: match [r] at the head of [s], then hand the rest
    of the text and the text of the capturing group to [k]; when [k]
    fails, backtrack into [r]. *)
Fixpoint rmatch (r : regex) (s : string) (cap : option string)
    (k : string -> option string -> option R) {struct r} : option R :=
  match r with
  | Eps => k s cap
  | Lit c =>
      match s with
      | String a s' => if Ascii.eqb a c then k s' cap else None
      | EmptyString => None
      end
  | Class p =>
      match s with
      | String a s' => if p a then k s' cap else None
      | EmptyString => None
      end
  | Seq r1 r2 => rmatch r1 s cap (fun s' cap' => rmatch r2 s' cap' k)
  | Alt r1 r2 =>
      match rmatch r1 s cap k with
      | Some x => Some x
      | None => rmatch r2 s cap k
      end
  | Opt r1 =>
      match rmatch r1 s cap k with
      | Some x => Some x
      | None => k s cap
      end
  | Star r1 => star_loop (rmatch r1) k (String.length s) s cap
  | Group r1 =>
      rmatch r1 s cap (fun s' cap' =>
        k s' (Some (substring 0 (String.length s - String.length s') s)))
  end.
End Matcher.

(** Scan left to right for non-overlapping matches, collecting the text of
    the group ([""] when the group took no part).  After a match the scan
    resumes where it ended. *)
Fixpoint findall_from (fuel : nat) (r : regex) (s : string) : list string :=
  match fuel with
  | O => []
  | S fuel' =>
      match rmatch r s None (fun s' cap => Some (s', cap)) with
      | Some (s', cap) =>
          let g := default EmptyString cap in
          if (String.length s' <? String.length s)%nat
          then g :: findall_from fuel' r s'
          else g :: match s with
                    | EmptyString => []
                    | String _ t => findall_from fuel' r t
                    end
      | None =>
          match s with
          | EmptyString => []
          | String _ t => findall_from fuel' r t
          end
      end
  end.

(** [re.findall(pattern, s)] for a pattern with one group. *)
Definition findall (r : regex) (s : string) : list string :=
  findall_from (S (String.length s)) r s.

(* ===================================================================== *)
(** ** parser.py: QueryParser                                              *)
(* ===================================================================== *)

Definition PRODUCT_KEYWORDS : list (ProductTypeEnum.t * list string) :=
  [ (ProductTypeEnum.HEADPHONES,
      ["headphones"; "headphone"; "over-ear"; "over ear"; "on-ear"]);
    (ProductTypeEnum.EARBUDS,
      ["earbuds"; "earbud"; "buds"; "tws"; "true wireless"; "airpods"]);
    (ProductTypeEnum.SPEAKERS,
      ["speaker"; "speakers"; "bluetooth speaker"; "portable speaker"]);
    (ProductTypeEnum.MICROPHONE,
      ["microphone"; "mic"; "studio mic"; "condenser"]);
    (ProductTypeEnum.CAMERA,
      ["camera"; "dslr"; "mirrorless"; "action camera"; "gopro"]);
    (ProductTypeEnum.LAPTOP,
      ["laptop"; "notebook"; "macbook"; "gaming laptop"]);
    (ProductTypeEnum.PHONE,
      ["phone"; "smartphone"; "mobile"; "iphone"; "android"]);
    (ProductTypeEnum.TABLET,
      ["tablet"; "ipad"; "galaxy tab"]);
    (ProductTypeEnum.WATCH,
      ["watch"; "smartwatch"; "fitness watch"; "wearable"]) ].

Definition CONTEXT_KEYWORDS : list (UsageContextEnum.t * list string) :=
  [ (UsageContextEnum.GYM,
      ["gym"; "workout"; "exercise"; "fitness"; "running"; "jogging"; "sports"]);
    (UsageContextEnum.OFFICE,
      ["office"; "work"; "meeting"; "conference"; "calls"; "professional"]);
    (UsageContextEnum.HOME,
      ["home"; "house"; "living room"; "bedroom"; "domestic"]);
    (UsageContextEnum.OUTDOOR,
      ["outdoor"; "outdoors"; "outside"; "hiking"; "camping"; "trail"]);
    (UsageContextEnum.TRAVEL,
      ["travel"; "trip"; "journey"; "commute"; "plane"; "flight"]);
    (UsageContextEnum.GAMING,
      ["gaming"; "game"; "esports"; "competitive"; "fps"; "moba"]);
    (UsageContextEnum.PROFESSIONAL,
      ["professional"; "studio"; "recording"; "streaming"; "podcast"; "content"]) ].

Definition FEATURE_KEYWORDS : list string :=
  [ "waterproof"; "water resistant"; "dust proof"; "ip67"; "ip68";
    "noise-cancelling"; "noise cancelling"; "anc"; "active noise";
    "wireless"; "bluetooth"; "wired"; "usb-c"; "usb c";
    "long battery"; "battery life"; "fast charging";
    "lightweight"; "portable"; "compact";
    "comfortable"; "ergonomic"; "fit";
    "premium"; "wireless charging"; "touch control";
    "3d audio"; "surround"; "bass boost"; "eq" ].

Definition ws : regex := Class is_space.
Definition digit : regex := Class is_digit.
Definition is_sep (c : ascii) : bool := Ascii.eqb c "," || Ascii.eqb c ".".

(** The capturing group of every pattern: one or more digits, then any
    number of three-digit groups, each after an optional comma or dot. *)
Definition number_group : regex :=
  Group (Seq (Plus digit) (Star (Seq (Opt (Class is_sep)) (Rep3 digit)))).

(** The rupee sign, [rs.] or [rs], tried in that order. *)
Definition currency : regex := Words ["₹"; "rs."; "rs"].

Definition PRICE_PATTERNS : list regex :=
  [ Seq (Words ["around"; "upto"; "up to"; "within"; "under"; "below"])
      (Seq (Plus ws) (Seq (Opt currency) (Seq (Star ws) number_group)));
    Seq (Words ["budget"; "price"; "cost"])
      (Seq (Plus ws) (Seq (Opt (Words ["of"; "is"; "around"]))
        (Seq (Plus ws) (Seq (Opt currency) (Seq (Star ws) number_group)))));
    Seq currency (Seq (Star ws) number_group);
    Seq (Lit "$") (Seq (Star ws) number_group);
    Seq number_group (Seq (Star ws) (Words ["rupees"; "inr"; "dollars"; "usd"])) ].

Definition normalize_text (text : string) : string := strip (lower text).

(** The inner loop of [extract_product_type]: the first keyword of the list
    that occurs in the text. *)
Fixpoint first_keyword (normalized : string) (keywords : list string)
    : option string :=
  match keywords with
  | [] => None
  | keyword :: rest =>
      if contains keyword normalized then Some keyword
      else first_keyword normalized rest
  end.

(** The outer loop: products in table order, returning at the first hit. *)
Fixpoint scan_products (normalized : string)
    (table : list (ProductTypeEnum.t * list string))
    : option (ProductTypeEnum.t * Q) :=
  match table with
  | [] => None
  | (product, keywords) :: rest =>
      match first_keyword normalized keywords with
      | Some keyword =>
          if String.eqb keyword normalized || startswith keyword normalized
          then Some (product, 0.95)
          else Some (product, 0.85)
      | None => scan_products normalized rest
      end
  end.

(** [QueryParser.extract_product_type] *)
Definition extract_product_type (query : string) : ProductTypeEnum.t * Q :=
  let normalized := normalize_text query in
  match scan_products normalized PRODUCT_KEYWORDS with
  | Some r => r
  | None => (ProductTypeEnum.UNKNOWN, 0.3)
  end.

(** [float(match.replace(",", "").replace(".", ""))] *)
Definition clean_price (m : string) : result Q :=
  float_of_digits (remove_char "." (remove_char "," m)).

(** All matches of all patterns, pattern by pattern. *)
Definition price_matches (query : string) : list string :=
  flat_map (fun pattern => findall pattern (normalize_text query)) PRICE_PATTERNS.

(** The list [prices] after the two loops; the first match that does not
    convert raises. *)
Definition price_mentions (query : string) : result (list Q) :=
  mapM clean_price (price_matches query).

Definition Qmem (x : Q) (l : list Q) : bool := existsb (Qeq_bool x) l.

(** [list(set(prices))]: one representative of each value.  The order in
    which a Python set is iterated is unspecified; the list is sorted right
    after. *)
Fixpoint list_of_set (l : list Q) : list Q :=
  match l with
  | [] => []
  | x :: l' => if Qmem x l' then list_of_set l' else x :: list_of_set l'
  end.

Fixpoint insert_sorted (x : Q) (l : list Q) : list Q :=
  match l with
  | [] => [x]
  | y :: l' => if Qle_bool x y then x :: l else y :: insert_sorted x l'
  end.

(** [prices.sort()] *)
Definition list_sort (l : list Q) : list Q := fold_right insert_sorted [] l.

(** The part of [extract_price_range] after the matches are collected. *)
Definition range_of_prices (prices : list Q) : result (option PriceRange * Q) :=
  match prices with
  | [] => Ok (None, 0)
  | _ =>
      let prices := list_sort (list_of_set prices) in
      if (length prices =? 1)%nat then
        let max_price := List.hd 0 prices in
        let min_price := max_price * 0.7 in
        pr ← PriceRange_new min_price max_price;
        Ok (Some pr, 0.75)
      else
        pr ← PriceRange_new (List.hd 0 prices) (List.last prices 0);
        Ok (Some pr, 0.85)
  end.

(** [QueryParser.extract_price_range] *)
Definition extract_price_range (query : string) : result (option PriceRange * Q) :=
  prices ← price_mentions query;
  range_of_prices prices.

(** [QueryParser.extract_usage_context].  Each context is appended at most
    once (the [break]), so the set built at the end holds the same
    elements. *)
Definition extract_usage_context (query : string) : list UsageContextEnum.t * Q :=
  let normalized := normalize_text query in
  let contexts :=
    flat_map (fun '(context, keywords) =>
                if existsb (fun keyword => contains keyword normalized) keywords
                then [context] else [])
             CONTEXT_KEYWORDS in
  let confidences := map (fun _ => 0.85) contexts in
  match contexts with
  | [] => ([], 0)
  | _ =>
      (remove_dups contexts,
       Qsum confidences / inject_Z (Z.of_nat (length confidences)))
  end.

(** [QueryParser.extract_features] *)
Definition extract_features (query : string) : list string * Q :=
  let normalized := normalize_text query in
  let features := filter (fun feature => contains feature normalized = true)
                         FEATURE_KEYWORDS in
  (features, match features with [] => 0 | _ => 0.8 end).

Definition is_nil {A} (l : list A) : bool :=
  match l with [] => true | _ => false end.

(** [QueryParser.parse] *)
Definition parse (query : string) : result ParsedQuery :=
  let '(product_type, product_conf) := extract_product_type query in
  '(price_range, price_conf) ← extract_price_range query;
  let '(contexts, context_conf) := extract_usage_context query in
  let '(features, feature_conf) := extract_features query in
  let confidences :=
    ([product_conf]
     ++ (if price_range is Some _ then [price_conf] else [])
     ++ (if is_nil contexts then [] else [context_conf])
     ++ (if is_nil features then [] else [feature_conf]))%list in
  let avg_confidence :=
    Qsum confidences / inject_Z (Z.of_nat (length confidences)) in
  let missing_fields :=
    ((if decide (product_type = ProductTypeEnum.UNKNOWN) then ["product_type"] else [])
     ++ (if price_range is Some _ then [] else ["price_range"])
     ++ (if is_nil contexts then ["usage_context"] else [])
     ++ (if is_nil features then ["feature_preferences"] else []))%list in
  let is_complete := (length missing_fields =? 0)%nat in
  ParsedQuery_new product_type price_range contexts features query
                  avg_confidence is_complete missing_fields.

(* ===================================================================== *)
(** ** ambiguity_detector.py: AmbiguityDetector                            *)
(* ===================================================================== *)

Definition FEATURE_SUGGESTIONS : list (ProductTypeEnum.t * list string) :=
  [ (ProductTypeEnum.HEADPHONES,
      ["noise-cancelling"; "waterproof"; "long battery life";
       "lightweight"; "wireless"; "premium sound"]);
    (ProductTypeEnum.EARBUDS,
      ["waterproof"; "noise-cancelling"; "wireless charging";
       "long battery"; "transparent mode"; "active noise"]);
    (ProductTypeEnum.SPEAKERS,
      ["portable"; "waterproof"; "long battery"; "bass boost";
       "wireless"; "360 audio"]);
    (ProductTypeEnum.LAPTOP,
      ["gaming"; "lightweight"; "long battery"; "fast processor";
       "high resolution display"; "touchscreen"]) ].

Definition USAGE_SUGGESTIONS : list UsageContextEnum.t :=
  [ UsageContextEnum.GYM; UsageContextEnum.OFFICE; UsageContextEnum.HOME;
    UsageContextEnum.OUTDOOR; UsageContextEnum.TRAVEL; UsageContextEnum.GAMING;
    UsageContextEnum.PROFESSIONAL ].

(** The five requests [detect_ambiguities] can append, in its order. *)
Definition product_type_request : ClarificationRequest :=
  mkClarificationRequest "product_type" "Product Type" None
    (Some (map ProductTypeEnum.value
             (filter (fun p => p <> ProductTypeEnum.UNKNOWN) ProductTypeEnum.members)))
    "What type of product are you looking for?".

Definition price_range_request : ClarificationRequest :=
  mkClarificationRequest "price_range" "Budget" None None
    "What is your budget range (in rupees)?".

Definition usage_context_request : ClarificationRequest :=
  mkClarificationRequest "usage_context" "Usage Context" None
    (Some (map UsageContextEnum.value USAGE_SUGGESTIONS))
    "Where will you primarily use this product?".

Definition feature_preferences_request (pt : ProductTypeEnum.t)
    : ClarificationRequest :=
  mkClarificationRequest "feature_preferences" "Features" None
    (Some (table_get FEATURE_SUGGESTIONS pt
             ["high quality"; "affordable"; "durable"]))
    "What features are important to you?".

Definition general_request (confidence : Q) : ClarificationRequest :=
  mkClarificationRequest "general" "Query Clarity"
    (Some ("Confidence: " ++ format_percent1 confidence))
    None
    ("Could you provide more details? (Current parse confidence: "
     ++ format_percent1 confidence ++ ")").

(** [AmbiguityDetector.detect_ambiguities] *)
Definition detect_ambiguities (pq : ParsedQuery) : list ClarificationRequest :=
  ((if decide (product_type pq = ProductTypeEnum.UNKNOWN)
    then [product_type_request] else [])
   ++ (if price_range pq is None then [price_range_request] else [])
   ++ (if is_nil (usage_context pq) then [usage_context_request] else [])
   ++ (if is_nil (feature_preferences pq)
       then [feature_preferences_request (product_type pq)] else [])
   ++ (if Qltb (confidence_score pq) 0.65
       then [general_request (confidence_score pq)] else []))%list.

(** [AmbiguityDetector.is_ambiguous] *)
Definition is_ambiguous (pq : ParsedQuery) : bool :=
  (0 <? length (detect_ambiguities pq))%nat.

(* ===================================================================== *)
(** ** validator.py: InteractiveClarifier; normalizer.py                   *)
(* ===================================================================== *)

Definition set_product_type (q : ParsedQuery) (p : ProductTypeEnum.t) : ParsedQuery :=
  mkParsedQuery p (price_range q) (usage_context q) (feature_preferences q)
    (original_query q) (confidence_score q) (is_complete q) (missing_fields q).

Definition set_price_range (q : ParsedQuery) (pr : option PriceRange) : ParsedQuery :=
  mkParsedQuery (product_type q) pr (usage_context q) (feature_preferences q)
    (original_query q) (confidence_score q) (is_complete q) (missing_fields q).

Definition set_usage_context (q : ParsedQuery) (uc : list UsageContextEnum.t)
    : ParsedQuery :=
  mkParsedQuery (product_type q) (price_range q) uc (feature_preferences q)
    (original_query q) (confidence_score q) (is_complete q) (missing_fields q).

Definition set_feature_preferences (q : ParsedQuery) (fp : list string)
    : ParsedQuery :=
  mkParsedQuery (product_type q) (price_range q) (usage_context q) fp
    (original_query q) (confidence_score q) (is_complete q) (missing_fields q).

Definition set_clarifications_made (r : NormalizedResult)
    (made : list ClarificationRequest) : NormalizedResult :=
  mkNormalizedResult (parsed_query r) made (is_valid r) (validation_errors r).

Section Pipeline.

(** Python's built-in [float(s)] on an arbitrary string: the number it
    denotes, or [ValueError].  The built-in is not part of the repository;
    the pipeline is parametric in it. *)
Variable py_float : string -> result Q.

(** [InteractiveClarifier._apply_response].  The handlers of the first
    two branches keep the query as it was. *)
Definition apply_response (query : ParsedQuery)
    (ambiguity : ClarificationRequest) (response : string)
    : result ParsedQuery :=
  let name := field_name ambiguity in
  if String.eqb name "product_type" then
    Ok (try_except
          (p ← ProductTypeEnum.of_value response;
           Ok (set_product_type query p))
          query)
  else if String.eqb name "price_range" then
    Ok (try_except
          (value ← py_float (remove_char "," response);
           pr ← PriceRange_new (value * 0.7) value;
           Ok (set_price_range query (Some pr)))
          query)
  else if String.eqb name "usage_context" then
    if existsb (String.eqb response)
               (map UsageContextEnum.value UsageContextEnum.members)
    then c ← UsageContextEnum.of_value response;
         Ok (set_usage_context query [c])
    else Ok query
  else if String.eqb name "feature_preferences" then
    Ok (set_feature_preferences query (map strip (split_char "," response)))
  else Ok query.

(** The loop of [clarify_query] over the detected ambiguities, carrying
    the query and the list [clarifications_made]. *)
Fixpoint apply_responses (user_responses : gmap string string)
    (ambiguities : list ClarificationRequest)
    (query : ParsedQuery) (made : list ClarificationRequest)
    : result (ParsedQuery * list ClarificationRequest) :=
  match ambiguities with
  | [] => Ok (query, made)
  | ambiguity :: rest =>
      match user_responses !! field_name ambiguity with
      | Some response =>
          query' ← apply_response query ambiguity response;
          apply_responses user_responses rest query' (made ++ [ambiguity])%list
      | None => apply_responses user_responses rest query made
      end
  end.

(** [InteractiveClarifier.clarify_query]; [None] is the default argument,
    replaced by the empty dict. *)
Definition clarify_query (parsed_query : ParsedQuery)
    (user_responses : option (gmap string string)) : result NormalizedResult :=
  let user_responses := default ∅ user_responses in
  let ambiguities := detect_ambiguities parsed_query in
  '(parsed_query, made) ←
    apply_responses user_responses ambiguities parsed_query [];
  let validation_result := validate_query parsed_query in
  Ok (set_clarifications_made validation_result made).

(** Truth value of an optional dict: [None] and the empty dict are false. *)
Definition truthy (user_responses : option (gmap string string)) : bool :=
  match user_responses with
  | None => false
  | Some m => negb (bool_decide (m = ∅))
  end.

(** [ProductQueryNormalizer.normalize] *)
Definition normalize (query : string)
    (user_responses : option (gmap string string)) : result NormalizedResult :=
  parsed ← parse query;
  if truthy user_responses || is_ambiguous parsed
  then clarify_query parsed user_responses
  else Ok (validate_query parsed).

(** What the [price_range] branch of [_apply_response] computes. *)
Definition answer_price_range (q : ParsedQuery) (response : string) : ParsedQuery :=
  match py_float (remove_char "," response) with
  | Ok value =>
      match PriceRange_new (value * 0.7) value with
      | Ok pr => set_price_range q (Some pr)
      | Raise _ => q
      end
  | Raise _ => q
  end.

End Pipeline.

(** The digits before and after the decimal point of a literal. *)
Definition split_point (s : string) : string * option string :=
  match split_char "." s with
  | [whole] => (whole, None)
  | [whole; frac] => (whole, Some frac)
  | _ => (s, Some "x")
  end.

(** An unsigned decimal literal: digits, with an optional fraction. *)
Definition unsigned_literal (s : string) : result Q :=
  let '(whole, frac) := split_point s in
  match frac with
  | None => float_of_digits whole
  | Some frac =>
      if String.eqb whole "" && String.eqb frac "" then Raise ValueError
      else
        match digits_acc 0 whole, digits_acc 0 frac with
        | Some w, Some f =>
            Ok (inject_Z w + inject_Z f / inject_Z (10 ^ Z.of_nat (String.length frac)))
        | _, _ => Raise ValueError
        end
  end.

(** [float] on a decimal literal with an optional sign and an optional
    fraction, surrounded by optional whitespace: the part of the grammar of
    [float] the concrete examples use.  Exponents, digit separators, [inf]
    and [nan] are not covered. *)
Definition float_literal (s : string) : result Q :=
  match strip s with
  | String "-" s' => v ← unsigned_literal s'; Ok (- v)
  | String "+" s' => unsigned_literal s'
  | s' => unsigned_literal s'
  end.

(* ===================================================================== *)
(** ** The remaining methods of the detector and the normalizer            *)
(* ===================================================================== *)

Definition newline : string := String (ascii_of_nat 10) EmptyString.

(** The loop of [get_ambiguity_summary]: one numbered line per ambiguity,
    [i] being the number of the first. *)
Fixpoint summary_lines (i : nat) (ambiguities : list ClarificationRequest)
    : string :=
  match ambiguities with
  | [] => EmptyString
  | amb :: rest =>
      string_of_N (N.of_nat i) ++ ". " ++ field_label amb ++ ": "
      ++ question amb ++ newline ++ summary_lines (S i) rest
  end.

(** [AmbiguityDetector.get_ambiguity_summary] *)
Definition get_ambiguity_summary (pq : ParsedQuery) : string :=
  let ambiguities := detect_ambiguities pq in
  if is_nil ambiguities then "Query is clear and complete."
  else "Found " ++ string_of_N (N.of_nat (length ambiguities))
       ++ " ambiguity/ambiguities:" ++ newline ++ summary_lines 1 ambiguities.

(** [ProductQueryNormalizer.get_ambiguities] *)
Definition get_ambiguities (query : string) : result (list ClarificationRequest) :=
  parsed ← parse query;
  Ok (detect_ambiguities parsed).

(** The bounds [validate_against_product_type] looks up for a product. *)
Definition budget_bounds (pt : ProductTypeEnum.t) : Z * Z :=
  (table_get MINIMUM_BUDGET pt 500%Z, table_get MAXIMUM_BUDGET pt 500000%Z).

(* ===================================================================== *)
(** ** The parser in binary64                                              *)
(* ===================================================================== *)

(** The definitions above compute with exact rationals.  Python's [float]
    is IEEE 754 binary64: every operation returns the exact result rounded
    to the nearest representable value, ties to even.  This module gives
    the parser with that arithmetic, for the properties that depend on the
    value of a price or of a confidence. *)
Module B64.

(** A binary64 value: a finite number, kept as its exact value in lowest
    terms, an infinity, or a NaN.  The sign of a zero is not kept: no
    operation of the parser tells the two zeros apart. *)
Inductive float : Type :=
| Finite (q : Q)
| Inf (negative : bool)
| NaN.

(** The exponent of the leading bit of a positive rational: the [e] with
    [2^e <= q < 2^(e+1)]. *)
Definition ilog2 (q : Q) : Z :=
  let d := (Z.log2 (Qnum q) - Z.log2 (Zpos (Qden q)))%Z in
  if Qle_bool (2 ^ d) q then d else (d - 1)%Z.

(** The exponent of the last bit kept for a number that is not zero: 52
    below the leading bit, and not below -1074, the exponent of the
    subnormal numbers. *)
Definition exponent (q : Q) : Z := Z.max (ilog2 (Qabs q) - 52) (-1074).

(** Round to nearest, ties to even, with 53 bits of precision; overflow to
    an infinity from [2^1024] on. *)
Definition nearest (q : Q) : float :=
  if Qeq_bool q 0 then Finite 0
  else
    let e := exponent q in
    let m := round_half_even (q / 2 ^ e) in
    let r := Qred (inject_Z m * 2 ^ e) in
    if Qle_bool (2 ^ 1024) (Qabs r) then Inf (Qltb q 0) else Finite r.

(** A decimal literal of the source, such as [0.7]. *)
Definition literal (q : Q) : float := nearest q.

(** [float(n)] for an [int] *)
Definition of_int (n : Z) : float := nearest (inject_Z n).

(** [x * y] *)
Definition mul (x y : float) : float :=
  match x, y with
  | NaN, _ | _, NaN => NaN
  | Finite a, Finite b => nearest (a * b)
  | Inf s, Inf t => Inf (xorb s t)
  | Inf s, Finite b | Finite b, Inf s =>
      if Qeq_bool b 0 then NaN else Inf (xorb s (Qltb b 0))
  end.

(** [x + y] *)
Definition add (x y : float) : float :=
  match x, y with
  | NaN, _ | _, NaN => NaN
  | Finite a, Finite b => nearest (a + b)
  | Inf s, Inf t => if Bool.eqb s t then Inf s else NaN
  | Inf s, Finite _ | Finite _, Inf s => Inf s
  end.

(** [x / y] for a divisor that is not zero (Python raises
    [ZeroDivisionError] on a zero divisor; the parser divides by the length
    of a list that is never empty). *)
Definition div (x y : float) : float :=
  match x, y with
  | NaN, _ | _, NaN => NaN
  | Finite a, Finite b => if Qeq_bool b 0 then NaN else nearest (a / b)
  | Inf _, Inf _ => NaN
  | Inf s, Finite b => Inf (xorb s (Qltb b 0))
  | Finite _, Inf _ => Finite 0
  end.

(** [x < y], [x <= y], [x >= y] and [x == y]: false as soon as one side is
    a NaN. *)
Definition ltb (x y : float) : bool :=
  match x, y with
  | NaN, _ | _, NaN => false
  | Finite a, Finite b => Qltb a b
  | Finite _, Inf t => negb t
  | Inf s, Finite _ => s
  | Inf s, Inf t => s && negb t
  end.

Definition eqb (x y : float) : bool :=
  match x, y with
  | Finite a, Finite b => Qeq_bool a b
  | Inf s, Inf t => Bool.eqb s t
  | _, _ => false
  end.

Definition leb (x y : float) : bool := ltb x y || eqb x y.
Definition geb (x y : float) : bool := leb y x.

(** [sum(xs)]: the additions are made from left to right, starting from
    the integer 0, as CPython does up to version 3.11 (later versions
    compensate the rounding errors of the additions, which can change the
    last bit of a sum). *)
Definition sum (xs : list float) : float := fold_left add xs (of_int 0).

(** [sum(xs) / len(xs)] *)
Definition mean (xs : list float) : float :=
  div (sum xs) (of_int (Z.of_nat (length xs))).

Record PriceRange : Type := mkPriceRange {
  min_price : float;
  max_price : float;
}.

(** [PriceRange(min_price=lo, max_price=hi)], as above: [ge=0] on both
    fields, then the validator of [max_price]. *)
Definition PriceRange_new (lo hi : float) : result PriceRange :=
  let min_ok := geb lo (of_int 0) in
  let max_ok := geb hi (of_int 0) && negb (min_ok && ltb hi lo) in
  let errors := ((if min_ok then [] else ["min_price"])
              ++ (if max_ok then [] else ["max_price"]))%list in
  match errors with
  | [] => Ok (mkPriceRange lo hi)
  | _ => Raise (ValidationError errors)
  end.

Record ParsedQuery : Type := mkParsedQuery {
  product_type : ProductTypeEnum.t;
  price_range : option PriceRange;
  usage_context : list UsageContextEnum.t;
  feature_preferences : list string;
  original_query : string;
  confidence_score : float;
  is_complete : bool;
  missing_fields : list string;
}.

(** [ParsedQuery(...)]: [confidence_score] has [ge=0.0] and [le=1.0]. *)
Definition ParsedQuery_new (pt : ProductTypeEnum.t) (pr : option PriceRange)
    (uc : list UsageContextEnum.t) (fp : list string) (oq : string)
    (cs : float) (ic : bool) (mf : list string) : result ParsedQuery :=
  if geb cs (literal 0) && leb cs (literal 1)
  then Ok (mkParsedQuery pt pr uc fp oq cs ic mf)
  else Raise (ValidationError ["confidence_score"]).

(** [QueryParser.extract_product_type] *)
Definition extract_product_type (query : string) : ProductTypeEnum.t * float :=
  let normalized := normalize_text query in
  match scan_products normalized PRODUCT_KEYWORDS with
  | Some (product, confidence) => (product, literal confidence)
  | None => (ProductTypeEnum.UNKNOWN, literal 0.3)
  end.

(** [float(match.replace(",", "").replace(".", ""))]: the number the
    digits write, rounded to binary64. *)
Definition clean_price (m : string) : result float :=
  n ← float_of_digits (remove_char "." (remove_char "," m));
  Ok (nearest n).

Definition price_mentions (query : string) : result (list float) :=
  mapM clean_price (price_matches query).

Definition mem (x : float) (l : list float) : bool := existsb (eqb x) l.

(** [list(set(prices))]: one representative of each value. *)
Fixpoint list_of_set (l : list float) : list float :=
  match l with
  | [] => []
  | x :: l' => if mem x l' then list_of_set l' else x :: list_of_set l'
  end.

Fixpoint insert_sorted (x : float) (l : list float) : list float :=
  match l with
  | [] => [x]
  | y :: l' => if leb x y then x :: l else y :: insert_sorted x l'
  end.

(** [prices.sort()] *)
Definition list_sort (l : list float) : list float := fold_right insert_sorted [] l.

(** The part of [extract_price_range] after the matches are collected. *)
Definition range_of_prices (prices : list float)
    : result (option PriceRange * float) :=
  match prices with
  | [] => Ok (None, literal 0)
  | _ =>
      let prices := list_sort (list_of_set prices) in
      if (length prices =? 1)%nat then
        let max_price := List.hd NaN prices in
        let min_price := mul max_price (literal 0.7) in
        pr ← PriceRange_new min_price max_price;
        Ok (Some pr, literal 0.75)
      else
        pr ← PriceRange_new (List.hd NaN prices) (List.last prices NaN);
        Ok (Some pr, literal 0.85)
  end.

(** [QueryParser.extract_price_range] *)
Definition extract_price_range (query : string)
    : result (option PriceRange * float) :=
  prices ← price_mentions query;
  range_of_prices prices.

(** [QueryParser.extract_usage_context] *)
Definition extract_usage_context (query : string)
    : list UsageContextEnum.t * float :=
  let normalized := normalize_text query in
  let contexts :=
    flat_map (fun '(context, keywords) =>
                if existsb (fun keyword => contains keyword normalized) keywords
                then [context] else [])
             CONTEXT_KEYWORDS in
  let confidences := map (fun _ => literal 0.85) contexts in
  match contexts with
  | [] => ([], literal 0)
  | _ => (remove_dups contexts, mean confidences)
  end.

(** [QueryParser.extract_features] *)
Definition extract_features (query : string) : list string * float :=
  let normalized := normalize_text query in
  let features := filter (fun feature => contains feature normalized = true)
                         FEATURE_KEYWORDS in
  (features, match features with [] => literal 0 | _ => literal 0.8 end).

(** [QueryParser.parse] *)
Definition parse (query : string) : result ParsedQuery :=
  let '(product_type, product_conf) := extract_product_type query in
  '(price_range, price_conf) ← extract_price_range query;
  let '(contexts, context_conf) := extract_usage_context query in
  let '(features, feature_conf) := extract_features query in
  let confidences :=
    ([product_conf]
     ++ (if price_range is Some _ then [price_conf] else [])
     ++ (if is_nil contexts then [] else [context_conf])
     ++ (if is_nil features then [] else [feature_conf]))%list in
  let avg_confidence := mean confidences in
  let missing_fields :=
    ((if decide (product_type = ProductTypeEnum.UNKNOWN) then ["product_type"] else [])
     ++ (if price_range is Some _ then [] else ["price_range"])
     ++ (if is_nil contexts then ["usage_context"] else [])
     ++ (if is_nil features then ["feature_preferences"] else []))%list in
  let is_complete := (length missing_fields =? 0)%nat in
  ParsedQuery_new product_type price_range contexts features query
                  avg_confidence is_complete missing_fields.

End B64.

(* ===================================================================== *)
(** ** Reference definitions, in the words of the specification            *)
(* ===================================================================== *)

(** The keyword table read as one list, in declared order: the keywords of
    the first product, then those of the second, and so on. *)
Definition keyword_entries : list (string * ProductTypeEnum.t) :=
  flat_map (fun '(product, keywords) => map (fun keyword => (keyword, product)) keywords)
           PRODUCT_KEYWORDS.

(** The five rules of the ambiguity detector: the field each asks about and
    whether it is triggered. *)
Definition rule_conditions (pq : ParsedQuery) : list (string * bool) :=
  [ ("product_type", bool_decide (product_type pq = ProductTypeEnum.UNKNOWN));
    ("price_range", bool_decide (price_range pq = None));
    ("usage_context", bool_decide (usage_context pq = []));
    ("feature_preferences", bool_decide (feature_preferences pq = []));
    ("general", Qltb (confidence_score pq) 0.65) ].

(** The words a regular expression denotes. *)
Inductive matches : regex -> string -> Prop :=
| matches_eps : matches Eps ""
| matches_lit c : matches (Lit c) (String c "")
| matches_class (p : ascii -> bool) c : p c = true -> matches (Class p) (String c "")
| matches_seq r1 r2 w1 w2 :
    matches r1 w1 -> matches r2 w2 -> matches (Seq r1 r2) (w1 ++ w2)
| matches_alt_l r1 r2 w : matches r1 w -> matches (Alt r1 r2) w
| matches_alt_r r1 r2 w : matches r2 w -> matches (Alt r1 r2) w
| matches_opt_some r w : matches r w -> matches (Opt r) w
| matches_opt_none r : matches (Opt r) ""
| matches_star_nil r : matches (Star r) ""
| matches_star_cons r w1 w2 :
    matches r w1 -> matches (Star r) w2 -> matches (Star r) (w1 ++ w2)
| matches_group r w : matches r w -> matches (Group r) w.

(** Whether every match of the expression goes through a capturing group. *)
Fixpoint sets_capture (r : regex) : bool :=
  match r with
  | Group _ => true
  | Seq r1 r2 => sets_capture r1 || sets_capture r2
  | Alt r1 r2 => sets_capture r1 && sets_capture r2
  | _ => false
  end.

(** Every capturing group of the expression only captures words with the
    property [P]. *)
Fixpoint groups_capture (P : string -> Prop) (r : regex) : Prop :=
  match r with
  | Group r1 => (forall w, matches r1 w -> P w) /\ groups_capture P r1
  | Seq r1 r2 | Alt r1 r2 => groups_capture P r1 /\ groups_capture P r2
  | Opt r1 | Star r1 => groups_capture P r1
  | _ => True
  end.

(** The capture after a match: set by a group, to a word with the property
    of the groups, or left as it was by an expression that need not go
    through a group. *)
Definition capture_after (P : string -> Prop) (r : regex)
    (cap cap' : option string) : Prop :=
  (exists m, cap' = Some m /\ P m) \/ (cap' = cap /\ sets_capture r = false).

(** Every character the expression can consume satisfies [p]. *)
Fixpoint alphabet (p : ascii -> bool) (r : regex) : Prop :=
  match r with
  | Eps => True
  | Lit c => p c = true
  | Class q => forall c, q c = true -> p c = true
  | Seq r1 r2 | Alt r1 r2 => alphabet p r1 /\ alphabet p r2
  | Opt r1 | Star r1 | Group r1 => alphabet p r1
  end.

Fixpoint string_forall (p : ascii -> bool) (s : string) : bool :=
  match s with
  | EmptyString => true
  | String c s' => p c && string_forall p s'
  end.

(** The text of a captured number: a digit, then digits, commas and dots. *)
Definition number_text (m : string) : Prop :=
  match m with
  | EmptyString => False
  | String c rest =>
      is_digit c = true
      /\ string_forall (fun c => is_digit c || is_sep c) rest = true
  end.

(** The invariant of a price range. *)
Definition PriceRange_valid (pr : PriceRange) : Prop :=
  0 <= min_price pr /\ 0 <= max_price pr /\ min_price pr <= max_price pr.

Definition price_range_valid (o : option PriceRange) : Prop :=
  match o with
  | None => True
  | Some pr => PriceRange_valid pr
  end.

(** The value of a field of a [ParsedQuery], looked up by its name in the
    schema. *)
Inductive field_value : Type :=
| ProductTypeValue (p : ProductTypeEnum.t)
| PriceRangeValue (o : option PriceRange)
| UsageContextValue (l : list UsageContextEnum.t)
| FeaturePreferencesValue (l : list string)
| OriginalQueryValue (s : string)
| ConfidenceScoreValue (c : Q)
| IsCompleteValue (b : bool)
| MissingFieldsValue (l : list string).

Definition field_of (name : string) (q : ParsedQuery) : option field_value :=
  if String.eqb name "product_type" then Some (ProductTypeValue (product_type q))
  else if String.eqb name "price_range" then Some (PriceRangeValue (price_range q))
  else if String.eqb name "usage_context" then Some (UsageContextValue (usage_context q))
  else if String.eqb name "feature_preferences"
       then Some (FeaturePreferencesValue (feature_preferences q))
  else if String.eqb name "original_query"
       then Some (OriginalQueryValue (original_query q))
  else if String.eqb name "confidence_score"
       then Some (ConfidenceScoreValue (confidence_score q))
  else if String.eqb name "is_complete" then Some (IsCompleteValue (is_complete q))
  else if String.eqb name "missing_fields"
       then Some (MissingFieldsValue (missing_fields q))
  else None.

(** The fields a clarification never writes. *)
Definition same_parse_metadata (q q' : ParsedQuery) : Prop :=
  missing_fields q' = missing_fields q
  /\ is_complete q' = is_complete q
  /\ confidence_score q' = confidence_score q
  /\ original_query q' = original_query q.

(** A confidence lies between 0 and 1. *)
Definition unit_interval (x : Q) : Prop := 0 <= x /\ x <= 1.

(** Smallest and largest element of a list of numbers. *)
Definition is_smallest (x : Q) (l : list Q) : Prop :=
  In x l /\ forall y, In y l -> x <= y.

Definition is_largest (x : Q) (l : list Q) : Prop :=
  In x l /\ forall y, In y l -> y <= x.

(** A text with no comma in it, and one that [strip] leaves as it is: what
    an answer must be to survive the split on commas of the clarifier. *)
Definition no_comma (s : string) : bool :=
  string_forall (fun c => negb (Ascii.eqb c ",")) s.

Definition plain_feature (s : string) : Prop :=
  no_comma s = true /\ strip s = s.

(** The options a request offers, none when it offers no list. *)
Definition offered (a : ClarificationRequest) : list string :=
  default [] (options a).

(** [s.count(c)] for a one-character [c]. *)
Fixpoint count_char (c : ascii) (s : string) : nat :=
  match s with
  | EmptyString => 0%nat
  | String a s' => if Ascii.eqb a c then S (count_char c s') else count_char c s'
  end.

(** The query with another original text. *)
Definition set_original_query (q : ParsedQuery) (text : string) : ParsedQuery :=
  mkParsedQuery (product_type q) (price_range q) (usage_context q)
    (feature_preferences q) text
    (confidence_score q) (is_complete q) (missing_fields q).

(** The non-negative finite values of binary64: [M * 2^E] with [M] below
    [2^53] and [E] from -1074 up, below [2^1024]. *)
Definition binary64 (p : Q) : Prop :=
  p < 2 ^ 1024
  /\ exists M E : Z, (0 <= M < 2 ^ 53)%Z /\ (-1074 <= E)%Z /\ p == inject_Z M * 2 ^ E.

(** What a price read from digits can be: a non-negative finite value, in
    lowest terms, or the positive infinity. *)
Definition price_value (x : B64.float) : Prop :=
  x = B64.Inf false \/ exists q, x = B64.Finite q /\ binary64 q /\ Qred q = q.

(** The smallest and the largest of a list of binary64 values, by [<=]. *)
Definition is_smallest64 (x : B64.float) (l : list B64.float) : Prop :=
  In x l /\ forall y, In y l -> B64.leb x y = true.

Definition is_largest64 (x : B64.float) (l : list B64.float) : Prop :=
  In x l /\ forall y, In y l -> B64.leb y x = true.

(** A text of ASCII characters and rupee signs (U+20B9, the bytes 226 130
    185 of its UTF-8 form).  On such a text the bytes of the model are what
    Python reads: [lower], [strip], [\s] and [\d] act on ASCII characters
    only and leave the rupee sign alone. *)
Fixpoint plain_text_b (s : string) : bool :=
  match s with
  | EmptyString => true
  | String c s1 =>
      if (nat_of_ascii c <? 128)%nat then plain_text_b s1
      else match s1 with
           | String c2 (String c3 s3) =>
               Ascii.eqb c "226" && Ascii.eqb c2 "130" && Ascii.eqb c3 "185"
               && plain_text_b s3
           | _ => false
           end
  end.

Definition plain_text (s : string) : Prop := plain_text_b s = true.

(** The value of the literal 0.7 in binary64. *)
Definition seven_tenths : Q := 3152519739159347 # 4503599627370496.

(** The binary64 value next below the literal 0.85: 0.8499999999999999. *)
Definition below_085 : B64.float := B64.Finite (3828059683264921 # 4503599627370496).

(** The words of the claim on the product type, said without the functions
    of the parser.  A whitespace character of ASCII, for [str.strip]: tab,
    line feed, vertical tab, form feed, carriage return, the separators
    0x1c to 0x1f and the space. *)
Definition whitespace (c : ascii) : Prop :=
  In (nat_of_ascii c) [9; 10; 11; 12; 13; 28; 29; 30; 31; 32]%nat.

(** A text of whitespace only. *)
Definition blank (s : string) : Prop :=
  forall c, In c (list_ascii_of_string s) -> whitespace c.

(** A text that neither starts nor ends with whitespace. *)
Definition trimmed (s : string) : Prop :=
  (forall c t, s = String c t -> ~ whitespace c)
  /\ (forall t c, s = t ++ String c "" -> ~ whitespace c).

(** [t] is [s] with each letter from A to Z replaced by the letter 32
    code points up, a to z, and every other character kept. *)
Inductive lowercase : string -> string -> Prop :=
| lowercase_empty : lowercase "" ""
| lowercase_letter c s t :
    (65 <= nat_of_ascii c <= 90)%nat -> lowercase s t ->
    lowercase (String c s) (String (ascii_of_nat (nat_of_ascii c + 32)) t)
| lowercase_other c s t :
    ~ (65 <= nat_of_ascii c <= 90)%nat -> lowercase s t ->
    lowercase (String c s) (String c t).

(** [text] is [query] lowercased and stripped: the query is whitespace,
    a trimmed middle and whitespace again, and the text is the middle in
    lower case. *)
Definition lowercased_stripped (query text : string) : Prop :=
  exists l m r,
    query = l ++ m ++ r /\ blank l /\ blank r /\ trimmed m /\ lowercase m text.

(** [k] occurs in [t] as a substring; [k] starts [t]. *)
Definition occurs (k t : string) : Prop := exists u v, t = u ++ k ++ v.
Definition starts (k t : string) : Prop := exists v, t = k ++ v.

(** The price range of a query whose budget was missing, after any number
    of answers: still missing, or 0.7 v to v for a number v >= 0. *)
Definition answered_budget (o : option PriceRange) : Prop :=
  o = None \/ exists v, 0 <= v /\ o = Some (mkPriceRange (v * 0.7) v).

(* ===================================================================== *)
(** ** Example values                                                      *)
(* ===================================================================== *)

(** The query built at the end of schemas.py: every optional field of the
    schema is left to its default. *)
Definition schema_example_query : ParsedQuery :=
  mkParsedQuery ProductTypeEnum.HEADPHONES (Some (mkPriceRange 1000 5000))
    [UsageContextEnum.GYM] ["noise-cancelling"; "waterproof"]
    "Best headphones around 4k for gym" (5 # 10) false [].

(** What the parser returns on "gaming laptop". *)
Definition laptop_query : ParsedQuery :=
  mkParsedQuery ProductTypeEnum.LAPTOP None [UsageContextEnum.GAMING] []
    "gaming laptop" (17000 # 20000) false ["price_range"; "feature_preferences"].

(** A query on which no ambiguity is detected. *)
Definition earbuds_query_text : string :=
  "Waterproof earbuds under 5000 for outdoor activities".

(* ===================================================================== *)
(** * Properties                                                           *)
(* ===================================================================== *)

(** ** Comparisons *)

Lemma Qltb_lt (a b : Q) : Qltb a b = true <-> a < b.
Proof.
  unfold Qltb. rewrite negb_true_iff, <- not_true_iff_false, Qle_bool_iff.
  split; [apply Qnot_le_lt | apply Qlt_not_le].
Qed.

Lemma Qltb_ge (a b : Q) : Qltb a b = false <-> b <= a.
Proof. unfold Qltb. rewrite negb_false_iff. apply Qle_bool_iff. Qed.

Lemma Qgeb_le (a b : Q) : Qgeb a b = true <-> b <= a.
Proof. apply Qle_bool_iff. Qed.

Lemma Qgeb_lt (a b : Q) : Qgeb a b = false <-> a < b.
Proof.
  unfold Qgeb. rewrite <- not_true_iff_false, Qle_bool_iff.
  split; [apply Qnot_le_lt | apply Qlt_not_le].
Qed.

Lemma Qgtb_lt (a b : Q) : Qgtb a b = true <-> b < a.
Proof. apply Qltb_lt. Qed.

(** ** The validator *)

(** What [validate_price_range] rejects: a negative bound, a maximum below
    the minimum, and also a range of two positive bounds whose ratio is
    above 10. *)
Lemma validate_price_range_rejects (pr : PriceRange) :
  fst (validate_price_range (Some pr)) = false <->
  min_price pr < 0 \/ max_price pr < 0 \/ max_price pr < min_price pr \/
  (0 < max_price pr /\ 0 < min_price pr /\ 10 < max_price pr / min_price pr).
Proof.
  unfold validate_price_range.
  destruct (Qltb (min_price pr) 0) eqn:Hmin; simpl.
  { apply Qltb_lt in Hmin. tauto. }
  destruct (Qltb (max_price pr) 0) eqn:Hmax; simpl.
  { apply Qltb_lt in Hmax. tauto. }
  destruct (Qltb (max_price pr) (min_price pr)) eqn:Hord; simpl.
  { apply Qltb_lt in Hord. tauto. }
  apply Qltb_ge in Hmin, Hmax, Hord.
  destruct (Qgtb (max_price pr) 0) eqn:Hp1; simpl.
  - destruct (Qgtb (min_price pr) 0) eqn:Hp2; simpl.
    + destruct (Qgtb (max_price pr / min_price pr) 10) eqn:Hr; simpl.
      * apply Qgtb_lt in Hp1, Hp2, Hr. tauto.
      * apply Qltb_ge in Hr. split; [discriminate |].
        intros [H | [H | [H | (_ & _ & H)]]]; lra.
    + apply Qltb_ge in Hp2. split; [discriminate |].
      intros [H | [H | [H | (_ & H & _)]]]; lra.
  - apply Qltb_ge in Hp1. split; [discriminate |].
    intros [H | [H | [H | (H & _ & _)]]]; lra.
Qed.

(** C1 (the code departs from the claim).  On the range of the repository's
    own wide-range test, 1000 to 100000, both bounds are positive and the
    ratio is 100: [validate_price_range] returns [False] together with the
    too-wide message, and [validate_query] reports the query as invalid
    with that message as its validation error. *)
Theorem validate_price_range_wide_ratio_fails :
  validate_price_range (Some (mkPriceRange 1000 100000)) =
    (false, ["Price range too wide (ratio 100.0x). Consider narrowing your budget for better recommendations."])
  /\ forall pt uc fp oq cs ic mf,
       let q := mkParsedQuery pt (Some (mkPriceRange 1000 100000)) uc fp oq cs ic mf in
       is_valid (validate_query q) = false
       /\ validation_errors (validate_query q) =
            ["Price range too wide (ratio 100.0x). Consider narrowing your budget for better recommendations."].
Proof.
  split; [reflexivity |].
  intros pt uc fp oq cs ic mf q. unfold validate_query, q. simpl price_range.
  destruct (validate_against_product_type _ _). split; reflexivity.
Qed.

(** ** Strings *)

Lemma startswith_spec (p s : string) :
  startswith p s = true <-> exists t, s = p ++ t.
Proof.
  revert s. induction p as [| a p IH]; intros s; simpl.
  - split; [intros _; exists s; reflexivity | reflexivity].
  - destruct s as [| b s].
    + split; [discriminate | intros [t Ht]; discriminate].
    + destruct (Ascii.eqb_spec a b) as [-> | Hne].
      * rewrite IH. split; intros [t Ht]; exists t.
        -- now rewrite Ht.
        -- now injection Ht.
      * split; [discriminate | intros [t Ht]; injection Ht; congruence].
Qed.

(** [contains p s] holds exactly when [p] occurs in [s]. *)
Lemma contains_spec (p s : string) :
  contains p s = true <-> exists u t, s = u ++ p ++ t.
Proof.
  induction s as [| b s IH].
  - simpl. destruct (startswith p "") eqn:Hp.
    + apply startswith_spec in Hp as [t Ht].
      split; [intros _; exists "", t; exact Ht | reflexivity].
    + split; [discriminate |].
      intros (u & t & Hs). destruct u; simpl in Hs; [| discriminate].
      assert (startswith p "" = true) by (apply startswith_spec; eauto).
      congruence.
  - cbn [contains]. destruct (startswith p (String b s)) eqn:Hp.
    + apply startswith_spec in Hp as [t Ht].
      split; [intros _; exists "", t; exact Ht | reflexivity].
    + rewrite IH. split.
      * intros (u & t & ->). exists (String b u), t. reflexivity.
      * intros (u & t & Hs). destruct u as [| c u]; simpl in Hs.
        -- assert (startswith p (String b s) = true)
             by (apply startswith_spec; eauto).
           congruence.
        -- injection Hs as _ ->. eauto.
Qed.

(** ** The parser: product type *)

Lemma scan_products_flat (n : string) (table : list (ProductTypeEnum.t * list string)) :
  scan_products n table =
  match find (fun '(keyword, _) => contains keyword n)
             (flat_map (fun '(product, keywords) =>
                          map (fun keyword => (keyword, product)) keywords) table) with
  | Some (keyword, product) =>
      Some (product, if String.eqb keyword n || startswith keyword n
                     then 0.95 else 0.85)
  | None => None
  end.
Proof.
  induction table as [| [product keywords] rest IH]; [reflexivity |].
  cbn [scan_products flat_map].
  induction keywords as [| keyword keywords IHk]; cbn [first_keyword map app find].
  - exact IH.
  - destruct (contains keyword n); [| exact IHk].
    destruct (String.eqb keyword n || startswith keyword n); reflexivity.
Qed.

(** ** The ambiguity detector *)

(** C6.  [detect_ambiguities] returns one request per triggered rule, in
    rule order, each rule firing on its own condition whatever the others
    do; [is_ambiguous] holds exactly when one of the five conditions does. *)
Theorem detect_ambiguities_one_per_rule (pq : ParsedQuery) :
  map field_name (detect_ambiguities pq) =
    map fst (filter (fun rule => snd rule = true) (rule_conditions pq))
  /\ (is_ambiguous pq = true <->
        product_type pq = ProductTypeEnum.UNKNOWN
        \/ price_range pq = None
        \/ usage_context pq = []
        \/ feature_preferences pq = []
        \/ confidence_score pq < 0.65).
Proof.
  rewrite <- Qltb_lt.
  unfold is_ambiguous, detect_ambiguities, rule_conditions.
  destruct pq as [pt pr uc fp oq cs ic mf]; cbn [product_type price_range
    usage_context feature_preferences confidence_score].
  destruct (decide (pt = ProductTypeEnum.UNKNOWN)) as [Hpt | Hpt];
    [rewrite (bool_decide_eq_true_2 _ Hpt) | rewrite (bool_decide_eq_false_2 _ Hpt)];
    (destruct pr as [pr |]; destruct uc as [| c uc]; destruct fp as [| f fp];
     destruct (Qltb cs 0.65); (split; [reflexivity |]); cbn;
     split; intros H; try reflexivity; try discriminate; try tauto;
     try (right; tauto);
     destruct H as [H | [H | [H | [H | H]]]]; congruence).
Qed.

(** ** Construction of a price range *)

Lemma PriceRange_new_ok (lo hi : Q) :
  0 <= lo -> lo <= hi -> PriceRange_new lo hi = Ok (mkPriceRange lo hi).
Proof.
  intros Hlo Hord. unfold PriceRange_new.
  assert (Hhi : 0 <= hi) by lra.
  apply Qgeb_le in Hlo, Hhi. apply Qltb_ge in Hord.
  rewrite Hlo, Hhi, Hord. reflexivity.
Qed.

Lemma PriceRange_new_inv (lo hi : Q) (pr : PriceRange) :
  PriceRange_new lo hi = Ok pr ->
  pr = mkPriceRange lo hi /\ 0 <= lo /\ 0 <= hi /\ lo <= hi.
Proof.
  unfold PriceRange_new.
  destruct (Qgeb lo 0) eqn:Hlo; [| discriminate].
  destruct (Qgeb hi 0) eqn:Hhi; [| discriminate].
  destruct (Qltb hi lo) eqn:Hord; [discriminate |].
  simpl. intros [= <-].
  apply Qgeb_le in Hlo, Hhi. apply Qltb_ge in Hord. tauto.
Qed.

Lemma PriceRange_new_rejects (lo hi : Q) :
  lo < 0 \/ hi < 0 \/ hi < lo -> exists e, PriceRange_new lo hi = Raise e.
Proof.
  intros H. destruct (PriceRange_new lo hi) as [pr |] eqn:Hnew; [| eauto].
  apply PriceRange_new_inv in Hnew. lra.
Qed.

(** ** The parser: confidence of a parse *)

Lemma fold_left_Qplus_bounds (l : list Q) :
  Forall unit_interval l ->
  forall a, a <= fold_left Qplus l a
            /\ fold_left Qplus l a <= a + inject_Z (Z.of_nat (length l)).
Proof.
  induction 1 as [| x l [Hx0 Hx1] _ IH]; intros a; cbn [fold_left length].
  - change (inject_Z (Z.of_nat 0)) with 0. lra.
  - destruct (IH (a + x)) as [H1 H2].
    rewrite Nat2Z.inj_succ, <- Z.add_1_r, inject_Z_plus.
    change (inject_Z 1) with 1. lra.
Qed.

(** The mean of a non-empty list of values of the unit interval lies in
    the unit interval. *)
Lemma mean_unit_interval (l : list Q) :
  l <> [] -> Forall unit_interval l ->
  unit_interval (Qsum l / inject_Z (Z.of_nat (length l))).
Proof.
  intros Hne Hl.
  destruct (fold_left_Qplus_bounds l Hl 0) as [H0 H1].
  fold (Qsum l) in H0, H1.
  assert (Hn : 0 < inject_Z (Z.of_nat (length l))).
  { destruct l; [congruence |]. cbn [length].
    change 0 with (inject_Z 0). rewrite <- Zlt_Qlt. lia. }
  split.
  - apply Qle_shift_div_l; [exact Hn | lra].
  - apply Qle_shift_div_r; [exact Hn | lra].
Qed.

Lemma extract_product_type_confidence (query : string) :
  unit_interval (snd (extract_product_type query)).
Proof.
  unfold extract_product_type. rewrite scan_products_flat.
  destruct (find _ _) as [[keyword product] |]; cbn [snd];
    [destruct (_ || _) |]; unfold unit_interval; cbn [snd]; lra.
Qed.

Lemma extract_usage_context_confidence (query : string) :
  unit_interval (snd (extract_usage_context query)).
Proof.
  unfold extract_usage_context.
  destruct (flat_map _ _) as [| c l] eqn:Hl; cbn [snd];
    [unfold unit_interval; lra |].
  apply mean_unit_interval; [discriminate |].
  apply List.Forall_forall. intros x Hx. apply in_map_iff in Hx as (_ & <- & _).
  unfold unit_interval; lra.
Qed.

Lemma extract_features_confidence (query : string) :
  unit_interval (snd (extract_features query)).
Proof.
  unfold extract_features. cbn [snd].
  destruct (filter _ _); unfold unit_interval; lra.
Qed.

Lemma range_of_prices_confidence (prices : list Q) (o : option PriceRange) (c : Q) :
  range_of_prices prices = Ok (o, c) -> unit_interval c.
Proof.
  unfold range_of_prices. destruct prices as [| p l].
  - intros [= _ <-]. unfold unit_interval; lra.
  - destruct (_ =? 1)%nat; destruct (PriceRange_new _ _); cbn [mbind result_bind];
      intros [= _ <-]; unfold unit_interval; lra.
Qed.

Ltac confidences_in_unit_interval H :=
  first [ apply List.Forall_nil
        | apply List.Forall_cons; [exact H | apply List.Forall_nil] ].

(** The parser returns whenever the price extraction does: the mean
    confidence it stores always passes the bounds of the schema. *)
Lemma parse_returns (query : string) (o : option PriceRange) (c : Q) :
  extract_price_range query = Ok (o, c) ->
  exists pq, parse query = Ok pq /\ price_range pq = o.
Proof.
  intros Hprice. unfold parse. rewrite Hprice.
  pose proof (extract_product_type_confidence query) as Hpc.
  pose proof (extract_usage_context_confidence query) as Hcc.
  pose proof (extract_features_confidence query) as Hfc.
  destruct (extract_product_type query) as [pt pc].
  destruct (extract_usage_context query) as [uc ucc].
  destruct (extract_features query) as [fp fpc].
  cbn [mbind result_bind snd] in *.
  assert (Hc : unit_interval c).
  { unfold extract_price_range in Hprice.
    destruct (price_mentions query); [| discriminate].
    eapply range_of_prices_confidence; eauto. }
  unfold ParsedQuery_new.
  match goal with
  | |- context [Qsum ?l / inject_Z (Z.of_nat (length ?l))] =>
      assert (Hmean : unit_interval (Qsum l / inject_Z (Z.of_nat (length l))))
  end.
  { apply mean_unit_interval; [discriminate |].
    apply Forall_app; split; [confidences_in_unit_interval Hpc |].
    apply Forall_app; split; [destruct o; confidences_in_unit_interval Hc |].
    apply Forall_app; split; [destruct (is_nil uc); confidences_in_unit_interval Hcc |].
    destruct (is_nil fp); confidences_in_unit_interval Hfc. }
  destruct Hmean as [H0 H1].
  apply Qgeb_le in H0. apply Qle_bool_iff in H1.
  rewrite H0, H1. cbn [andb]. eexists. split; reflexivity.
Qed.

(** ** The matcher *)

Lemma string_length_app (u v : string) :
  String.length (u ++ v) = (String.length u + String.length v)%nat.
Proof.
  induction u as [| c u IH]; [reflexivity |].
  change (S (String.length (u ++ v)) = S (String.length u + String.length v)).
  now rewrite IH.
Qed.

Lemma string_app_assoc (u v w : string) : (u ++ v) ++ w = u ++ v ++ w.
Proof.
  induction u as [| c u IH]; [reflexivity |].
  change (String c ((u ++ v) ++ w) = String c (u ++ v ++ w)).
  now rewrite IH.
Qed.

Lemma substring_prefix (u v : string) :
  substring 0 (String.length (u ++ v) - String.length v) (u ++ v) = u.
Proof.
  rewrite string_length_app.
  replace (String.length u + String.length v - String.length v)%nat
    with (String.length u) by lia.
  induction u as [| c u IH].
  - destruct v; reflexivity.
  - change (String c (substring 0 (String.length u) (u ++ v)) = String c u).
    now rewrite IH.
Qed.

Section MatcherSoundness.
Context {R : Type} (P : string -> Prop).

(** Whenever the matcher succeeds, the continuation succeeded on the rest
    of the text after a word of the expression. *)
Lemma rmatch_sound (r : regex) :
  groups_capture P r ->
  forall (s : string) (cap : option string)
         (k : string -> option string -> option R) (x : R),
  rmatch r s cap k = Some x ->
  exists w s' cap',
    s = w ++ s' /\ matches r w /\ k s' cap' = Some x
    /\ capture_after P r cap cap'.
Proof.
  induction r as [| c | p | r1 IH1 r2 IH2 | r1 IH1 r2 IH2 | r1 IH1 | r1 IH1 | r1 IH1];
    intros Hg s cap k x; cbn [rmatch].
  - intros H. exists "", s, cap. repeat split; [constructor | exact H |].
    right. split; reflexivity.
  - destruct s as [| a s]; [discriminate |].
    destruct (Ascii.eqb_spec a c) as [-> | _]; [| discriminate].
    intros H. exists (String c ""), s, cap.
    repeat split; [constructor | exact H |]. right. split; reflexivity.
  - destruct s as [| a s]; [discriminate |].
    destruct (p a) eqn:Hp; [| discriminate].
    intros H. exists (String a ""), s, cap.
    repeat split; [now constructor | exact H |]. right. split; reflexivity.
  - destruct Hg as [Hg1 Hg2]. intros H.
    apply (IH1 Hg1) in H as (w1 & s1 & cap1 & -> & Hm1 & H & Hc1).
    apply (IH2 Hg2) in H as (w2 & s2 & cap2 & -> & Hm2 & H & Hc2).
    exists (w1 ++ w2), s2, cap2.
    split; [now rewrite string_app_assoc |].
    split; [now constructor |]. split; [exact H |].
    unfold capture_after in *. cbn [sets_capture].
    destruct Hc2 as [Hc2 | [-> Hs2]]; [now left |].
    destruct Hc1 as [Hc1 | [-> Hs1]]; [now left |].
    right. now rewrite Hs1, Hs2.
  - destruct Hg as [Hg1 Hg2].
    destruct (rmatch r1 s cap k) as [y |] eqn:H1.
    + intros [= ->].
      apply (IH1 Hg1) in H1 as (w & s' & cap' & -> & Hm & H & Hc).
      exists w, s', cap'. repeat split; [now apply matches_alt_l | exact H |].
      unfold capture_after in *. cbn [sets_capture].
      destruct Hc as [Hc | [-> Hs]]; [now left |]. right. now rewrite Hs.
    + intros H2.
      apply (IH2 Hg2) in H2 as (w & s' & cap' & -> & Hm & H & Hc).
      exists w, s', cap'. repeat split; [now apply matches_alt_r | exact H |].
      unfold capture_after in *. cbn [sets_capture].
      destruct Hc as [Hc | [-> Hs]]; [now left |].
      right. rewrite Hs. now rewrite andb_false_r.
  - cbn [groups_capture] in Hg.
    destruct (rmatch r1 s cap k) as [y |] eqn:H1.
    + intros [= ->].
      apply (IH1 Hg) in H1 as (w & s' & cap' & -> & Hm & H & Hc).
      exists w, s', cap'. repeat split; [now apply matches_opt_some | exact H |].
      unfold capture_after in *. cbn [sets_capture].
      destruct Hc as [Hc | [-> Hs]]; [now left | now right].
    + intros H. exists "", s, cap.
      repeat split; [apply matches_opt_none | exact H |].
      right. split; reflexivity.
  - cbn [groups_capture] in Hg.
    generalize (String.length s) as n. intros n. revert s cap.
    induction n as [| n IHn]; intros s cap; cbn [star_loop].
    + intros H. exists "", s, cap.
      repeat split; [constructor | exact H |]. right. split; reflexivity.
    + match goal with
      | |- context [rmatch r1 s cap ?k1] => destruct (rmatch r1 s cap k1) as [y |] eqn:H1
      end.
      * intros [= ->].
        apply (IH1 Hg) in H1 as (w1 & s1 & cap1 & -> & Hm1 & H & Hc1).
        destruct (_ <? _)%nat; [| discriminate].
        apply IHn in H as (w2 & s2 & cap2 & -> & Hm2 & H & Hc2).
        exists (w1 ++ w2), s2, cap2.
        split; [now rewrite string_app_assoc |].
        split; [now constructor |]. split; [exact H |].
        unfold capture_after in *. cbn [sets_capture] in *.
        destruct Hc2 as [Hc2 | [-> _]]; [now left |].
        destruct Hc1 as [Hc1 | [-> _]]; [now left | now right].
      * intros H. exists "", s, cap.
        repeat split; [constructor | exact H |]. right. split; reflexivity.
  - destruct Hg as [HP Hg]. intros H.
    apply (IH1 Hg) in H as (w & s' & cap' & -> & Hm & H & _).
    rewrite substring_prefix in H.
    exists w, s', (Some w).
    repeat split; [now constructor | exact H |].
    left. exists w. split; [reflexivity | now apply HP].
Qed.

End MatcherSoundness.

(** *** The fuel of the matcher is never exhausted *)

Section MatcherFuel.
Context {R : Type}.

Lemma star_loop_ext
    (step : string -> option string -> (string -> option string -> option R) -> option R)
    (k k' : string -> option string -> option R) :
  (forall s cap k1 k2, (forall s' c', k1 s' c' = k2 s' c') ->
                       step s cap k1 = step s cap k2) ->
  (forall s c, k s c = k' s c) ->
  forall n s cap, star_loop step k n s cap = star_loop step k' n s cap.
Proof.
  intros Hstep Hk. induction n as [| n IH]; intros s cap; cbn [star_loop].
  - apply Hk.
  - replace (step s cap (fun s' cap' =>
               if (String.length s' <? String.length s)%nat
               then star_loop step k n s' cap' else None))
      with (step s cap (fun s' cap' =>
               if (String.length s' <? String.length s)%nat
               then star_loop step k' n s' cap' else None)).
    + now rewrite Hk.
    + apply Hstep. intros s' c'.
      destruct (_ <? _)%nat; [symmetry; apply IH | reflexivity].
Qed.

(** The matcher only looks at the results of its continuation. *)
Lemma rmatch_ext (r : regex) :
  forall (s : string) (cap : option string)
         (k k' : string -> option string -> option R),
  (forall s' c', k s' c' = k' s' c') ->
  rmatch r s cap k = rmatch r s cap k'.
Proof.
  induction r as [| c | p | r1 IH1 r2 IH2 | r1 IH1 r2 IH2 | r1 IH1 | r1 IH1 | r1 IH1];
    intros s cap k k' Hk; cbn [rmatch].
  - apply Hk.
  - destruct s as [| a s]; [reflexivity |]. destruct (Ascii.eqb a c); auto.
  - destruct s as [| a s]; [reflexivity |]. destruct (p a); auto.
  - apply IH1. intros s' c'. now apply IH2.
  - rewrite (IH1 s cap k k' Hk), (IH2 s cap k k' Hk). reflexivity.
  - rewrite (IH1 s cap k k' Hk), Hk. reflexivity.
  - apply star_loop_ext; [| exact Hk].
    intros s0 cap0 k1 k2 H12. now apply IH1.
  - apply IH1. intros s' c'. apply Hk.
Qed.

(** Under a continuation that always fails, so does the matcher. *)
Lemma rmatch_fails (r : regex) :
  forall (s : string) (cap : option string),
  rmatch r s cap (fun _ _ => @None R) = None.
Proof.
  induction r as [| c | p | r1 IH1 r2 IH2 | r1 IH1 r2 IH2 | r1 IH1 | r1 IH1 | r1 IH1];
    intros s cap; cbn [rmatch].
  - reflexivity.
  - destruct s as [| a s]; [reflexivity |]. now destruct (Ascii.eqb a c).
  - destruct s as [| a s]; [reflexivity |]. now destruct (p a).
  - transitivity (rmatch r1 s cap (fun _ _ => @None R)); [| apply IH1].
    apply rmatch_ext. intros s' c'. apply IH2.
  - now rewrite IH1, IH2.
  - now rewrite IH1.
  - generalize (String.length s) as n. intros n. revert s cap.
    induction n as [| n IHn]; intros s cap; cbn [star_loop]; [reflexivity |].
    replace (rmatch r1 s cap _) with (rmatch r1 s cap (fun _ _ => @None R));
      [now rewrite IH1 |].
    apply rmatch_ext. intros s' c'.
    destruct (_ <? _)%nat; [symmetry; apply IHn | reflexivity].
  - transitivity (rmatch r1 s cap (fun _ _ => @None R)); [| apply IH1].
    apply rmatch_ext. reflexivity.
Qed.

(** Any number of rounds that is at least the length of the text gives the
    same result. *)
Lemma star_loop_enough (r : regex) (k : string -> option string -> option R) :
  forall (n m : nat) (s : string) (cap : option string),
  (String.length s <= n)%nat -> (String.length s <= m)%nat ->
  star_loop (rmatch r) k n s cap = star_loop (rmatch r) k m s cap.
Proof.
  assert (Hempty : forall n s cap, String.length s = 0%nat ->
            star_loop (rmatch r) k n s cap = k s cap).
  { intros [| n] s cap Hs; cbn [star_loop]; [reflexivity |].
    replace (rmatch r s cap _) with (rmatch r s cap (fun _ _ => @None R));
      [now rewrite rmatch_fails |].
    apply rmatch_ext. intros s' c'. rewrite Hs. reflexivity. }
  induction n as [| n IH]; intros m s cap Hn Hm.
  - rewrite !Hempty by lia. reflexivity.
  - destruct m as [| m]; [rewrite !Hempty by lia; reflexivity |].
    cbn [star_loop].
    replace (rmatch r s cap (fun s' cap' =>
               if (String.length s' <? String.length s)%nat
               then star_loop (rmatch r) k n s' cap' else None))
      with (rmatch r s cap (fun s' cap' =>
               if (String.length s' <? String.length s)%nat
               then star_loop (rmatch r) k m s' cap' else None));
      [reflexivity |].
    apply rmatch_ext. intros s' c'.
    destruct (String.length s' <? String.length s)%nat eqn:Hlt; [| reflexivity].
    apply Nat.ltb_lt in Hlt. symmetry. apply IH; lia.
Qed.

(** The equation of a greedy repetition: one more repetition that consumes
    something and then the repetition again, or else the continuation. *)
Lemma rmatch_star_unfold (r : regex) (s : string) (cap : option string)
    (k : string -> option string -> option R) :
  rmatch (Star r) s cap k =
  match rmatch r s cap (fun s' cap' =>
          if (String.length s' <? String.length s)%nat
          then rmatch (Star r) s' cap' k else None) with
  | Some x => Some x
  | None => k s cap
  end.
Proof.
  cbn [rmatch].
  rewrite (star_loop_enough r k (String.length s) (S (String.length s)) s cap)
    by lia.
  cbn [star_loop].
  replace (rmatch r s cap (fun s' cap' =>
             if (String.length s' <? String.length s)%nat
             then star_loop (rmatch r) k (String.length s) s' cap' else None))
    with (rmatch r s cap (fun s' cap' =>
             if (String.length s' <? String.length s)%nat
             then star_loop (rmatch r) k (String.length s') s' cap' else None));
    [reflexivity |].
  apply rmatch_ext. intros s' c'.
  destruct (String.length s' <? String.length s)%nat eqn:Hlt; [| reflexivity].
  apply Nat.ltb_lt in Hlt. apply star_loop_enough; lia.
Qed.

End MatcherFuel.

(** The scan of [findall] reaches the end of the text with fuel left. *)
Lemma findall_from_enough (r : regex) :
  forall (fuel fuel' : nat) (s : string),
  (String.length s < fuel)%nat -> (String.length s < fuel')%nat ->
  findall_from fuel r s = findall_from fuel' r s.
Proof.
  induction fuel as [| fuel IH]; intros fuel' s Hf Hf'; [lia |].
  destruct fuel' as [| fuel']; [lia |].
  cbn [findall_from].
  destruct (rmatch r s None _) as [[s' cap] |].
  - destruct (String.length s' <? String.length s)%nat eqn:Hlt.
    + apply Nat.ltb_lt in Hlt. f_equal. apply IH; lia.
    + destruct s as [| c t]; [reflexivity |]. f_equal.
      cbn [String.length] in *. apply IH; lia.
  - destruct s as [| c t]; [reflexivity |].
    cbn [String.length] in *. apply IH; lia.
Qed.

(** The equation of [findall]: a match at the head of the text, then the
    matches of the rest; or no match here, and the matches one character
    further. *)
Lemma findall_unfold (r : regex) (s : string) :
  findall r s =
  match rmatch r s None (fun s' cap => Some (s', cap)) with
  | Some (s', cap) =>
      default EmptyString cap ::
      (if (String.length s' <? String.length s)%nat then findall r s'
       else match s with
            | EmptyString => []
            | String _ t => findall r t
            end)
  | None =>
      match s with
      | EmptyString => []
      | String _ t => findall r t
      end
  end.
Proof.
  unfold findall at 1. cbn [findall_from].
  destruct (rmatch r s None _) as [[s' cap] |].
  - destruct (String.length s' <? String.length s)%nat eqn:Hlt.
    + apply Nat.ltb_lt in Hlt. f_equal. apply findall_from_enough; lia.
    + destruct s as [| c t]; reflexivity.
  - destruct s as [| c t]; reflexivity.
Qed.

(** ** The parser: price range *)

Lemma digits_acc_nonneg (s : string) :
  forall acc z, (0 <= acc)%Z -> digits_acc acc s = Some z -> (0 <= z)%Z.
Proof.
  induction s as [| c s IH]; intros acc z Hacc; cbn [digits_acc].
  - intros [= <-]. exact Hacc.
  - destruct (is_digit c); [| discriminate].
    apply IH. unfold digit_value. lia.
Qed.

Lemma clean_price_nonneg (m : string) (p : Q) : clean_price m = Ok p -> 0 <= p.
Proof.
  unfold clean_price, float_of_digits.
  destruct (remove_char _ _) as [| c s]; [discriminate |].
  destruct (digits_acc 0 (String c s)) as [z |] eqn:Hz; [| discriminate].
  intros [= <-]. apply digits_acc_nonneg in Hz; [| lia].
  change 0 with (inject_Z 0). now rewrite <- Zle_Qle.
Qed.

Lemma mapM_clean_price_nonneg (ms : list string) :
  forall prices, mapM clean_price ms = Ok prices -> Forall (Qle 0) prices.
Proof.
  induction ms as [| m ms IH]; intros prices; cbn [mapM].
  - intros [= <-]. constructor.
  - destruct (clean_price m) as [p |] eqn:Hp; [| discriminate].
    cbn [mbind result_bind].
    destruct (mapM clean_price ms) as [ps |]; [| discriminate].
    cbn [mbind result_bind]. intros [= <-].
    constructor; [eapply clean_price_nonneg; eauto | now apply IH].
Qed.

(** Every price the parser collects is non-negative. *)
Lemma price_mentions_nonneg (query : string) (prices : list Q) :
  price_mentions query = Ok prices -> Forall (Qle 0) prices.
Proof. apply mapM_clean_price_nonneg. Qed.

Lemma Qmem_spec (x : Q) (l : list Q) :
  Qmem x l = true <-> exists y, In y l /\ x == y.
Proof.
  unfold Qmem. rewrite existsb_exists.
  split; intros (y & Hy & H); exists y; (split; [exact Hy |]);
    now apply Qeq_bool_iff.
Qed.

Lemma list_of_set_incl (x : Q) (l : list Q) : In x (list_of_set l) -> In x l.
Proof.
  induction l as [| a l IH]; cbn [list_of_set]; [tauto |].
  destruct (Qmem a l); cbn [In]; tauto.
Qed.

(** Every value of the list has a representative in the set. *)
Lemma list_of_set_represents (l : list Q) :
  forall x, In x l -> exists y, In y (list_of_set l) /\ x == y.
Proof.
  induction l as [| a l IH]; intros x; cbn [list_of_set In]; [tauto |].
  destruct (Qmem a l) eqn:Hmem.
  - intros [<- | Hx]; [| now apply IH].
    apply Qmem_spec in Hmem as (y & Hy & Hay).
    destruct (IH y Hy) as (z & Hz & Hyz). exists z.
    split; [exact Hz |]. now rewrite Hay.
  - intros [<- | Hx].
    + exists a. split; [now left | reflexivity].
    + destruct (IH x Hx) as (z & Hz & Hxz). exists z. split; [now right | exact Hxz].
Qed.

Lemma insert_sorted_In (x y : Q) (l : list Q) :
  In y (insert_sorted x l) <-> y = x \/ In y l.
Proof.
  induction l as [| a l IH]; cbn [insert_sorted In].
  - intuition.
  - destruct (Qle_bool x a); cbn [In]; rewrite ?IH; intuition.
Qed.

Lemma list_sort_In (y : Q) (l : list Q) : In y (list_sort l) <-> In y l.
Proof.
  induction l as [| a l IH]; cbn [list_sort fold_right In]; [tauto |].
  fold (list_sort l). rewrite insert_sorted_In, IH. intuition.
Qed.

Lemma insert_sorted_sorted (x : Q) (l : list Q) :
  StronglySorted Qle l -> StronglySorted Qle (insert_sorted x l).
Proof.
  induction 1 as [| a l Hl IH Ha]; cbn [insert_sorted].
  - repeat constructor.
  - destruct (Qle_bool x a) eqn:Hxa.
    + apply Qle_bool_iff in Hxa.
      constructor; [now constructor |].
      constructor; [exact Hxa |].
      rewrite List.Forall_forall in Ha. apply List.Forall_forall.
      intros b Hb. specialize (Ha b Hb). lra.
    + assert (Hax : a <= x).
      { apply Qlt_le_weak, Qnot_le_lt. intros H. apply Qle_bool_iff in H. congruence. }
      constructor; [exact IH |].
      apply List.Forall_forall. intros b Hb.
      apply insert_sorted_In in Hb as [-> | Hb]; [exact Hax |].
      rewrite List.Forall_forall in Ha. now apply Ha.
Qed.

Lemma list_sort_sorted (l : list Q) : StronglySorted Qle (list_sort l).
Proof.
  induction l as [| a l IH]; cbn [list_sort fold_right]; [constructor |].
  now apply insert_sorted_sorted.
Qed.

(** In a sorted, non-empty list the head is the smallest element and the
    last element the largest. *)
Lemma sorted_hd_smallest (l : list Q) :
  StronglySorted Qle l -> l <> [] -> is_smallest (List.hd 0 l) l.
Proof.
  intros Hs Hne. destruct l as [| a l]; [congruence |].
  apply StronglySorted_inv in Hs as [_ Ha]. rewrite List.Forall_forall in Ha.
  cbn [List.hd]. split; [now left |].
  intros y [<- | Hy]; [apply Qle_refl | now apply Ha].
Qed.

Lemma sorted_last_largest (l : list Q) :
  StronglySorted Qle l -> l <> [] -> is_largest (List.last l 0) l.
Proof.
  induction 1 as [| a l Hl IH Ha]; [congruence |]. intros _.
  destruct l as [| b l].
  - cbn [List.last]. split; [now left |]. intros y [<- | []]. apply Qle_refl.
  - destruct IH as [Hin Hmax]; [discriminate |].
    change (List.last (a :: b :: l) 0) with (List.last (b :: l) 0).
    split; [now right |].
    intros y [<- | Hy]; [| now apply Hmax].
    rewrite List.Forall_forall in Ha. now apply Ha.
Qed.

Lemma is_smallest_unique (x y : Q) (l l' : list Q) :
  Permutation l l' -> is_smallest x l -> is_smallest y l' -> x == y.
Proof.
  intros Hp [Hx Hmin] [Hy Hmin'].
  apply Qle_antisym.
  - apply Hmin. eapply Permutation_in; [symmetry; exact Hp | exact Hy].
  - apply Hmin'. eapply Permutation_in; [exact Hp | exact Hx].
Qed.

Lemma is_largest_unique (x y : Q) (l l' : list Q) :
  Permutation l l' -> is_largest x l -> is_largest y l' -> x == y.
Proof.
  intros Hp [Hx Hmax] [Hy Hmax'].
  apply Qle_antisym.
  - apply Hmax'. eapply Permutation_in; [exact Hp | exact Hx].
  - apply Hmax. eapply Permutation_in; [symmetry; exact Hp | exact Hy].
Qed.

(** The sorted set of a list of prices with two different values: it has
    at least two elements, its head is the smallest price and its last
    element the largest. *)
Lemma sorted_set_of_several (l : list Q) :
  (exists a b, In a l /\ In b l /\ ~ a == b) ->
  let s := list_sort (list_of_set l) in
  (length s =? 1)%nat = false
  /\ is_smallest (List.hd 0 s) l
  /\ is_largest (List.last s 0) l.
Proof.
  intros (a & b & Ha & Hb & Hab) s.
  assert (Hrep : forall x, In x l -> exists y, In y s /\ x == y).
  { intros x Hx. destruct (list_of_set_represents l x Hx) as (y & Hy & Hxy).
    exists y. split; [now apply list_sort_In | exact Hxy]. }
  assert (Hincl : forall x, In x s -> In x l).
  { intros x Hx. now apply list_of_set_incl, list_sort_In. }
  assert (Hne : s <> []).
  { destruct (Hrep a Ha) as (y & Hy & _). intros E. rewrite E in Hy. exact Hy. }
  pose proof (sorted_hd_smallest s (list_sort_sorted _) Hne) as [Hhd Hmin].
  pose proof (sorted_last_largest s (list_sort_sorted _) Hne) as [Hlast Hmax].
  split; [| split].
  - destruct s as [| x [| y s']]; [congruence | | reflexivity].
    exfalso. apply Hab.
    destruct (Hrep a Ha) as (a' & [<- | []] & Haa).
    destruct (Hrep b Hb) as (b' & [<- | []] & Hbb).
    now rewrite Haa, Hbb.
  - split; [now apply Hincl |].
    intros y Hy. destruct (Hrep y Hy) as (y' & Hy' & ->). now apply Hmin.
  - split; [now apply Hincl |].
    intros y Hy. destruct (Hrep y Hy) as (y' & Hy' & ->). now apply Hmax.
Qed.

(** Two or more distinct prices: the range runs from the smallest to the
    largest, with confidence 0.85. *)
Lemma range_of_prices_several (l : list Q) :
  Forall (Qle 0) l ->
  (exists a b, In a l /\ In b l /\ ~ a == b) ->
  exists pr, range_of_prices l = Ok (Some pr, 0.85)
    /\ is_smallest (min_price pr) l /\ is_largest (max_price pr) l.
Proof.
  intros Hpos Hab.
  destruct (sorted_set_of_several l Hab) as (Hlen & Hmin & Hmax).
  unfold range_of_prices.
  destruct l as [| p l]; [destruct Hab as (a & _ & [] & _) |].
  rewrite Hlen.
  rewrite List.Forall_forall in Hpos.
  rewrite PriceRange_new_ok.
  - cbn [mbind result_bind]. eexists. split; [reflexivity |]. split; assumption.
  - apply Hpos, Hmin.
  - apply Hmin, Hmax.
Qed.

(** Every text [findall] returns was captured by a group, when each match
    of the pattern goes through one. *)
Lemma findall_from_captured (P : string -> Prop) (r : regex) :
  groups_capture P r -> sets_capture r = true ->
  forall (fuel : nat) (s m : string), In m (findall_from fuel r s) -> P m.
Proof.
  intros Hg Hs. induction fuel as [| fuel IH]; intros s m; cbn [findall_from];
    [intros [] |].
  destruct (rmatch r s None _) as [[s' cap] |] eqn:Hrun.
  - apply (rmatch_sound P r Hg) in Hrun as (w & s1 & cap1 & _ & _ & [= <- <-] & Hc).
    destruct Hc as [(g & -> & Hg') | [_ Hs']]; [| congruence].
    cbn [default].
    destruct (_ <? _)%nat; [| destruct s as [| c t]];
      (intros [<- | Hin]; [exact Hg' |]); [eapply IH; eauto | destruct Hin | eapply IH; eauto].
  - destruct s as [| c t]; [intros [] | apply IH].
Qed.

Lemma matches_alphabet (p : ascii -> bool) (r : regex) (w : string) :
  matches r w -> alphabet p r -> string_forall p w = true.
Proof.
  assert (Happ : forall u v, string_forall p u = true -> string_forall p v = true ->
                             string_forall p (u ++ v) = true).
  { induction u as [| c u IHu]; intros v Hu Hv; [exact Hv |].
    change (p c && string_forall p (u ++ v) = true).
    cbn [string_forall] in Hu. apply andb_true_iff in Hu as [-> Hu].
    now apply IHu. }
  induction 1; cbn [alphabet string_forall]; intros Ha;
    try reflexivity; try tauto.
  - now rewrite Ha.
  - rewrite Ha by assumption. reflexivity.
  - apply Happ; tauto.
  - apply Happ; [tauto |]. now apply IHmatches2.
Qed.

(** What the group of the price patterns captures. *)
Lemma number_group_text (w : string) :
  matches (Seq (Plus digit) (Star (Seq (Opt (Class is_sep)) (Rep3 digit)))) w ->
  number_text w.
Proof.
  intros Hm.
  assert (Hall : string_forall (fun c => is_digit c || is_sep c) w = true).
  { apply (matches_alphabet _ _ _ Hm). cbn.
    repeat split; intros c ->; auto using orb_true_r. }
  inversion Hm as [| | | r1 r2 w1 w2 H1 H2 | | | | | | |]; subst.
  inversion H1 as [| | | r1 r2 w3 w4 H3 H4 | | | | | | |]; subst.
  inversion H3 as [| | p c Hc | | | | | | | |]; subst.
  rewrite !string_app_assoc in Hall |- *.
  change (String c "" ++ w4 ++ w2) with (String c (w4 ++ w2)) in *.
  cbn [number_text string_forall] in *.
  apply andb_true_iff in Hall as [_ Hall]. now split.
Qed.

Lemma PRICE_PATTERNS_capture_numbers (pattern : regex) :
  In pattern PRICE_PATTERNS ->
  groups_capture number_text pattern /\ sets_capture pattern = true.
Proof.
  intros Hin. cbn in Hin.
  repeat (destruct Hin as [<- | Hin]; [cbn; split; [| reflexivity];
          repeat split; exact number_group_text |]).
  destruct Hin.
Qed.

(** Every match of a price pattern is the text of a number. *)
Lemma price_matches_number_text (query m : string) :
  In m (price_matches query) -> number_text m.
Proof.
  unfold price_matches. intros Hin.
  apply in_flat_map in Hin as (pattern & Hp & Hin).
  destruct (PRICE_PATTERNS_capture_numbers pattern Hp) as [Hg Hs].
  exact (findall_from_captured number_text pattern Hg Hs _ _ _ Hin).
Qed.

Lemma remove_seps_digits (s : string) :
  string_forall (fun c => is_digit c || is_sep c) s = true ->
  string_forall is_digit (remove_char "." (remove_char "," s)) = true.
Proof.
  induction s as [| c s IH]; cbn [string_forall remove_char]; [reflexivity |].
  intros H. apply andb_true_iff in H as [Hc Hs].
  destruct (Ascii.eqb_spec c ","); [now apply IH |].
  cbn [remove_char].
  destruct (Ascii.eqb_spec c ".") as [-> | Hdot]; [now apply IH |].
  cbn [string_forall]. rewrite IH by assumption.
  unfold is_sep in Hc.
  destruct (Ascii.eqb_spec c ","); [congruence |].
  destruct (Ascii.eqb_spec c "."); [congruence |].
  rewrite !orb_false_r in Hc. now rewrite Hc.
Qed.

Lemma digits_acc_digits (s : string) :
  string_forall is_digit s = true -> forall acc, exists z, digits_acc acc s = Some z.
Proof.
  induction s as [| c s IH]; cbn [string_forall digits_acc]; intros H acc; [eauto |].
  apply andb_true_iff in H as [-> H]. now apply IH.
Qed.

(** The text of a number always converts. *)
Lemma clean_price_number_text (m : string) :
  number_text m -> exists p, clean_price m = Ok p.
Proof.
  destruct m as [| c rest]; [intros [] |]. intros [Hc Hrest].
  unfold clean_price. cbn [remove_char].
  assert (Hcomma : Ascii.eqb c "," = false).
  { destruct (Ascii.eqb_spec c ",") as [-> |]; [discriminate Hc | reflexivity]. }
  assert (Hdot : Ascii.eqb c "." = false).
  { destruct (Ascii.eqb_spec c ".") as [-> |]; [discriminate Hc | reflexivity]. }
  rewrite Hcomma. cbn [remove_char]. rewrite Hdot.
  unfold float_of_digits. cbn [digits_acc]. rewrite Hc.
  destruct (digits_acc_digits _ (remove_seps_digits rest Hrest)
              (10 * 0 + digit_value c)%Z) as [z ->].
  eauto.
Qed.

Lemma mapM_clean_price_total (ms : list string) :
  Forall number_text ms -> exists prices, mapM clean_price ms = Ok prices.
Proof.
  induction 1 as [| m ms Hm _ [prices IH]]; cbn [mapM]; [eexists; reflexivity |].
  destruct (clean_price_number_text m Hm) as [p ->].
  cbn [mbind result_bind]. rewrite IH. cbn [mbind result_bind].
  eexists; reflexivity.
Qed.

(** The two loops of [extract_price_range] never raise. *)
Lemma price_mentions_total (query : string) :
  exists prices, price_mentions query = Ok prices.
Proof.
  apply mapM_clean_price_total, List.Forall_forall.
  intros m Hm. eapply price_matches_number_text; eauto.
Qed.

(** Neither does the construction of the range. *)
Lemma range_of_prices_total (prices : list Q) :
  Forall (Qle 0) prices -> exists o c, range_of_prices prices = Ok (o, c).
Proof.
  intros Hpos. unfold range_of_prices.
  destruct prices as [| p l]; [eauto |].
  set (s := list_sort (list_of_set (p :: l))).
  assert (Hincl : forall x, In x s -> 0 <= x).
  { intros x Hx. rewrite List.Forall_forall in Hpos.
    now apply Hpos, list_of_set_incl, list_sort_In. }
  assert (Hne : s <> []).
  { destruct (list_of_set_represents (p :: l) p (or_introl eq_refl)) as (y & Hy & _).
    apply list_sort_In in Hy. fold s in Hy. intros E. rewrite E in Hy. exact Hy. }
  pose proof (sorted_hd_smallest s (list_sort_sorted _) Hne) as [Hhd Hmin].
  pose proof (sorted_last_largest s (list_sort_sorted _) Hne) as [Hlast _].
  destruct (_ =? 1)%nat.
  - rewrite PriceRange_new_ok; [cbn; eauto | | ];
      specialize (Hincl _ Hhd); lra.
  - rewrite PriceRange_new_ok; [cbn; eauto | now apply Hincl | now apply Hmin].
Qed.

Lemma extract_price_range_total (query : string) :
  exists o c, extract_price_range query = Ok (o, c).
Proof.
  unfold extract_price_range.
  destruct (price_mentions_total query) as [prices Hm]. rewrite Hm.
  apply range_of_prices_total. eapply price_mentions_nonneg; eauto.
Qed.

(** The parser returns on every query. *)
Lemma parse_total (query : string) : exists pq, parse query = Ok pq.
Proof.
  destruct (extract_price_range_total query) as (o & c & H).
  destruct (parse_returns query o c H) as (pq & Hpq & _). eauto.
Qed.

Lemma mapM_clean_price_integers (ms : list string) :
  forall prices, mapM clean_price ms = Ok prices ->
  Forall (fun p => exists z, p = inject_Z z) prices.
Proof.
  induction ms as [| m ms IH]; intros prices; cbn [mapM].
  - intros [= <-]. constructor.
  - destruct (clean_price m) as [p |] eqn:Hp; [| discriminate].
    cbn [mbind result_bind].
    destruct (mapM clean_price ms) as [ps |]; [| discriminate].
    cbn [mbind result_bind]. intros [= <-].
    constructor; [| now apply IH].
    unfold clean_price, float_of_digits in Hp.
    destruct (remove_char _ _); [discriminate |].
    destruct (digits_acc _ _) as [z |]; [| discriminate].
    injection Hp as <-. eauto.
Qed.

(** The prices the parser collects are whole numbers: two of them that are
    equal as numbers are the same value. *)
Lemma price_mentions_same_value (query : string) (prices : list Q) (x y : Q) :
  price_mentions query = Ok prices ->
  In x prices -> In y prices -> x == y -> x = y.
Proof.
  intros Hm Hx Hy Hxy.
  apply mapM_clean_price_integers in Hm. rewrite List.Forall_forall in Hm.
  destruct (Hm x Hx) as [a ->]. destruct (Hm y Hy) as [b ->].
  apply (proj1 (inject_Z_injective a b)) in Hxy. congruence.
Qed.

(** The set of a list that repeats one value holds that value alone. *)
Lemma list_of_set_single (p : Q) (l : list Q) :
  l <> [] -> (forall x, In x l -> x = p) -> list_of_set l = [p].
Proof.
  induction l as [| a l IH]; [congruence |]. intros _ Hall.
  assert (Ha : a = p) by (apply Hall; now left). subst a.
  cbn [list_of_set]. destruct l as [| b l]; [reflexivity |].
  assert (Hmem : Qmem p (b :: l) = true).
  { apply Qmem_spec. exists b. split; [now left |].
    rewrite (Hall b) by (right; now left). reflexivity. }
  rewrite Hmem. apply IH; [discriminate |].
  intros x Hx. apply Hall. now right.
Qed.

(** ** The clarifier *)

Lemma usage_context_of_value_listed (response : string) :
  existsb (String.eqb response)
          (map UsageContextEnum.value UsageContextEnum.members) = true ->
  exists c, UsageContextEnum.of_value response = Ok c.
Proof.
  unfold UsageContextEnum.of_value.
  generalize UsageContextEnum.members as l.
  induction l as [| c l IH]; simpl; [discriminate |].
  rewrite (String.eqb_sym response).
  destruct (String.eqb (UsageContextEnum.value c) response); simpl; eauto.
Qed.

Lemma validate_query_parsed_query (pq : ParsedQuery) :
  parsed_query (validate_query pq) = pq.
Proof.
  unfold validate_query.
  destruct (validate_price_range _), (validate_against_product_type _ _).
  reflexivity.
Qed.

Lemma validate_query_clarifications_made (pq : ParsedQuery) :
  clarifications_made (validate_query pq) = [].
Proof.
  unfold validate_query.
  destruct (validate_price_range _), (validate_against_product_type _ _).
  reflexivity.
Qed.

Lemma validate_query_no_price_range (pq : ParsedQuery) :
  price_range pq = None ->
  is_valid (validate_query pq) = true /\ validation_errors (validate_query pq) = [].
Proof.
  intros H. unfold validate_query. rewrite H. simpl. split; reflexivity.
Qed.

Lemma field_of_other (f name : string) (q q' : ParsedQuery) :
  f <> name ->
  same_parse_metadata q q' ->
  (name <> "product_type" -> product_type q' = product_type q) ->
  (name <> "price_range" -> price_range q' = price_range q) ->
  (name <> "usage_context" -> usage_context q' = usage_context q) ->
  (name <> "feature_preferences" -> feature_preferences q' = feature_preferences q) ->
  field_of f q' = field_of f q.
Proof.
  intros Hne (Hm & Hc & Hs & Ho) H1 H2 H3 H4. unfold field_of.
  rewrite Hm, Hc, Hs, Ho.
  destruct (String.eqb_spec f "product_type") as [-> | _];
    [rewrite H1 by congruence; reflexivity |].
  destruct (String.eqb_spec f "price_range") as [-> | _];
    [rewrite H2 by congruence; reflexivity |].
  destruct (String.eqb_spec f "usage_context") as [-> | _];
    [rewrite H3 by congruence; reflexivity |].
  destruct (String.eqb_spec f "feature_preferences") as [-> | _];
    [rewrite H4 by congruence; reflexivity |].
  reflexivity.
Qed.

Section PipelineProperties.

Variable py_float : string -> result Q.

(** One response never raises, never touches the parse metadata, and
    writes at most the field its ambiguity names. *)
Lemma apply_response_frame (q : ParsedQuery) (a : ClarificationRequest)
    (response : string) :
  exists q', apply_response py_float q a response = Ok q'
    /\ same_parse_metadata q q'
    /\ forall f, f <> field_name a -> field_of f q' = field_of f q.
Proof.
  unfold apply_response.
  destruct (String.eqb_spec (field_name a) "product_type") as [E1 | N1].
  { destruct (ProductTypeEnum.of_value response) as [p |]; simpl;
      (eexists; split; [reflexivity |];
       split; [unfold same_parse_metadata; simpl; tauto |]);
      intros f Hf; apply (field_of_other f (field_name a)); auto;
      try (unfold same_parse_metadata; simpl; tauto); intros; congruence. }
  destruct (String.eqb_spec (field_name a) "price_range") as [E2 | N2].
  { destruct (py_float _) as [v |]; simpl;
      [destruct (PriceRange_new _ _) as [pr |]; simpl |];
      (eexists; split; [reflexivity |];
       split; [unfold same_parse_metadata; simpl; tauto |]);
      intros f Hf; apply (field_of_other f (field_name a)); auto;
      try (unfold same_parse_metadata; simpl; tauto); intros; congruence. }
  destruct (String.eqb_spec (field_name a) "usage_context") as [E3 | N3].
  { destruct (existsb _ _) eqn:Hin.
    - apply usage_context_of_value_listed in Hin as [c ->]. simpl.
      eexists; split; [reflexivity |].
      split; [unfold same_parse_metadata; simpl; tauto |].
      intros f Hf; apply (field_of_other f (field_name a)); auto;
        try (unfold same_parse_metadata; simpl; tauto); intros; congruence.
    - eexists; split; [reflexivity |].
      split; [unfold same_parse_metadata; simpl; tauto | reflexivity]. }
  destruct (String.eqb_spec (field_name a) "feature_preferences") as [E4 | N4].
  { eexists; split; [reflexivity |].
    split; [unfold same_parse_metadata; simpl; tauto |].
    intros f Hf; apply (field_of_other f (field_name a)); auto;
      try (unfold same_parse_metadata; simpl; tauto); intros; congruence. }
  eexists; split; [reflexivity |].
  split; [unfold same_parse_metadata; simpl; tauto | reflexivity].
Qed.

(** The loop of [clarify_query]: it ends, keeps the parse metadata, leaves
    every field no ambiguity names as it was, and records exactly the
    ambiguities that had a response. *)
Lemma apply_responses_frame (rs : gmap string string)
    (ambiguities : list ClarificationRequest) :
  forall (q : ParsedQuery) (made : list ClarificationRequest),
  exists q' made',
    apply_responses py_float rs ambiguities q made = Ok (q', made')
    /\ same_parse_metadata q q'
    /\ (forall f, ~ In f (map field_name ambiguities) ->
          field_of f q' = field_of f q)
    /\ made' = (made ++ filter (fun a => is_Some (rs !! field_name a)) ambiguities)%list.
Proof.
  induction ambiguities as [| a rest IH]; intros q made; cbn [apply_responses].
  - exists q, made. unfold same_parse_metadata.
    rewrite filter_nil, app_nil_r. tauto.
  - destruct (rs !! field_name a) as [response |] eqn:Hlk.
    + destruct (apply_response_frame q a response) as (q1 & -> & Hm1 & Hf1).
      cbn [mbind result_bind]. destruct (IH q1 (made ++ [a])%list) as (q' & made' & -> & Hm & Hf & ->).
      exists q', ((made ++ [a]) ++ filter (fun a => is_Some (rs !! field_name a)) rest)%list.
      split; [reflexivity |]. split.
      { unfold same_parse_metadata in *. intuition congruence. }
      split.
      { intros f Hnot. simpl in Hnot.
        rewrite Hf by tauto. apply Hf1. intros ->. tauto. }
      rewrite filter_cons_True by (rewrite Hlk; eauto).
      now rewrite <- app_assoc.
    + destruct (IH q made) as (q' & made' & -> & Hm & Hf & ->).
      exists q', (made ++ filter (fun a => is_Some (rs !! field_name a)) rest)%list.
      split; [reflexivity |]. split; [exact Hm |]. split.
      { intros f Hnot. simpl in Hnot. apply Hf. tauto. }
      rewrite filter_cons_False; [reflexivity |].
      rewrite Hlk. intros [x Hx]. discriminate.
Qed.

(** [clarify_query] always returns: the query after the loop, validated,
    with the answered ambiguities attached. *)
Lemma clarify_query_result (pq : ParsedQuery) (rs : option (gmap string string)) :
  exists q',
    apply_responses py_float (default ∅ rs) (detect_ambiguities pq) pq []
      = Ok (q', filter (fun a => is_Some (default ∅ rs !! field_name a))
                       (detect_ambiguities pq))
    /\ clarify_query py_float pq rs
       = Ok (set_clarifications_made (validate_query q')
               (filter (fun a => is_Some (default ∅ rs !! field_name a))
                       (detect_ambiguities pq)))
    /\ same_parse_metadata pq q'
    /\ (forall f, ~ In f (map field_name (detect_ambiguities pq)) ->
          field_of f q' = field_of f pq).
Proof.
  destruct (apply_responses_frame (default ∅ rs) (detect_ambiguities pq) pq [])
    as (q' & made' & Hrun & Hm & Hf & ->).
  exists q'. simpl in Hrun. split; [exact Hrun |].
  unfold clarify_query. rewrite Hrun. cbn. tauto.
Qed.

Lemma parsed_query_set_clarifications_made (r : NormalizedResult)
    (made : list ClarificationRequest) :
  parsed_query (set_clarifications_made r made) = parsed_query r.
Proof. reflexivity. Qed.

(** C10.  Applying clarification responses never updates
    [missing_fields], [is_complete] or [confidence_score]: the result of
    [clarify_query] carries the values of the query it was given.  So it
    is for the parse of "gaming laptop" answered with a budget of 75000:
    the price range is filled in, yet ["price_range"] is still listed as
    missing and the query is still marked incomplete. *)
Theorem clarify_query_keeps_parse_metadata :
  (forall (pq : ParsedQuery) (rs : option (gmap string string)),
     exists r, clarify_query py_float pq rs = Ok r
       /\ missing_fields (parsed_query r) = missing_fields pq
       /\ is_complete (parsed_query r) = is_complete pq
       /\ confidence_score (parsed_query r) = confidence_score pq)
  /\ (exists pq r,
        parse "gaming laptop" = Ok pq
        /\ price_range pq = None
        /\ clarify_query float_literal pq (Some {[ "price_range" := "75000" ]}) = Ok r
        /\ price_range (parsed_query r) = Some (mkPriceRange (75000 * 0.7) 75000)
        /\ missing_fields (parsed_query r) = ["price_range"; "feature_preferences"]
        /\ is_complete (parsed_query r) = false).
Proof.
  split.
  - intros pq rs.
    destruct (clarify_query_result pq rs) as (q' & _ & -> & (H1 & H2 & H3 & _) & _).
    eexists. split; [reflexivity |].
    rewrite parsed_query_set_clarifications_made, validate_query_parsed_query.
    tauto.
  - eexists. eexists.
    split; [vm_compute; reflexivity |].
    split; [reflexivity |].
    split; [vm_compute; reflexivity |].
    repeat split.
Qed.

(** C8.  A response keyed on a field that is not among the ambiguities
    detected on the query is not applied: the field keeps its value and
    no clarification is recorded for it.  A query whose parse is
    unambiguous, normalized together with any responses, gives the result
    of running the validator directly on the parse. *)
Theorem response_without_ambiguity_not_applied :
  (forall (pq : ParsedQuery) (rs : option (gmap string string)) (f : string),
     ~ In f (map field_name (detect_ambiguities pq)) ->
     exists r, clarify_query py_float pq rs = Ok r
       /\ field_of f (parsed_query r) = field_of f pq
       /\ ~ In f (map field_name (clarifications_made r)))
  /\ (forall (query : string) (rs : option (gmap string string)),
        exists pq, parse query = Ok pq
          /\ (is_ambiguous pq = false ->
              normalize py_float query rs = Ok (validate_query pq))).
Proof.
  split.
  - intros pq rs f Hf.
    destruct (clarify_query_result pq rs) as (q' & _ & -> & _ & Hfield).
    eexists. split; [reflexivity |].
    rewrite parsed_query_set_clarifications_made, validate_query_parsed_query.
    split; [apply Hfield, Hf |].
    cbn [clarifications_made set_clarifications_made].
    intros Hin. apply Hf.
    apply in_map_iff in Hin as (a & <- & Ha).
    apply in_map. apply list_elem_of_In in Ha.
    apply list_elem_of_filter in Ha as [_ Ha]. now apply list_elem_of_In.
  - intros query rs. destruct (parse_total query) as [pq Hparse].
    exists pq. split; [exact Hparse |]. intros Hamb.
    unfold normalize. rewrite Hparse. cbn [mbind result_bind]. rewrite Hamb.
    destruct (truthy rs); [| reflexivity]. cbn [orb].
    unfold clarify_query.
    unfold is_ambiguous in Hamb.
    destruct (detect_ambiguities pq) as [| a l]; [| discriminate].
    cbn -[validate_query].
    unfold validate_query.
    destruct (validate_price_range _), (validate_against_product_type _ _).
    reflexivity.
Qed.

(** *** Answering the budget question *)

Lemma apply_responses_app (rs : gmap string string)
    (l1 l2 : list ClarificationRequest) :
  forall (q : ParsedQuery) (made : list ClarificationRequest),
  apply_responses py_float rs (l1 ++ l2) q made =
  match apply_responses py_float rs l1 q made with
  | Ok (q1, made1) => apply_responses py_float rs l2 q1 made1
  | Raise e => Raise e
  end.
Proof.
  induction l1 as [| a l1 IH]; intros q made; [reflexivity |].
  cbn [app apply_responses].
  destruct (rs !! field_name a); [| apply IH].
  destruct (apply_response py_float q a s); cbn [mbind result_bind];
    [apply IH | reflexivity].
Qed.

Lemma apply_response_price_range (q : ParsedQuery) (a : ClarificationRequest)
    (response : string) :
  field_name a = "price_range" ->
  apply_response py_float q a response = Ok (answer_price_range py_float q response).
Proof.
  intros Ha. unfold apply_response, answer_price_range. rewrite Ha. cbn -[Qmult].
  destruct (py_float _) as [v |]; [| reflexivity]. cbn [mbind result_bind].
  destruct (PriceRange_new _ _); reflexivity.
Qed.

Lemma field_of_price_range (q q' : ParsedQuery) :
  field_of "price_range" q' = field_of "price_range" q ->
  price_range q' = price_range q.
Proof. cbn. congruence. Qed.

(** When the budget question is among the ambiguities it is there once,
    and the query has no price range. *)
Lemma detect_ambiguities_price_range (pq : ParsedQuery) :
  In "price_range" (map field_name (detect_ambiguities pq)) ->
  price_range pq = None
  /\ exists l1 l2,
       detect_ambiguities pq = (l1 ++ price_range_request :: l2)%list
       /\ ~ In "price_range" (map field_name l1)
       /\ ~ In "price_range" (map field_name l2).
Proof.
  unfold detect_ambiguities.
  destruct (price_range pq) as [pr |].
  - intros Hin. exfalso.
    destruct (decide _), (is_nil (usage_context pq)),
      (is_nil (feature_preferences pq)), (Qltb _ _);
      cbn in Hin; intuition discriminate.
  - intros _. split; [reflexivity |].
    eexists. eexists. split; [reflexivity |].
    destruct (decide _), (is_nil (usage_context pq)),
      (is_nil (feature_preferences pq)), (Qltb _ _);
      cbn; intuition discriminate.
Qed.

(** The price range after [clarify_query] when the budget question was
    asked and answered. *)
Lemma clarify_query_price_range (pq : ParsedQuery) (rs : gmap string string)
    (response : string) :
  In "price_range" (map field_name (detect_ambiguities pq)) ->
  rs !! "price_range" = Some response ->
  exists r, clarify_query py_float pq (Some rs) = Ok r
    /\ price_range (parsed_query r) = price_range (answer_price_range py_float pq response).
Proof.
  intros Hin Hlk.
  destruct (detect_ambiguities_price_range pq Hin) as (Hnone & l1 & l2 & Hd & Hl1 & Hl2).
  destruct (clarify_query_result pq (Some rs)) as (q' & Hrun & -> & _ & _).
  eexists. split; [reflexivity |].
  rewrite parsed_query_set_clarifications_made, validate_query_parsed_query.
  change (default ∅ (Some rs)) with rs in Hrun. rewrite Hd in Hrun at 1.
  rewrite apply_responses_app in Hrun.
  destruct (apply_responses_frame rs l1 pq []) as (q1 & m1 & Hr1 & _ & Hf1 & _).
  rewrite Hr1 in Hrun. cbn [apply_responses] in Hrun.
  change (field_name price_range_request) with "price_range" in Hrun.
  rewrite Hlk, (apply_response_price_range q1 price_range_request response eq_refl) in Hrun.
  cbn [mbind result_bind] in Hrun.
  destruct (apply_responses_frame rs l2 (answer_price_range py_float q1 response)
              (m1 ++ [price_range_request])%list) as (q2 & m2 & Hr2 & _ & Hf2 & _).
  rewrite Hr2 in Hrun. injection Hrun as <- _.
  rewrite (field_of_price_range _ _ (Hf2 _ Hl2)).
  apply field_of_price_range in Hf1; [| exact Hl1].
  unfold answer_price_range.
  destruct (py_float _) as [v |]; [| exact Hf1].
  destruct (PriceRange_new _ _); [reflexivity | exact Hf1].
Qed.

(** A response that leaves the query as it was could as well be absent. *)
Lemma apply_responses_ignored (rs : gmap string string) (response : string)
    (ambiguities : list ClarificationRequest) :
  rs !! "price_range" = Some response ->
  (forall q, answer_price_range py_float q response = q) ->
  forall (q : ParsedQuery) (made made0 : list ClarificationRequest),
  exists q' m m0,
    apply_responses py_float rs ambiguities q made = Ok (q', m)
    /\ apply_responses py_float (delete "price_range" rs) ambiguities q made0
       = Ok (q', m0).
Proof.
  intros Hlk Hnoop.
  induction ambiguities as [| a rest IH]; intros q made made0; cbn [apply_responses].
  - eauto.
  - destruct (String.eqb_spec (field_name a) "price_range") as [E | N].
    + rewrite E, Hlk, lookup_delete_eq.
      rewrite (apply_response_price_range q a response E), Hnoop.
      cbn [mbind result_bind]. apply IH.
    + rewrite lookup_delete_ne by congruence.
      destruct (rs !! field_name a) as [resp |]; [| apply IH].
      destruct (apply_response_frame q a resp) as (q1 & -> & _).
      cbn [mbind result_bind]. apply IH.
Qed.

Lemma answer_price_range_accepted (q : ParsedQuery) (response : string) (v : Q) :
  py_float (remove_char "," response) = Ok v -> 0 <= v ->
  answer_price_range py_float q response
    = set_price_range q (Some (mkPriceRange (v * 0.7) v)).
Proof.
  intros Hv Hpos. unfold answer_price_range. rewrite Hv.
  rewrite PriceRange_new_ok; [reflexivity | lra | lra].
Qed.

Lemma answer_price_range_ignored (response : string) :
  (forall v, py_float (remove_char "," response) = Ok v -> v < 0) ->
  forall q, answer_price_range py_float q response = q.
Proof.
  intros Hneg q. unfold answer_price_range.
  destruct (py_float _) as [v |]; [| reflexivity].
  destruct (PriceRange_new _ _) as [pr |] eqn:Hnew; [| reflexivity].
  apply PriceRange_new_inv in Hnew as (_ & _ & Hv & _).
  specialize (Hneg v eq_refl). lra.
Qed.


(** *** What a parse records *)

Lemma parse_inv (query : string) (pq : ParsedQuery) :
  parse query = Ok pq ->
  (exists c, extract_price_range query = Ok (price_range pq, c))
  /\ product_type pq = fst (extract_product_type query)
  /\ original_query pq = query
  /\ is_complete pq = (length (missing_fields pq) =? 0)%nat.
Proof.
  unfold parse.
  destruct (extract_product_type query) as [pt pc].
  destruct (extract_price_range query) as [[pr prc] |]; [| discriminate].
  cbn [mbind result_bind].
  destruct (extract_usage_context query) as [uc ucc].
  destruct (extract_features query) as [fp fpc].
  unfold ParsedQuery_new.
  destruct (_ && _); [| discriminate].
  intros [= <-]. cbn [price_range product_type original_query is_complete
                      missing_fields fst].
  eauto.
Qed.

Lemma range_of_prices_valid (prices : list Q) (pr : PriceRange) (c : Q) :
  range_of_prices prices = Ok (Some pr, c) -> PriceRange_valid pr.
Proof.
  unfold range_of_prices. destruct prices as [| p l]; [discriminate |].
  destruct (_ =? 1)%nat.
  - destruct (PriceRange_new _ _) as [pr' |] eqn:Hnew; [| discriminate].
    cbn [mbind result_bind]. intros [= <- _].
    apply PriceRange_new_inv in Hnew as (-> & H). exact H.
  - destruct (PriceRange_new _ _) as [pr' |] eqn:Hnew; [| discriminate].
    cbn [mbind result_bind]. intros [= <- _].
    apply PriceRange_new_inv in Hnew as (-> & H). exact H.
Qed.

Lemma parse_price_range_valid (query : string) (pq : ParsedQuery) :
  parse query = Ok pq -> price_range_valid (price_range pq).
Proof.
  intros H. apply parse_inv in H as ([c Hc] & _).
  destruct (price_range pq) as [pr |]; [| exact I].
  unfold extract_price_range in Hc.
  destruct (price_mentions query) as [prices |]; [| discriminate].
  exact (range_of_prices_valid prices pr c Hc).
Qed.

(** [normalize] returns on every query and every response map. *)
Lemma normalize_total (query : string) (rs : option (gmap string string)) :
  exists r, normalize py_float query rs = Ok r.
Proof.
  unfold normalize. destruct (parse_total query) as [pq ->].
  cbn [mbind result_bind].
  destruct (_ || _); [| eauto].
  destruct (clarify_query_result pq rs) as (q' & _ & -> & _). eauto.
Qed.

(** C9 (as amended).  The parser returns on every query, and [normalize] on
    every query and response map; for the query the parser returns, and
    for the query of the result of [normalize], [is_complete] is true
    exactly when [missing_fields] is empty. *)
Theorem parsed_is_complete_iff_no_missing_fields :
  (forall (query : string),
     exists pq, parse query = Ok pq
       /\ (is_complete pq = true <-> missing_fields pq = []))
  /\ (forall (query : string) (rs : option (gmap string string)),
        exists r, normalize py_float query rs = Ok r
          /\ (is_complete (parsed_query r) = true
              <-> missing_fields (parsed_query r) = [])).
Proof.
  assert (Hparse : forall query pq, parse query = Ok pq ->
            (is_complete pq = true <-> missing_fields pq = [])).
  { intros query pq H. apply parse_inv in H as (_ & _ & _ & ->).
    destruct (missing_fields pq); simpl; split; congruence. }
  split.
  { intros query. destruct (parse_total query) as [pq Hpq]. eauto. }
  intros query rs. destruct (normalize_total query rs) as [r Hr].
  exists r. split; [exact Hr |]. revert Hr. unfold normalize.
  destruct (parse query) as [pq |] eqn:Hpq; [| discriminate].
  cbn [mbind result_bind].
  destruct (_ || _).
  - destruct (clarify_query_result pq rs) as (q' & _ & -> & (Hm & Hc & _) & _).
    intros [= <-].
    cbn [set_clarifications_made parsed_query].
    rewrite validate_query_parsed_query, Hm, Hc. eauto.
  - intros [= <-]. rewrite validate_query_parsed_query. eauto.
Qed.

(** *** The price range invariant along the pipeline *)

Lemma answer_price_range_valid (q : ParsedQuery) (response : string) :
  price_range_valid (price_range q) ->
  price_range_valid (price_range (answer_price_range py_float q response)).
Proof.
  intros Hq. unfold answer_price_range.
  destruct (py_float _) as [v |]; [| exact Hq].
  destruct (PriceRange_new _ _) as [pr |] eqn:Hnew; [| exact Hq].
  apply PriceRange_new_inv in Hnew as (-> & H). exact H.
Qed.

Lemma apply_response_price_valid (q q' : ParsedQuery) (a : ClarificationRequest)
    (response : string) :
  apply_response py_float q a response = Ok q' ->
  price_range_valid (price_range q) -> price_range_valid (price_range q').
Proof.
  intros Hrun Hq.
  destruct (String.eqb_spec (field_name a) "price_range") as [E | N].
  - rewrite (apply_response_price_range q a response E) in Hrun.
    injection Hrun as <-. now apply answer_price_range_valid.
  - destruct (apply_response_frame q a response) as (q1 & Hq1 & _ & Hf).
    rewrite Hq1 in Hrun. injection Hrun as <-.
    rewrite (field_of_price_range q q1); [exact Hq |].
    apply Hf. congruence.
Qed.

Lemma apply_responses_price_valid (rs : gmap string string)
    (ambiguities : list ClarificationRequest) :
  forall q made q' made',
  apply_responses py_float rs ambiguities q made = Ok (q', made') ->
  price_range_valid (price_range q) -> price_range_valid (price_range q').
Proof.
  induction ambiguities as [| a rest IH]; intros q made q' made';
    cbn [apply_responses].
  - intros [= <- _]. auto.
  - destruct (rs !! field_name a) as [response |]; [| apply IH].
    destruct (apply_response py_float q a response) as [q1 |] eqn:H1;
      [| discriminate].
    cbn [mbind result_bind]. intros Hrun Hq.
    eapply IH; [exact Hrun |]. eapply apply_response_price_valid; eauto.
Qed.

Lemma clarify_query_price_valid (pq : ParsedQuery)
    (rs : option (gmap string string)) (r : NormalizedResult) :
  price_range_valid (price_range pq) ->
  clarify_query py_float pq rs = Ok r ->
  price_range_valid (price_range (parsed_query r)).
Proof.
  intros Hpq Hr.
  destruct (clarify_query_result pq rs) as (q' & Hrun & Hq & _).
  rewrite Hr in Hq. injection Hq as ->.
  cbn [set_clarifications_made parsed_query].
  rewrite validate_query_parsed_query.
  eapply apply_responses_price_valid; eauto.
Qed.

(** C7.  A [PriceRange] that was constructed has non-negative bounds and
    its maximum is at least its minimum; constructing one with the
    maximum below the minimum fails, as for (5000, 2000); and every stage
    of the pipeline keeps the invariant: the parser returns on every query
    and with a valid range or none, the clarifier returns and keeps a valid
    range valid, the validator leaves the range as it is, and so
    [normalize] returns on every input a result whose range is valid. *)
Theorem price_range_invariant :
  (forall lo hi pr, PriceRange_new lo hi = Ok pr -> PriceRange_valid pr)
  /\ (forall lo hi, hi < lo -> exists e, PriceRange_new lo hi = Raise e)
  /\ PriceRange_new 5000 2000 = Raise (ValidationError ["max_price"])
  /\ (forall query,
        exists pq, parse query = Ok pq /\ price_range_valid (price_range pq))
  /\ (forall pq rs,
        price_range_valid (price_range pq) ->
        exists r, clarify_query py_float pq rs = Ok r
          /\ price_range_valid (price_range (parsed_query r)))
  /\ (forall pq, price_range (parsed_query (validate_query pq)) = price_range pq)
  /\ (forall query rs,
        exists r, normalize py_float query rs = Ok r
          /\ price_range_valid (price_range (parsed_query r))).
Proof.
  split.
  { intros lo hi pr H. apply PriceRange_new_inv in H as (-> & H). exact H. }
  split.
  { intros lo hi H. apply PriceRange_new_rejects. tauto. }
  split; [reflexivity |].
  split.
  { intros query. destruct (parse_total query) as [pq Hpq].
    exists pq. split; [exact Hpq |]. eapply parse_price_range_valid; eauto. }
  split.
  { intros pq rs Hpq.
    destruct (clarify_query_result pq rs) as (q' & _ & Hr & _).
    eexists. split; [exact Hr |].
    eapply clarify_query_price_valid; eauto. }
  split.
  { intros pq. now rewrite validate_query_parsed_query. }
  intros query rs. destruct (normalize_total query rs) as [r Hr].
  exists r. split; [exact Hr |]. revert Hr. unfold normalize.
  destruct (parse query) as [pq |] eqn:Hpq; [| discriminate].
  cbn [mbind result_bind].
  pose proof (parse_price_range_valid query pq Hpq) as Hvalid.
  destruct (_ || _).
  - intros Hr. eapply clarify_query_price_valid; eauto.
  - intros [= <-]. now rewrite validate_query_parsed_query.
Qed.

End PipelineProperties.

(** ** The properties on concrete queries *)



(** C9, where the claim as first stated fails: the query of the schema's
    own example takes the defaults, [is_complete] false and [missing_fields]
    empty. *)
Lemma default_query_incomplete_with_no_missing_field :
  ParsedQuery_default ProductTypeEnum.HEADPHONES (Some (mkPriceRange 1000 5000))
    [UsageContextEnum.GYM] ["noise-cancelling"; "waterproof"]
    "Best headphones around 4k for gym" = Ok schema_example_query
  /\ missing_fields schema_example_query = []
  /\ is_complete schema_example_query = false
  /\ ~ (is_complete schema_example_query = true
        <-> missing_fields schema_example_query = []).
Proof.
  split; [reflexivity |]. split; [reflexivity |]. split; [reflexivity |].
  intros [_ H]. specialize (H eq_refl). discriminate.
Qed.

Lemma price_range_invariant_witness :
  PriceRange_valid (mkPriceRange 1000 5000)
  /\ (exists e, PriceRange_new 5000 2000 = Raise e)
  /\ (exists r,
        clarify_query float_literal laptop_query (Some {[ "price_range" := "75000" ]}) = Ok r
        /\ price_range_valid (price_range (parsed_query r))).
Proof.
  destruct (price_range_invariant float_literal)
    as (Hnew & Hfail & _ & _ & Hclarify & _ & _).
  split; [apply (Hnew 1000 5000); reflexivity |].
  split; [apply (Hfail 5000 2000); reflexivity |].
  apply (Hclarify laptop_query (Some {[ "price_range" := "75000" ]})).
  exact I.
Defined.

Lemma response_without_ambiguity_not_applied_witness :
  (exists r,
     clarify_query float_literal laptop_query (Some {[ "product_type" := "phone" ]}) = Ok r
     /\ field_of "product_type" (parsed_query r) = field_of "product_type" laptop_query
     /\ ~ In "product_type" (map field_name (clarifications_made r)))
  /\ (exists pq,
        parse earbuds_query_text = Ok pq
        /\ is_ambiguous pq = false
        /\ normalize float_literal earbuds_query_text (Some {[ "price_range" := "100" ]})
           = Ok (validate_query pq)).
Proof.
  destruct (response_without_ambiguity_not_applied float_literal) as [Hfield Hdirect].
  split.
  - apply (Hfield laptop_query (Some {[ "product_type" := "phone" ]}) "product_type").
    cbn. intros [H | [H | []]]; discriminate.
  - destruct (Hdirect earbuds_query_text (Some {[ "price_range" := "100" ]}))
      as (pq & Hpq & Hsame).
    exists pq. split; [exact Hpq |].
    assert (Hamb : is_ambiguous pq = false).
    { assert (Hc : match parse earbuds_query_text with
                   | Ok q => is_ambiguous q
                   | Raise _ => true
                   end = false) by (vm_compute; reflexivity).
      rewrite Hpq in Hc. exact Hc. }
    split; [exact Hamb | exact (Hsame Hamb)].
Defined.


(* ===================================================================== *)
(** * Further properties of the code                                       *)
(* ===================================================================== *)

(** ** The validator *)

Lemma too_wide_message_distinct (ratio : Q) :
  too_wide_message ratio <> "Price values cannot be negative"
  /\ too_wide_message ratio <> "Maximum price must be >= minimum price".
Proof.
  unfold too_wide_message. cbv [String.append].
  split; intros H; discriminate H.
Qed.

Lemma validate_price_range_ok_iff_no_error (o : option PriceRange) :
  fst (validate_price_range o) = true <-> snd (validate_price_range o) = [].
Proof.
  unfold validate_price_range. destruct o as [pr |]; [| cbn; tauto].
  destruct (_ || _); [cbn; split; discriminate |].
  destruct (Qltb _ _); [cbn; split; discriminate |].
  destruct (_ && _); [| cbn; tauto].
  destruct (Qgtb _ _); cbn; [split; discriminate | tauto].
Qed.

(** X1.  [validate_price_range] reports at most one message, its flag is
    true exactly when it reports none, and without a range it accepts. *)
Theorem validate_price_range_flag_and_errors (o : option PriceRange) :
  (fst (validate_price_range o) = true <-> snd (validate_price_range o) = [])
  /\ (length (snd (validate_price_range o)) <= 1)%nat
  /\ validate_price_range None = (true, []).
Proof.
  split; [apply validate_price_range_ok_iff_no_error |].
  split; [| reflexivity].
  unfold validate_price_range. destruct o as [pr |]; [| cbn; lia].
  destruct (_ || _); [cbn; lia |].
  destruct (Qltb _ _); [cbn; lia |].
  destruct (_ && _); [| cbn; lia].
  destruct (Qgtb _ _); cbn; lia.
Qed.

(** X2.  The schema and the validator agree on what a malformed range is:
    constructing (lo, hi) fails exactly when the validator, given that
    range, reports a negative price or a maximum below the minimum.  A
    range that could be constructed is only ever rejected for being too
    wide. *)
Theorem schema_and_validator_agree (lo hi : Q) :
  ((exists e, PriceRange_new lo hi = Raise e) <->
     snd (validate_price_range (Some (mkPriceRange lo hi)))
       = ["Price values cannot be negative"]
     \/ snd (validate_price_range (Some (mkPriceRange lo hi)))
       = ["Maximum price must be >= minimum price"])
  /\ (PriceRange_new lo hi = Ok (mkPriceRange lo hi) ->
      fst (validate_price_range (Some (mkPriceRange lo hi))) = false ->
      snd (validate_price_range (Some (mkPriceRange lo hi)))
        = [too_wide_message (hi / lo)]
      /\ 0 < lo /\ 10 * lo < hi).
Proof.
  destruct (too_wide_message_distinct (hi / lo)) as [Hd1 Hd2].
  unfold validate_price_range. cbn [min_price max_price].
  destruct (Qltb lo 0) eqn:Hlo; cbn [orb].
  { apply Qltb_lt in Hlo. split.
    - split; [intros _; now left |]. intros _. apply PriceRange_new_rejects. tauto.
    - intros Hok. apply PriceRange_new_inv in Hok. lra. }
  destruct (Qltb hi 0) eqn:Hhi; cbn [orb].
  { apply Qltb_lt in Hhi. split.
    - split; [intros _; now left |]. intros _. apply PriceRange_new_rejects. tauto.
    - intros Hok. apply PriceRange_new_inv in Hok. lra. }
  destruct (Qltb hi lo) eqn:Hord.
  { apply Qltb_lt in Hord. split.
    - split; [intros _; now right |]. intros _. apply PriceRange_new_rejects. tauto.
    - intros Hok. apply PriceRange_new_inv in Hok. lra. }
  apply Qltb_ge in Hlo, Hhi, Hord.
  assert (Hnew : PriceRange_new lo hi = Ok (mkPriceRange lo hi))
    by now apply PriceRange_new_ok.
  split.
  - split.
    + intros [e He]. congruence.
    + destruct (Qgtb hi 0 && Qgtb lo 0); [destruct (Qgtb (hi / lo) 10) |];
        intros [H | H]; try discriminate H; injection H; congruence.
  - intros _.
    destruct (Qgtb hi 0) eqn:Hp1; [| discriminate].
    destruct (Qgtb lo 0) eqn:Hp2; [| discriminate].
    cbn [andb].
    destruct (Qgtb (hi / lo) 10) eqn:Hr; [| discriminate].
    intros _. apply Qgtb_lt in Hp2, Hr.
    split; [reflexivity |]. split; [exact Hp2 |].
    apply (Qmult_lt_r _ _ lo Hp2) in Hr.
    assert (Hdiv : hi / lo * lo == hi) by (field; lra).
    lra.
Qed.

Lemma schema_and_validator_agree_witness :
  snd (validate_price_range (Some (mkPriceRange 1000 100000)))
    = [too_wide_message (100000 / 1000)]
  /\ 0 < 1000 /\ 10 * 1000 < 100000.
Proof.
  apply (proj2 (schema_and_validator_agree 1000 100000)); reflexivity.
Defined.

Lemma budget_bounds_ordered (pt : ProductTypeEnum.t) :
  (fst (budget_bounds pt) < snd (budget_bounds pt))%Z.
Proof. destruct pt; vm_compute; reflexivity. Qed.

(** X3.  [validate_against_product_type] never invalidates: its flag is
    always true.  It says nothing without a range or for the unknown
    product; otherwise it stays silent exactly when the range reaches into
    the budget bounds of the product, and for a range whose minimum does
    not exceed its maximum it gives at most one warning. *)
Theorem product_budget_warnings (pt : ProductTypeEnum.t) (pr : PriceRange) :
  fst (validate_against_product_type pt (Some pr)) = true
  /\ validate_against_product_type pt None = (true, [])
  /\ validate_against_product_type ProductTypeEnum.UNKNOWN (Some pr) = (true, [])
  /\ (pt <> ProductTypeEnum.UNKNOWN ->
      (snd (validate_against_product_type pt (Some pr)) = [] <->
         inject_Z (fst (budget_bounds pt)) <= max_price pr
         /\ min_price pr <= inject_Z (snd (budget_bounds pt))))
  /\ (min_price pr <= max_price pr ->
      (length (snd (validate_against_product_type pt (Some pr))) <= 1)%nat).
Proof.
  pose proof (budget_bounds_ordered pt) as Hb.
  unfold budget_bounds in *. cbn [fst snd] in *.
  unfold validate_against_product_type.
  split; [destruct (decide _); reflexivity |].
  split; [reflexivity |]. split; [reflexivity |].
  destruct (decide (pt = ProductTypeEnum.UNKNOWN)) as [Hu | Hu].
  { split; [tauto |]. intros _. cbn. lia. }
  set (lo := table_get MINIMUM_BUDGET pt 500%Z) in *.
  set (up := table_get MAXIMUM_BUDGET pt 500000%Z) in *.
  assert (Hq : inject_Z lo < inject_Z up) by now rewrite <- Zlt_Qlt.
  cbn [snd].
  destruct (Qltb (max_price pr) (inject_Z lo)) eqn:H1;
    destruct (Qgtb (min_price pr) (inject_Z up)) eqn:H2;
    try apply Qltb_lt in H1; try apply Qltb_ge in H1;
    try apply Qgtb_lt in H2; try apply Qltb_ge in H2.
  - split; [intros _; split; [intros H; discriminate H | lra] |].
    intros Hord. lra.
  - split; [intros _; split; [intros H; discriminate H | lra] |].
    intros _. cbn. lia.
  - split; [intros _; split; [intros H; discriminate H | lra] |].
    intros _. cbn. lia.
  - split; [intros _; split; [intros _; lra | reflexivity] |].
    intros _. cbn. lia.
Qed.

Lemma product_budget_warnings_witness :
  (snd (validate_against_product_type ProductTypeEnum.LAPTOP
          (Some (mkPriceRange 40000 60000))) = [] <->
     inject_Z (fst (budget_bounds ProductTypeEnum.LAPTOP)) <= 60000
     /\ 40000 <= inject_Z (snd (budget_bounds ProductTypeEnum.LAPTOP)))
  /\ (length (snd (validate_against_product_type ProductTypeEnum.LAPTOP
                     (Some (mkPriceRange 1000 5000)))) <= 1)%nat.
Proof.
  split.
  - apply (product_budget_warnings ProductTypeEnum.LAPTOP (mkPriceRange 40000 60000)).
    discriminate.
  - apply (product_budget_warnings ProductTypeEnum.LAPTOP (mkPriceRange 1000 5000)).
    cbn. discriminate.
Defined.

(** X4.  [validate_query] reports exactly the verdict of
    [validate_price_range] on the price range of the query: the same flag,
    the same messages, no clarification, the query untouched.  The product
    type plays no part: the budget warnings never reach the result. *)
Theorem validate_query_is_price_validation (pq : ParsedQuery) :
  is_valid (validate_query pq) = fst (validate_price_range (price_range pq))
  /\ validation_errors (validate_query pq) = snd (validate_price_range (price_range pq))
  /\ clarifications_made (validate_query pq) = []
  /\ parsed_query (validate_query pq) = pq
  /\ (is_valid (validate_query pq) = true <-> validation_errors (validate_query pq) = [])
  /\ (forall pt, is_valid (validate_query (set_product_type pq pt)) = is_valid (validate_query pq)
              /\ validation_errors (validate_query (set_product_type pq pt))
                 = validation_errors (validate_query pq)).
Proof.
  assert (H : forall q, is_valid (validate_query q) = fst (validate_price_range (price_range q))
              /\ validation_errors (validate_query q) = snd (validate_price_range (price_range q))).
  { intros q. unfold validate_query.
    pose proof (validate_price_range_ok_iff_no_error (price_range q)) as Hq.
    destruct (validate_price_range (price_range q)) as [ok errors].
    destruct (validate_against_product_type _ _). cbn [fst snd] in *.
    destruct ok; cbn; split; try reflexivity.
    symmetry. now apply Hq. }
  destruct (H pq) as [Hv He].
  split; [exact Hv |]. split; [exact He |].
  split; [apply validate_query_clarifications_made |].
  split; [apply validate_query_parsed_query |].
  split; [rewrite Hv, He; apply validate_price_range_ok_iff_no_error |].
  intros pt. destruct (H (set_product_type pq pt)) as [Hv' He'].
  rewrite Hv', He', Hv, He. split; reflexivity.
Qed.

(** ** The parser: usage contexts and features *)

Lemma fold_left_Qplus_const (c : Q) (n : nat) :
  forall a, fold_left Qplus (repeat c n) a == a + c * inject_Z (Z.of_nat n).
Proof.
  induction n as [| n IH]; intros a; cbn [repeat fold_left].
  - change (inject_Z (Z.of_nat 0)) with 0. ring.
  - rewrite IH, Nat2Z.inj_succ, <- Z.add_1_r, inject_Z_plus.
    change (inject_Z 1) with 1. ring.
Qed.

Lemma map_const_repeat {A} (c : Q) (l : list A) :
  map (fun _ => c) l = repeat c (length l).
Proof. induction l as [| x l IH]; cbn; [reflexivity | now rewrite IH]. Qed.

(** The mean of a non-empty list of equal values is that value. *)
Lemma mean_const {A} (c : Q) (l : list A) :
  l <> [] ->
  Qsum (map (fun _ => c) l) / inject_Z (Z.of_nat (length (map (fun _ => c) l))) == c.
Proof.
  intros Hne. rewrite length_map. unfold Qsum.
  rewrite map_const_repeat, fold_left_Qplus_const.
  assert (Hn : 0 < inject_Z (Z.of_nat (length l))).
  { destruct l; [congruence |]. cbn [length].
    change 0 with (inject_Z 0). rewrite <- Zlt_Qlt. lia. }
  field. lra.
Qed.

Lemma contains_trans (a b s : string) :
  contains a b = true -> contains b s = true -> contains a s = true.
Proof.
  rewrite !contains_spec. intros (u & t & ->) (u' & t' & ->).
  exists (u' ++ u), (t ++ t'). now rewrite !string_app_assoc.
Qed.

Lemma usage_context_hits (query : string) (c : UsageContextEnum.t) :
  In c (flat_map (fun '(context, keywords) =>
                    if existsb (fun keyword => contains keyword (normalize_text query))
                               (keywords : list string)
                    then [context : UsageContextEnum.t] else [])
                 CONTEXT_KEYWORDS) <->
  exists keywords keyword,
    In (c, keywords) CONTEXT_KEYWORDS /\ In keyword keywords
    /\ contains keyword (normalize_text query) = true.
Proof.
  rewrite in_flat_map. split.
  - intros ([c' keywords] & HT & Hc).
    destruct (existsb _ keywords) eqn:Hex; [| destruct Hc].
    destruct Hc as [<- | []].
    apply existsb_exists in Hex as (keyword & Hk & Hc). eauto.
  - intros (keywords & keyword & HT & Hk & Hc).
    exists (c, keywords). split; [exact HT |].
    assert (Hex : existsb (fun keyword => contains keyword (normalize_text query))
                          keywords = true)
      by (apply existsb_exists; eauto).
    rewrite Hex. now left.
Qed.

(** A context is returned exactly when one of its keywords occurs. *)
Lemma extract_usage_context_found (query : string) (c : UsageContextEnum.t) :
  In c (fst (extract_usage_context query)) <->
  exists keywords keyword,
    In (c, keywords) CONTEXT_KEYWORDS /\ In keyword keywords
    /\ contains keyword (normalize_text query) = true.
Proof.
  rewrite <- usage_context_hits. unfold extract_usage_context.
  destruct (flat_map _ CONTEXT_KEYWORDS) as [| c0 l]; cbn [fst]; [tauto |].
  rewrite <- !list_elem_of_In. apply elem_of_remove_dups.
Qed.

Lemma extract_usage_context_confidence_value (query : string) :
  snd (extract_usage_context query)
  == (if is_nil (fst (extract_usage_context query)) then 0 else 0.85).
Proof.
  unfold extract_usage_context.
  destruct (flat_map _ CONTEXT_KEYWORDS) as [| c0 l]; cbn [fst snd]; [reflexivity |].
  assert (H0 : c0 ∈ remove_dups (c0 :: l))
    by (apply elem_of_remove_dups; left).
  destruct (remove_dups (c0 :: l)) as [| c1 l1]; [inversion H0 |].
  cbn [is_nil]. apply (mean_const 0.85 (c0 :: l)). discriminate.
Qed.

Lemma extract_features_found (query f : string) :
  In f (fst (extract_features query)) <->
  In f FEATURE_KEYWORDS /\ contains f (normalize_text query) = true.
Proof.
  unfold extract_features. cbn [fst].
  rewrite <- !list_elem_of_In, list_elem_of_filter. tauto.
Qed.

Lemma extract_features_confidence_value (query : string) :
  snd (extract_features query)
  = (if is_nil (fst (extract_features query)) then 0 else 0.8).
Proof.
  unfold extract_features. cbn [fst snd]. destruct (filter _ _); reflexivity.
Qed.

(** X6.  [extract_features] returns the words of the vocabulary that occur
    in the normalized text, in vocabulary order and without repetition;
    the confidence is 0.8 when there is one and 0 otherwise.  A vocabulary
    word contained in a found one is found too: "wireless charging" never
    comes without "wireless". *)
Theorem extract_features_vocabulary (query : string) :
  sublist (fst (extract_features query)) FEATURE_KEYWORDS
  /\ NoDup (fst (extract_features query))
  /\ (forall f, In f (fst (extract_features query)) <->
        In f FEATURE_KEYWORDS /\ contains f (normalize_text query) = true)
  /\ snd (extract_features query)
     = (if is_nil (fst (extract_features query)) then 0 else 0.8)
  /\ (forall f g, In f FEATURE_KEYWORDS -> contains f g = true ->
        In g (fst (extract_features query)) -> In f (fst (extract_features query))).
Proof.
  split; [apply sublist_filter |].
  split.
  { apply NoDup_filter. apply (bool_decide_unpack _). vm_compute. exact I. }
  split; [apply extract_features_found |].
  split; [apply extract_features_confidence_value |].
  intros f g Hf Hfg Hg. apply extract_features_found. split; [exact Hf |].
  apply extract_features_found in Hg as [_ Hg]. eapply contains_trans; eauto.
Qed.

Lemma extract_features_vocabulary_witness :
  In "wireless" (fst (extract_features "earbuds with wireless charging")).
Proof.
  apply (proj2 (proj2 (proj2 (proj2
           (extract_features_vocabulary "earbuds with wireless charging"))))
         "wireless" "wireless charging").
  - vm_compute. tauto.
  - reflexivity.
  - vm_compute. tauto.
Defined.

(** ** The parser: what a parse holds *)

Lemma fold_left_Qplus_between (lo hi : Q) (l : list Q) :
  Forall (fun x => lo <= x /\ x <= hi) l ->
  forall a, a + lo * inject_Z (Z.of_nat (length l)) <= fold_left Qplus l a
            /\ fold_left Qplus l a <= a + hi * inject_Z (Z.of_nat (length l)).
Proof.
  induction 1 as [| x l [Hx0 Hx1] _ IH]; intros a; cbn [fold_left length].
  - change (inject_Z (Z.of_nat 0)) with 0. lra.
  - destruct (IH (a + x)) as [H1 H2].
    rewrite Nat2Z.inj_succ, <- Z.add_1_r, inject_Z_plus.
    change (inject_Z 1) with 1. lra.
Qed.

(** The mean of a non-empty list lies between any bounds of its values. *)
Lemma mean_between (lo hi : Q) (l : list Q) :
  l <> [] -> Forall (fun x => lo <= x /\ x <= hi) l ->
  lo <= Qsum l / inject_Z (Z.of_nat (length l))
  /\ Qsum l / inject_Z (Z.of_nat (length l)) <= hi.
Proof.
  intros Hne Hl.
  destruct (fold_left_Qplus_between lo hi l Hl 0) as [H0 H1].
  fold (Qsum l) in H0, H1.
  assert (Hn : 0 < inject_Z (Z.of_nat (length l))).
  { destruct l; [congruence |]. cbn [length].
    change 0 with (inject_Z 0). rewrite <- Zlt_Qlt. lia. }
  split.
  - apply Qle_shift_div_l; [exact Hn | lra].
  - apply Qle_shift_div_r; [exact Hn | lra].
Qed.

Lemma scan_products_known (n : string) (p : ProductTypeEnum.t) (c : Q)
    (table : list (ProductTypeEnum.t * list string)) :
  scan_products n table = Some (p, c) ->
  In p (map fst table) /\ (c = 0.95 \/ c = 0.85).
Proof.
  induction table as [| [product keywords] rest IH]; cbn [scan_products map fst In];
    [discriminate |].
  destruct (first_keyword n keywords) as [keyword |].
  - destruct (_ || _); intros [= <- <-]; tauto.
  - intros H. apply IH in H. tauto.
Qed.

(** The product type is unknown with confidence 0.3, or known with
    confidence 0.95 or 0.85. *)
Lemma extract_product_type_cases (query : string) :
  extract_product_type query = (ProductTypeEnum.UNKNOWN, 0.3)
  \/ exists p c, extract_product_type query = (p, c)
       /\ p <> ProductTypeEnum.UNKNOWN /\ (c = 0.95 \/ c = 0.85).
Proof.
  unfold extract_product_type.
  destruct (scan_products _ _) as [[p c] |] eqn:Hs; [right | now left].
  apply scan_products_known in Hs as [Hp Hc].
  exists p, c. split; [reflexivity |]. split; [| exact Hc].
  intros ->. cbn in Hp. intuition discriminate.
Qed.

Lemma range_of_prices_cases (prices : list Q) (o : option PriceRange) (c : Q) :
  range_of_prices prices = Ok (o, c) ->
  (prices = [] /\ o = None /\ c = 0)
  \/ (prices <> [] /\ exists pr, o = Some pr /\ (c = 0.75 \/ c = 0.85)).
Proof.
  unfold range_of_prices. destruct prices as [| p l].
  - intros [= <- <-]. now left.
  - right. split; [discriminate |].
    destruct (_ =? 1)%nat; destruct (PriceRange_new _ _) as [pr |];
      cbn [mbind result_bind] in H; try discriminate H;
      injection H as <- <-; eauto.
Qed.

(** The fields of a parse, in terms of the four extractions. *)
Lemma parse_fields (query : string) (pq : ParsedQuery) :
  parse query = Ok pq ->
  exists prc,
    extract_price_range query = Ok (price_range pq, prc)
    /\ product_type pq = fst (extract_product_type query)
    /\ usage_context pq = fst (extract_usage_context query)
    /\ feature_preferences pq = fst (extract_features query)
    /\ original_query pq = query
    /\ missing_fields pq =
         ((if decide (product_type pq = ProductTypeEnum.UNKNOWN)
           then ["product_type"] else [])
          ++ (if price_range pq is Some _ then [] else ["price_range"])
          ++ (if is_nil (usage_context pq) then ["usage_context"] else [])
          ++ (if is_nil (feature_preferences pq)
              then ["feature_preferences"] else []))%list
    /\ is_complete pq = (length (missing_fields pq) =? 0)%nat
    /\ confidence_score pq =
         (let confidences :=
            ([snd (extract_product_type query)]
             ++ (if price_range pq is Some _ then [prc] else [])
             ++ (if is_nil (usage_context pq) then []
                 else [snd (extract_usage_context query)])
             ++ (if is_nil (feature_preferences pq) then []
                 else [snd (extract_features query)]))%list in
          Qsum confidences / inject_Z (Z.of_nat (length confidences))).
Proof.
  unfold parse.
  destruct (extract_product_type query) as [pt pc].
  destruct (extract_price_range query) as [[pr prc] |]; [| discriminate].
  cbn [mbind result_bind].
  destruct (extract_usage_context query) as [uc ucc].
  destruct (extract_features query) as [fp fpc].
  unfold ParsedQuery_new.
  destruct (_ && _); [| discriminate].
  intros [= <-]. exists prc. cbn [price_range product_type usage_context
    feature_preferences original_query missing_fields is_complete
    confidence_score fst snd].
  repeat split.
Qed.

(** The confidence of a parse lies between 0.3 and 0.95, and is at least
    0.75 once the product type is known. *)
Lemma parse_confidence_bounds (query : string) (pq : ParsedQuery) :
  parse query = Ok pq ->
  0.3 <= confidence_score pq /\ confidence_score pq <= 0.95
  /\ (product_type pq <> ProductTypeEnum.UNKNOWN -> 0.75 <= confidence_score pq).
Proof.
  intros Hp. apply parse_fields in Hp
    as (prc & Hprice & Hpt & Huc & Hfp & _ & _ & _ & ->).
  pose proof (extract_usage_context_confidence_value query) as Hcc.
  pose proof (extract_features_confidence_value query) as Hfc.
  rewrite <- Huc in Hcc. rewrite <- Hfp in Hfc.
  cbv zeta.
  assert (Hprc : price_range pq <> None -> prc = 0.75 \/ prc = 0.85).
  { unfold extract_price_range in Hprice.
    destruct (price_mentions query) as [prices |]; [| discriminate].
    apply range_of_prices_cases in Hprice
      as [(_ & -> & _) | (_ & pr & -> & Hc)]; [congruence | tauto]. }
  cbv zeta.
  assert (Hall : forall lo, lo <= snd (extract_product_type query) ->
            snd (extract_product_type query) <= 0.95 -> lo <= 0.75 ->
            Forall (fun x => lo <= x /\ x <= 0.95)
              ([snd (extract_product_type query)]
               ++ (if price_range pq is Some _ then [prc] else [])
               ++ (if is_nil (usage_context pq) then []
                   else [snd (extract_usage_context query)])
               ++ (if is_nil (feature_preferences pq) then []
                   else [snd (extract_features query)]))%list).
  { intros lo H1 H2 H3.
    apply Forall_app; split; [apply List.Forall_cons; [lra | constructor] |].
    apply Forall_app; split.
    { destruct (price_range pq); [| constructor].
      apply List.Forall_cons; [| constructor].
      destruct Hprc as [-> | ->]; [discriminate | lra | lra]. }
    apply Forall_app; split.
    { destruct (is_nil (usage_context pq)) eqn:Enu; [constructor |].
      apply List.Forall_cons; [| constructor]. rewrite Hcc. lra. }
    destruct (is_nil (feature_preferences pq)) eqn:Enf; [constructor |].
    apply List.Forall_cons; [| constructor]. rewrite Hfc. lra. }
  destruct (extract_product_type_cases query) as [E | (p & c & E & Hne & Hc)];
    rewrite E in *; cbn [fst snd] in *.
  - pose proof (Hall 0.3 ltac:(lra) ltac:(lra) ltac:(lra)) as HF.
    apply mean_between in HF as [H1 H2]; [| discriminate].
    split; [exact H1 |]. split; [exact H2 |]. congruence.
  - assert (Hc' : 0.85 <= c /\ c <= 0.95) by (destruct Hc as [-> | ->]; lra).
    pose proof (Hall 0.3 ltac:(lra) ltac:(lra) ltac:(lra)) as HF.
    pose proof (Hall 0.75 ltac:(lra) ltac:(lra) ltac:(lra)) as HF'.
    apply mean_between in HF as [H1 H2]; [| discriminate].
    apply mean_between in HF' as [H1' _]; [| discriminate].
    split; [exact H1 |]. split; [exact H2 |]. intros _. exact H1'.
Qed.

(** ** The parser: distinct prices *)

Lemma list_of_set_NoDupA (l : list Q) : NoDupA Qeq (list_of_set l).
Proof.
  induction l as [| a l IH]; cbn [list_of_set]; [constructor |].
  destruct (Qmem a l) eqn:Hmem; [exact IH |].
  constructor; [| exact IH].
  intros Hin. apply InA_alt in Hin as (y & Hay & Hy).
  apply list_of_set_incl in Hy.
  assert (Qmem a l = true) by (apply Qmem_spec; eauto). congruence.
Qed.

Lemma insert_sorted_InA (x y : Q) (l : list Q) :
  InA Qeq y (insert_sorted x l) <-> y == x \/ InA Qeq y l.
Proof.
  rewrite !InA_alt. split.
  - intros (z & Hyz & Hz). apply insert_sorted_In in Hz as [-> | Hz];
      [now left | right; exists z; split; assumption].
  - intros [Hyx | (z & Hyz & Hz)]; [exists x | exists z];
      (split; [assumption | apply insert_sorted_In; tauto]).
Qed.

Lemma list_sort_NoDupA (l : list Q) : NoDupA Qeq l -> NoDupA Qeq (list_sort l).
Proof.
  induction 1 as [| a l Ha Hl IH]; cbn [list_sort fold_right]; [constructor |].
  fold (list_sort l).
  assert (Ha' : ~ InA Qeq a (list_sort l)).
  { intros Hin. apply Ha. apply InA_alt in Hin as (y & Hay & Hy).
    apply (proj1 (list_sort_In y l)) in Hy. apply InA_alt.
    exists y. split; assumption. }
  revert Ha' IH. generalize (list_sort l) as s.
  induction s as [| b s IHs]; intros Ha' Hs; cbn [insert_sorted].
  - constructor; [exact Ha' | constructor].
  - destruct (Qle_bool a b); [constructor; assumption |].
    inversion Hs as [| b' s' Hb Hs']; subst.
    constructor.
    + rewrite insert_sorted_InA. intros [Hba | Hin]; [| tauto].
      apply Ha'. left. now symmetry.
    + apply IHs; [| exact Hs']. intros Hin. apply Ha'. now right.
Qed.

(** When the sorted set of the prices has more than one element, its first
    and last are different numbers. *)
Lemma sorted_set_ends_differ (l : list Q) :
  l <> [] ->
  (length (list_sort (list_of_set l)) =? 1)%nat = false ->
  ~ List.hd 0 (list_sort (list_of_set l)) == List.last (list_sort (list_of_set l)) 0.
Proof.
  intros Hne Hlen.
  pose proof (list_sort_NoDupA _ (list_of_set_NoDupA l)) as Hnd.
  pose proof (list_sort_sorted (list_of_set l)) as Hs.
  assert (Hs0 : list_sort (list_of_set l) <> []).
  { destruct l as [| p l']; [congruence |].
    destruct (list_of_set_represents (p :: l') p (or_introl eq_refl)) as (y & Hy & _).
    apply (proj2 (list_sort_In y _)) in Hy. intros E. rewrite E in Hy. exact Hy. }
  destruct (list_sort (list_of_set l)) as [| x [| y rest]];
    [congruence | discriminate Hlen |].
  inversion Hnd as [| x' s' Hx _]; subst.
  apply StronglySorted_inv in Hs as [Hs' _].
  destruct (sorted_last_largest (y :: rest) Hs' ltac:(discriminate)) as [Hin _].
  change (List.last (x :: y :: rest) 0) with (List.last (y :: rest) 0).
  cbn [List.hd]. intros Heq. apply Hx. apply InA_alt.
  exists (List.last (y :: rest) 0). split; assumption.
Qed.

(** X7.  The parser returns on every query, with a confidence between 0.3
    and 0.95; the confidence is at least 0.75 once the product type is
    known, so a confidence below the 0.65 of the detector only occurs with
    an unknown product type. *)
Theorem parse_confidence (query : string) :
  exists pq, parse query = Ok pq
    /\ 0.3 <= confidence_score pq /\ confidence_score pq <= 0.95
    /\ (product_type pq <> ProductTypeEnum.UNKNOWN -> 0.75 <= confidence_score pq)
    /\ (confidence_score pq < 0.65 -> product_type pq = ProductTypeEnum.UNKNOWN).
Proof.
  destruct (parse_total query) as [pq Hpq]. exists pq.
  destruct (parse_confidence_bounds query pq Hpq) as (H1 & H2 & H3).
  split; [exact Hpq |]. split; [exact H1 |]. split; [exact H2 |].
  split; [exact H3 |].
  intros Hlow. destruct (decide (product_type pq = ProductTypeEnum.UNKNOWN)) as [E | N];
    [exact E |]. specialize (H3 N). lra.
Qed.

Lemma parse_missing_fields_detected (query : string) (pq : ParsedQuery) :
  parse query = Ok pq ->
  missing_fields pq =
    List.filter (fun name => negb (String.eqb name "general"))
                (map field_name (detect_ambiguities pq)).
Proof.
  intros Hp. apply parse_fields in Hp as (_ & _ & _ & _ & _ & _ & -> & _ & _).
  unfold detect_ambiguities.
  destruct (decide _), (price_range pq), (is_nil (usage_context pq)),
    (is_nil (feature_preferences pq)), (Qltb _ _); reflexivity.
Qed.

Lemma parse_complete_iff_unambiguous (query : string) (pq : ParsedQuery) :
  parse query = Ok pq ->
  (is_complete pq = true <-> is_ambiguous pq = false).
Proof.
  intros Hp.
  destruct (parse_confidence_bounds query pq Hp) as (_ & _ & Hknown).
  apply parse_fields in Hp as (_ & _ & _ & _ & _ & _ & Hm & -> & _).
  rewrite Hm. unfold is_ambiguous, detect_ambiguities.
  destruct (decide (product_type pq = ProductTypeEnum.UNKNOWN)) as [E | N].
  { destruct (price_range pq), (is_nil (usage_context pq)),
      (is_nil (feature_preferences pq)), (Qltb _ _); cbn; split; discriminate. }
  specialize (Hknown N).
  assert (Hconf : Qltb (confidence_score pq) 0.65 = false) by (apply Qltb_ge; lra).
  rewrite Hconf.
  destruct (price_range pq), (is_nil (usage_context pq)),
    (is_nil (feature_preferences pq)); cbn; split; congruence.
Qed.

Lemma summary_clear_iff (pq : ParsedQuery) :
  get_ambiguity_summary pq = "Query is clear and complete."
  <-> is_ambiguous pq = false.
Proof.
  unfold get_ambiguity_summary, is_ambiguous.
  destruct (detect_ambiguities pq) as [| a l]; cbn [is_nil length Nat.ltb Nat.leb].
  - tauto.
  - split; [| discriminate]. cbv [String.append]. intros H. discriminate H.
Qed.

(** X8.  What the parser lists as missing is what the detector asks about:
    on the query the parser returns, [missing_fields] are the field names
    of the detected ambiguities, in order, the general question left out;
    the query is complete exactly when it is not ambiguous, which is when
    the summary reads "Query is clear and complete."; and the general
    question only comes together with the product type question. *)
Theorem parse_missing_fields_are_ambiguities (query : string) :
  exists pq, parse query = Ok pq
    /\ get_ambiguities query = Ok (detect_ambiguities pq)
    /\ missing_fields pq =
         List.filter (fun name => negb (String.eqb name "general"))
                     (map field_name (detect_ambiguities pq))
    /\ (is_complete pq = true <-> is_ambiguous pq = false)
    /\ (is_complete pq = true <->
        get_ambiguity_summary pq = "Query is clear and complete.")
    /\ (In "general" (map field_name (detect_ambiguities pq)) ->
        In "product_type" (map field_name (detect_ambiguities pq))).
Proof.
  destruct (parse_total query) as [pq Hpq]. exists pq.
  split; [exact Hpq |].
  split; [unfold get_ambiguities; now rewrite Hpq |].
  split; [eapply parse_missing_fields_detected; eauto |].
  split; [eapply parse_complete_iff_unambiguous; eauto |].
  split.
  { rewrite summary_clear_iff. eapply parse_complete_iff_unambiguous; eauto. }
  destruct (parse_confidence_bounds query pq Hpq) as (_ & _ & Hknown).
  unfold detect_ambiguities.
  destruct (decide (product_type pq = ProductTypeEnum.UNKNOWN)) as [E | N];
    [intros _; now left |].
  specialize (Hknown N).
  assert (Hconf : Qltb (confidence_score pq) 0.65 = false) by (apply Qltb_ge; lra).
  rewrite Hconf.
  destruct (price_range pq), (is_nil (usage_context pq)),
    (is_nil (feature_preferences pq)); cbn; intuition discriminate.
Qed.

Lemma mapM_clean_price_length (ms : list string) :
  forall prices, mapM clean_price ms = Ok prices -> length prices = length ms.
Proof.
  induction ms as [| m ms IH]; intros prices; cbn [mapM].
  - intros [= <-]. reflexivity.
  - destruct (clean_price m) as [p |]; [| discriminate].
    cbn [mbind result_bind].
    destruct (mapM clean_price ms) as [ps |]; [| discriminate].
    cbn [mbind result_bind]. intros [= <-]. cbn. now rewrite (IH ps).
Qed.

(** ** The pipeline: validity of what it returns *)

Lemma validate_query_verdict (q : ParsedQuery) :
  is_valid (validate_query q) = fst (validate_price_range (price_range q))
  /\ validation_errors (validate_query q) = snd (validate_price_range (price_range q)).
Proof.
  unfold validate_query.
  pose proof (validate_price_range_ok_iff_no_error (price_range q)) as Hq.
  destruct (validate_price_range (price_range q)) as [ok errors].
  destruct (validate_against_product_type _ _). cbn [fst snd] in *.
  destruct ok; cbn; split; try reflexivity.
  symmetry. now apply Hq.
Qed.

(** A valid range is rejected exactly when its minimum is positive and its
    maximum more than ten times the minimum. *)
Lemma valid_range_rejected_iff (pr : PriceRange) :
  PriceRange_valid pr ->
  (fst (validate_price_range (Some pr)) = false <->
   0 < min_price pr /\ 10 * min_price pr < max_price pr).
Proof.
  intros (H0 & H1 & H2). rewrite validate_price_range_rejects. split.
  - intros [H | [H | [H | (Hmax & Hmin & Hr)]]]; try lra.
    split; [exact Hmin |].
    apply (Qmult_lt_r _ _ (min_price pr) Hmin) in Hr.
    assert (Hdiv : max_price pr / min_price pr * min_price pr == max_price pr)
      by (field; lra).
    lra.
  - intros [Hmin Hr]. right; right; right.
    split; [lra |]. split; [exact Hmin |].
    apply Qlt_shift_div_l; [exact Hmin | lra].
Qed.

(** What [normalize] returns is the validation of the query it carries,
    and that query has a valid price range or none. *)
Lemma normalize_result (py_float : string -> result Q) (query : string)
    (rs : option (gmap string string)) (r : NormalizedResult) :
  normalize py_float query rs = Ok r ->
  is_valid r = is_valid (validate_query (parsed_query r))
  /\ validation_errors r = validation_errors (validate_query (parsed_query r))
  /\ price_range_valid (price_range (parsed_query r)).
Proof.
  unfold normalize.
  destruct (parse query) as [pq |] eqn:Hpq; [| discriminate].
  cbn [mbind result_bind].
  pose proof (parse_price_range_valid query pq Hpq) as Hvalid.
  destruct (_ || _).
  - intros Hr.
    pose proof (clarify_query_price_valid py_float pq rs r Hvalid Hr) as Hv.
    destruct (clarify_query_result py_float pq rs) as (q' & _ & Hq & _).
    rewrite Hr in Hq. injection Hq as ->.
    cbn [set_clarifications_made parsed_query is_valid validation_errors] in *.
    rewrite validate_query_parsed_query in *. tauto.
  - intros [= <-]. rewrite validate_query_parsed_query. tauto.
Qed.

(** X10.  [normalize] returns on every input; its flag is true exactly when
    it lists no validation error; it reports the query invalid only when
    the price range it carries has a positive minimum and a maximum more
    than ten times that minimum, so never without a price range. *)
Theorem normalize_validity (py_float : string -> result Q) (query : string)
    (rs : option (gmap string string)) :
  exists r, normalize py_float query rs = Ok r
    /\ (is_valid r = true <-> validation_errors r = [])
    /\ (is_valid r = false ->
        exists pr, price_range (parsed_query r) = Some pr
          /\ 0 < min_price pr /\ 10 * min_price pr < max_price pr)
    /\ (price_range (parsed_query r) = None -> is_valid r = true).
Proof.
  destruct (normalize_total py_float query rs) as [r Hr]. exists r.
  split; [exact Hr |].
  destruct (normalize_result py_float query rs r Hr) as (Hv & He & Hvalid).
  destruct (validate_query_verdict (parsed_query r)) as [Hv' He'].
  rewrite Hv, He, Hv', He'.
  split; [apply validate_price_range_ok_iff_no_error |].
  destruct (price_range (parsed_query r)) as [pr |].
  - split; [| discriminate].
    intros H. exists pr. split; [reflexivity |].
    now apply (valid_range_rejected_iff pr Hvalid).
  - cbn. split; [discriminate | reflexivity].
Qed.

Lemma apply_response_answered_budget (py_float : string -> result Q)
    (q q' : ParsedQuery) (a : ClarificationRequest) (response : string) :
  apply_response py_float q a response = Ok q' ->
  answered_budget (price_range q) -> answered_budget (price_range q').
Proof.
  intros Hrun Hq.
  destruct (String.eqb_spec (field_name a) "price_range") as [E | N].
  - rewrite (apply_response_price_range py_float q a response E) in Hrun.
    injection Hrun as <-. unfold answer_price_range.
    destruct (py_float _) as [v |]; [| exact Hq].
    destruct (PriceRange_new _ _) as [pr |] eqn:Hnew; [| exact Hq].
    apply PriceRange_new_inv in Hnew as (-> & _ & Hv & _).
    right. exists v. split; [exact Hv | reflexivity].
  - destruct (apply_response_frame py_float q a response) as (q1 & Hq1 & _ & Hf).
    rewrite Hq1 in Hrun. injection Hrun as <-.
    rewrite (field_of_price_range q q1); [exact Hq |].
    apply Hf. congruence.
Qed.

Lemma apply_responses_answered_budget (py_float : string -> result Q)
    (rs : gmap string string) (ambiguities : list ClarificationRequest) :
  forall q made q' made',
  apply_responses py_float rs ambiguities q made = Ok (q', made') ->
  answered_budget (price_range q) -> answered_budget (price_range q').
Proof.
  induction ambiguities as [| a rest IH]; intros q made q' made';
    cbn [apply_responses].
  - intros [= <- _]. auto.
  - destruct (rs !! field_name a) as [response |]; [| apply IH].
    destruct (apply_response py_float q a response) as [q1 |] eqn:H1;
      [| discriminate].
    cbn [mbind result_bind]. intros Hrun Hq.
    eapply IH; [exact Hrun |]. eapply apply_response_answered_budget; eauto.
Qed.

Lemma answered_budget_accepted (o : option PriceRange) :
  answered_budget o -> validate_price_range o = (true, []).
Proof.
  intros [-> | (v & Hv & ->)]; [reflexivity |].
  unfold validate_price_range. cbn [min_price max_price].
  assert (H1 : Qltb (v * 0.7) 0 = false) by (apply Qltb_ge; lra).
  assert (H2 : Qltb v 0 = false) by (apply Qltb_ge; lra).
  assert (H3 : Qltb v (v * 0.7) = false) by (apply Qltb_ge; lra).
  rewrite H1, H2, H3. cbn [orb].
  destruct (Qgtb v 0 && Qgtb (v * 0.7) 0) eqn:Hpos; [| reflexivity].
  apply andb_true_iff in Hpos as [Hp _]. apply Qgtb_lt in Hp.
  assert (Hr : Qgtb (v / (v * 0.7)) 10 = false).
  { apply Qltb_ge. apply Qle_shift_div_r; lra. }
  rewrite Hr. reflexivity.
Qed.



(** ** The pipeline: responses *)

Lemma apply_responses_empty (py_float : string -> result Q)
    (ambiguities : list ClarificationRequest) :
  forall q made, apply_responses py_float ∅ ambiguities q made = Ok (q, made).
Proof.
  induction ambiguities as [| a rest IH]; intros q made; cbn [apply_responses];
    [reflexivity |].
  rewrite lookup_empty. apply IH.
Qed.

Lemma set_clarifications_made_nil (q : ParsedQuery) :
  set_clarifications_made (validate_query q) [] = validate_query q.
Proof.
  pose proof (validate_query_clarifications_made q) as H.
  destruct (validate_query q) as [p made v e]. cbn in *. now subst.
Qed.

(** X12.  Without responses, be it no dict or an empty one, [normalize]
    is the parser followed by the validator, ambiguous query or not: the
    parsed query is untouched and no clarification is recorded. *)
Theorem normalize_without_responses (py_float : string -> result Q)
    (query : string) :
  exists pq, parse query = Ok pq
    /\ normalize py_float query None = Ok (validate_query pq)
    /\ normalize py_float query (Some ∅) = Ok (validate_query pq)
    /\ parsed_query (validate_query pq) = pq
    /\ clarifications_made (validate_query pq) = [].
Proof.
  destruct (parse_total query) as [pq Hpq]. exists pq.
  split; [exact Hpq |].
  assert (H : forall rs, default ∅ rs = ∅ -> truthy rs = false ->
            normalize py_float query rs = Ok (validate_query pq)).
  { intros rs Hrs Ht. unfold normalize. rewrite Hpq. cbn [mbind result_bind].
    rewrite Ht. cbn [orb]. destruct (is_ambiguous pq); [| reflexivity].
    unfold clarify_query. rewrite Hrs, apply_responses_empty.
    cbn [mbind result_bind]. now rewrite set_clarifications_made_nil. }
  split; [apply H; reflexivity |].
  split; [apply H; reflexivity |].
  split; [apply validate_query_parsed_query | apply validate_query_clarifications_made].
Qed.

(** X13.  The clarifications [clarify_query] records are the detected
    ambiguities whose field has a response, in detection order, whether
    the response was used or ignored. *)
Theorem clarifications_made_are_answered_ambiguities
    (py_float : string -> result Q) (pq : ParsedQuery)
    (rs : gmap string string) :
  exists r, clarify_query py_float pq (Some rs) = Ok r
    /\ clarifications_made r
       = filter (fun a => is_Some (rs !! field_name a)) (detect_ambiguities pq)
    /\ sublist (clarifications_made r) (detect_ambiguities pq)
    /\ (forall a, In a (clarifications_made r) <->
          In a (detect_ambiguities pq) /\ is_Some (rs !! field_name a)).
Proof.
  destruct (clarify_query_result py_float pq (Some rs)) as (q' & _ & Hr & _).
  eexists. split; [exact Hr |].
  cbn [set_clarifications_made clarifications_made].
  change (default ∅ (Some rs)) with rs.
  split; [reflexivity |]. split; [apply sublist_filter |].
  intros a. rewrite <- !list_elem_of_In, list_elem_of_filter. tauto.
Qed.

(** ** The enumerations and the options of the requests *)

Lemma find_by_value {A} (value : A -> string) (members : list A) (s : string) (x : A) :
  find (fun y => String.eqb (value y) s) members = Some x -> value x = s.
Proof.
  intros H. apply find_some in H as [_ H]. now apply String.eqb_eq.
Qed.

(** X14.  Looking a member up by its value inverts taking its value, for
    both enumerations: [E(e.value)] is [e], and [E(s)] succeeds only with
    the member whose value is [s]. *)
Theorem enum_value_round_trip :
  (forall p, ProductTypeEnum.of_value (ProductTypeEnum.value p) = Ok p)
  /\ (forall s p, ProductTypeEnum.of_value s = Ok p -> ProductTypeEnum.value p = s)
  /\ (forall c, UsageContextEnum.of_value (UsageContextEnum.value c) = Ok c)
  /\ (forall s c, UsageContextEnum.of_value s = Ok c -> UsageContextEnum.value c = s).
Proof.
  split; [intros p; destruct p; reflexivity |].
  split.
  { intros s p. unfold ProductTypeEnum.of_value.
    destruct (find _ _) as [x |] eqn:Hf; [| discriminate].
    intros [= <-]. eapply find_by_value; eauto. }
  split; [intros c; destruct c; reflexivity |].
  intros s c. unfold UsageContextEnum.of_value.
  destruct (find _ _) as [x |] eqn:Hf; [| discriminate].
  intros [= <-]. eapply find_by_value; eauto.
Qed.

Lemma enum_value_round_trip_witness :
  ProductTypeEnum.value ProductTypeEnum.LAPTOP = "laptop"
  /\ UsageContextEnum.value UsageContextEnum.GYM = "gym".
Proof.
  destruct enum_value_round_trip as (_ & Hp & _ & Hc).
  split; [apply Hp | apply Hc]; reflexivity.
Defined.

(** X15.  Every option the detector offers for the product type or for the
    usage context is accepted by the clarifier: the answer sets the field
    to the member with that value, never to the unknown product. *)
Theorem offered_options_are_accepted (py_float : string -> result Q)
    (q : ParsedQuery) :
  Forall (fun o => exists p,
            p <> ProductTypeEnum.UNKNOWN /\ ProductTypeEnum.value p = o
            /\ apply_response py_float q product_type_request o
               = Ok (set_product_type q p))
         (offered product_type_request)
  /\ Forall (fun o => exists c,
               UsageContextEnum.value c = o
               /\ apply_response py_float q usage_context_request o
                  = Ok (set_usage_context q [c]))
            (offered usage_context_request).
Proof.
  split.
  - change (offered product_type_request)
      with ["headphones"; "earbuds"; "speakers"; "microphone"; "camera";
            "laptop"; "phone"; "tablet"; "watch"].
    repeat (apply List.Forall_cons;
            [eexists; split; [| split; [| reflexivity]];
             [discriminate | reflexivity] |]).
    apply List.Forall_nil.
  - change (offered usage_context_request)
      with ["gym"; "office"; "home"; "outdoor"; "travel"; "gaming"; "professional"].
    repeat (apply List.Forall_cons;
            [eexists; split; [| reflexivity]; reflexivity |]).
    apply List.Forall_nil.
Qed.

(** ** Splitting and stripping an answer *)

Lemma split_char_nonempty (c : ascii) (s : string) : split_char c s <> [].
Proof.
  induction s as [| a s IH]; simpl; [discriminate |].
  destruct (split_char c s); [discriminate |].
  destruct (Ascii.eqb a c); discriminate.
Qed.

Lemma split_char_length (c : ascii) (s : string) :
  length (split_char c s) = S (count_char c s).
Proof.
  induction s as [| a s IH]; simpl; [reflexivity |].
  destruct (split_char c s) as [| p r] eqn:E.
  - now destruct (split_char_nonempty c s).
  - destruct (Ascii.eqb a c); simpl in *; lia.
Qed.

Lemma split_char_no_comma (u : string) :
  no_comma u = true -> split_char "," u = [u].
Proof.
  unfold no_comma.
  induction u as [| a u IH]; simpl; [reflexivity |].
  intros H. apply andb_true_iff in H as [Ha Hu].
  rewrite (IH Hu). apply negb_true_iff in Ha. now rewrite Ha.
Qed.

Lemma split_char_app (u v : string) :
  no_comma u = true ->
  split_char "," (u ++ String "," v) = u :: split_char "," v.
Proof.
  unfold no_comma.
  induction u as [| a u IH]; intros H.
  - change ("" ++ String "," v) with (String "," v). simpl.
    destruct (split_char "," v) eqn:E; [| reflexivity].
    now destruct (split_char_nonempty "," v).
  - change (String a u ++ String "," v) with (String a (u ++ String "," v)).
    simpl in H. apply andb_true_iff in H as [Ha Hu].
    cbn [split_char]. rewrite (IH Hu).
    apply negb_true_iff in Ha. now rewrite Ha.
Qed.

Lemma split_char_pieces (s : string) :
  Forall (fun p => no_comma p = true) (split_char "," s).
Proof.
  unfold no_comma.
  induction s as [| a s IH]; simpl; [repeat constructor |].
  destruct (split_char "," s) as [| p r] eqn:E; [now destruct (split_char_nonempty "," s) |].
  apply List.Forall_cons_iff in IH as [Hp Hr].
  destruct (Ascii.eqb a ",") eqn:Ea.
  - constructor; [reflexivity |]. now constructor.
  - constructor; [| assumption]. simpl. now rewrite Ea, Hp.
Qed.

Lemma split_char_join (x : string) (xs : list string) :
  Forall (fun p => no_comma p = true) (x :: xs) ->
  split_char "," (join ", " (x :: xs)) = x :: map (String " ") xs.
Proof.
  revert x. induction xs as [| y ys IH]; intros x H.
  - apply List.Forall_cons_iff in H as [Hx _]. simpl. now apply split_char_no_comma.
  - apply List.Forall_cons_iff in H as [Hx Hr].
    change (join ", " (x :: y :: ys))
      with (x ++ String "," (String " " (join ", " (y :: ys)))).
    rewrite (split_char_app _ _ Hx).
    cbn [split_char]. rewrite (IH y Hr). reflexivity.
Qed.

Lemma string_forall_lstrip (p : ascii -> bool) (s : string) :
  string_forall p s = true -> string_forall p (lstrip s) = true.
Proof.
  induction s as [| c s IH]; simpl; [trivial |].
  intros H. destruct (is_space c); [| exact H].
  apply andb_true_iff in H as [_ H]. auto.
Qed.

Lemma string_forall_rstrip (p : ascii -> bool) (s : string) :
  string_forall p s = true -> string_forall p (rstrip s) = true.
Proof.
  induction s as [| c s IH]; simpl; [trivial |].
  intros H. apply andb_true_iff in H as [Hc H]. specialize (IH H).
  destruct (rstrip s) as [| d t].
  - destruct (is_space c); simpl; [reflexivity | now rewrite Hc].
  - simpl in *. now rewrite Hc, IH.
Qed.

Lemma lstrip_head (s : string) :
  lstrip s = "" \/ exists c t, lstrip s = String c t /\ is_space c = false.
Proof.
  induction s as [| c s IH]; simpl; [now left |].
  destruct (is_space c) eqn:E; [exact IH |]. right. eauto.
Qed.

Lemma rstrip_idempotent (s : string) : rstrip (rstrip s) = rstrip s.
Proof.
  induction s as [| c s IH]; [reflexivity |].
  cbn [rstrip]. destruct (rstrip s) as [| d t] eqn:E.
  - destruct (is_space c) eqn:Ec; [reflexivity |].
    cbn [rstrip]. now rewrite Ec.
  - cbn [rstrip]. cbn [rstrip] in IH. now rewrite IH.
Qed.

Lemma rstrip_head (c : ascii) (t : string) :
  is_space c = false -> exists t', rstrip (String c t) = String c t'.
Proof.
  intros Hc. cbn [rstrip]. destruct (rstrip t); [rewrite Hc |]; eauto.
Qed.

Lemma strip_idempotent (s : string) : strip (strip s) = strip s.
Proof.
  unfold strip.
  destruct (lstrip_head s) as [-> | (c & t & -> & Hc)]; [reflexivity |].
  destruct (rstrip_head c t Hc) as [t' E].
  rewrite E. cbn [lstrip]. rewrite Hc. rewrite <- E. apply rstrip_idempotent.
Qed.

Lemma strip_after_space (s : string) : strip (String " " s) = strip s.
Proof. reflexivity. Qed.

Lemma plain_feature_checked (s : string) :
  no_comma s && String.eqb (strip s) s = true -> plain_feature s.
Proof.
  intros H. apply andb_true_iff in H as [H1 H2].
  split; [exact H1 | now apply String.eqb_eq].
Qed.

(** X16.  The answer the interface builds for the feature question,
    [", ".join(selected)], is read back by the clarifier as the very list
    selected, when at least one feature is selected and each has no comma
    and no surrounding blank; every feature the detector offers is such a
    text. *)
Theorem feature_answer_round_trip (py_float : string -> result Q)
    (q : ParsedQuery) (pt : ProductTypeEnum.t) (selected : list string) :
  selected <> [] ->
  Forall plain_feature selected ->
  apply_response py_float q (feature_preferences_request pt) (join ", " selected)
    = Ok (set_feature_preferences q selected)
  /\ Forall plain_feature (offered (feature_preferences_request pt)).
Proof.
  intros Hne Hall. split.
  - destruct selected as [| x xs]; [congruence |].
    unfold apply_response. cbn [field_name feature_preferences_request String.eqb Ascii.eqb Bool.eqb].
    simpl String.eqb. cbv iota.
    rewrite split_char_join
      by (eapply List.Forall_impl; [| exact Hall]; now intros ? [? _]).
    do 2 f_equal. cbn [map].
    apply List.Forall_cons_iff in Hall as [[_ Hx] Hr]. rewrite Hx. f_equal.
    rewrite map_map. clear -Hr.
    induction Hr as [| y ys [_ Hy] _ IH]; [reflexivity |].
    cbn [map]. now rewrite strip_after_space, Hy, IH.
  - apply List.Forall_forall. intros s Hs. apply plain_feature_checked.
    revert s Hs. apply forallb_forall. now destruct pt.
Qed.

Lemma feature_answer_round_trip_witness :
  apply_response float_literal schema_example_query
    (feature_preferences_request ProductTypeEnum.EARBUDS)
    (join ", " ["waterproof"; "active noise"])
  = Ok (set_feature_preferences schema_example_query ["waterproof"; "active noise"]).
Proof.
  apply (feature_answer_round_trip float_literal schema_example_query
           ProductTypeEnum.EARBUDS ["waterproof"; "active noise"]).
  - discriminate.
  - repeat constructor.
Defined.

(** X17.  Whatever is answered to the feature question, the clarifier
    stores one feature more than the answer has commas, so never an empty
    list; each stored feature has no comma and no surrounding blank (an
    empty answer stores one empty feature). *)
Theorem feature_answer_pieces (py_float : string -> result Q)
    (q : ParsedQuery) (a : ClarificationRequest) (response : string) :
  field_name a = "feature_preferences" ->
  exists features,
    apply_response py_float q a response = Ok (set_feature_preferences q features)
    /\ length features = S (count_char "," response)
    /\ Forall plain_feature features.
Proof.
  intros Hn. exists (map strip (split_char "," response)).
  split; [| split].
  - unfold apply_response. rewrite Hn. reflexivity.
  - rewrite length_map. apply split_char_length.
  - apply List.Forall_map.
    eapply List.Forall_impl; [| apply split_char_pieces].
    intros p Hp. split; [| apply strip_idempotent].
    unfold no_comma, strip in *.
    now apply string_forall_rstrip, string_forall_lstrip.
Qed.

Lemma feature_answer_pieces_witness :
  exists features,
    apply_response float_literal schema_example_query
      (feature_preferences_request ProductTypeEnum.LAPTOP) " gaming ,,touchscreen"
    = Ok (set_feature_preferences schema_example_query features)
    /\ length features = 3%nat
    /\ Forall plain_feature features.
Proof.
  apply (feature_answer_pieces float_literal schema_example_query
           (feature_preferences_request ProductTypeEnum.LAPTOP)
           " gaming ,,touchscreen").
  reflexivity.
Defined.

(** ** Case and surrounding blanks of the query *)

Lemma lower_ascii_idempotent (c : ascii) : lower_ascii (lower_ascii c) = lower_ascii c.
Proof. destruct c as [[] [] [] [] [] [] [] []]; reflexivity. Qed.

Lemma is_space_lower_ascii (c : ascii) : is_space (lower_ascii c) = is_space c.
Proof. destruct c as [[] [] [] [] [] [] [] []]; reflexivity. Qed.

Lemma lower_idempotent (s : string) : lower (lower s) = lower s.
Proof.
  induction s as [| c s IH]; simpl; [reflexivity |].
  now rewrite lower_ascii_idempotent, IH.
Qed.

Lemma lower_lstrip (s : string) : lower (lstrip s) = lstrip (lower s).
Proof.
  induction s as [| c s IH]; simpl; [reflexivity |].
  rewrite is_space_lower_ascii. now destruct (is_space c).
Qed.

Lemma lower_rstrip (s : string) : lower (rstrip s) = rstrip (lower s).
Proof.
  induction s as [| c s IH]; [reflexivity |].
  cbn [rstrip lower]. rewrite <- IH, is_space_lower_ascii.
  destruct (rstrip s) as [| d t]; [now destruct (is_space c) | reflexivity].
Qed.

Lemma lower_strip (s : string) : lower (strip s) = strip (lower s).
Proof. unfold strip. now rewrite lower_rstrip, lower_lstrip. Qed.

Lemma normalize_text_idempotent_eq (text : string) :
  normalize_text (normalize_text text) = normalize_text text.
Proof.
  unfold normalize_text.
  now rewrite lower_strip, lower_idempotent, strip_idempotent.
Qed.

Lemma parse_of_normalized (q1 q2 : string) :
  normalize_text q1 = normalize_text q2 ->
  parse q2 = (p ← parse q1; Ok (set_original_query p q2)).
Proof.
  intros H. unfold parse.
  assert (E1 : extract_product_type q2 = extract_product_type q1)
    by (unfold extract_product_type; now rewrite H).
  assert (E2 : extract_price_range q2 = extract_price_range q1)
    by (unfold extract_price_range, price_mentions, price_matches; now rewrite H).
  assert (E3 : extract_usage_context q2 = extract_usage_context q1)
    by (unfold extract_usage_context; now rewrite H).
  assert (E4 : extract_features q2 = extract_features q1)
    by (unfold extract_features; now rewrite H).
  rewrite E1, E2, E3, E4.
  destruct (extract_product_type q1) as [pt pc].
  destruct (extract_price_range q1) as [[pr prc] | e]; [| reflexivity].
  cbn [mbind result_bind].
  destruct (extract_usage_context q1) as [cs cc].
  destruct (extract_features q1) as [fs fc].
  unfold ParsedQuery_new.
  match goal with |- context [if ?b then _ else _] => destruct b end; reflexivity.
Qed.

(** X18.  Normalizing a text twice is normalizing it once, and the parser
    reads a query only through its normalized text: two queries that differ
    in letter case and surrounding blanks only get the same parse, apart
    from the original text kept in it. *)
Theorem parse_reads_normalized_text (q1 q2 : string) :
  normalize_text q1 = normalize_text q2 ->
  normalize_text (normalize_text q1) = normalize_text q1
  /\ extract_product_type q2 = extract_product_type q1
  /\ extract_price_range q2 = extract_price_range q1
  /\ extract_usage_context q2 = extract_usage_context q1
  /\ extract_features q2 = extract_features q1
  /\ parse q2 = (p ← parse q1; Ok (set_original_query p q2)).
Proof.
  intros H.
  split; [apply normalize_text_idempotent_eq |].
  split; [unfold extract_product_type; now rewrite H |].
  split; [unfold extract_price_range, price_mentions, price_matches; now rewrite H |].
  split; [unfold extract_usage_context; now rewrite H |].
  split; [unfold extract_features; now rewrite H |].
  now apply parse_of_normalized.
Qed.

Lemma parse_reads_normalized_text_witness :
  extract_product_type "gaming laptop" = extract_product_type "  Gaming LAPTOP "
  /\ parse "gaming laptop"
     = (p ← parse "  Gaming LAPTOP "; Ok (set_original_query p "gaming laptop")).
Proof.
  destruct (parse_reads_normalized_text "  Gaming LAPTOP " "gaming laptop")
    as (_ & H1 & _ & _ & _ & H5); [reflexivity |].
  split; [exact H1 | exact H5].
Defined.

(** ** Which responses the clarifier reads *)

Lemma apply_responses_agree (py_float : string -> result Q)
    (rs1 rs2 : gmap string string) (ambiguities : list ClarificationRequest) :
  (forall a, In a ambiguities -> rs1 !! field_name a = rs2 !! field_name a) ->
  forall q made,
    apply_responses py_float rs1 ambiguities q made
    = apply_responses py_float rs2 ambiguities q made.
Proof.
  induction ambiguities as [| a rest IH]; intros H q made; [reflexivity |].
  cbn [apply_responses].
  rewrite <- (H a (or_introl eq_refl)).
  assert (Hrest : forall b, In b rest -> rs1 !! field_name b = rs2 !! field_name b)
    by (intros b Hb; apply H; now right).
  destruct (rs1 !! field_name a) as [resp |]; [| now apply IH].
  destruct (apply_response py_float q a resp) as [q1 | e]; [| reflexivity].
  cbn [mbind result_bind]. now apply IH.
Qed.

Lemma apply_response_other_field (py_float : string -> result Q)
    (q : ParsedQuery) (a : ClarificationRequest) (response : string) :
  ~ In (field_name a)
       ["product_type"; "price_range"; "usage_context"; "feature_preferences"] ->
  apply_response py_float q a response = Ok q.
Proof.
  intros H. unfold apply_response.
  destruct (String.eqb_spec (field_name a) "product_type") as [E | _];
    [exfalso; apply H; rewrite E; simpl; tauto |].
  destruct (String.eqb_spec (field_name a) "price_range") as [E | _];
    [exfalso; apply H; rewrite E; simpl; tauto |].
  destruct (String.eqb_spec (field_name a) "usage_context") as [E | _];
    [exfalso; apply H; rewrite E; simpl; tauto |].
  destruct (String.eqb_spec (field_name a) "feature_preferences") as [E | _];
    [exfalso; apply H; rewrite E; simpl; tauto |].
  reflexivity.
Qed.

Lemma apply_responses_other_key (py_float : string -> result Q)
    (rs : gmap string string) (k response : string)
    (ambiguities : list ClarificationRequest) :
  ~ In k ["product_type"; "price_range"; "usage_context"; "feature_preferences"] ->
  forall (q : ParsedQuery) (made made0 : list ClarificationRequest),
  exists q' m m0,
    apply_responses py_float rs ambiguities q made = Ok (q', m)
    /\ apply_responses py_float (<[k := response]> rs) ambiguities q made0
       = Ok (q', m0).
Proof.
  intros Hk.
  induction ambiguities as [| a rest IH]; intros q made made0; cbn [apply_responses].
  - eauto.
  - destruct (String.eqb_spec (field_name a) k) as [E | N].
    + rewrite E, lookup_insert_eq.
      assert (Ha : forall resp, apply_response py_float q a resp = Ok q)
        by (intros resp; apply apply_response_other_field; now rewrite E).
      rewrite Ha. cbn [mbind result_bind].
      destruct (rs !! k) as [resp |]; [| apply IH].
      rewrite Ha. cbn [mbind result_bind]. apply IH.
    + rewrite lookup_insert_ne by congruence.
      destruct (rs !! field_name a) as [resp |]; [| apply IH].
      destruct (apply_response_frame py_float q a resp) as (q1 & -> & _).
      cbn [mbind result_bind]. apply IH.
Qed.

(** X19.  The clarifier reads the responses only under the field names of
    the ambiguities it detected: two sets of responses that agree on those
    names give the same result.  And a response under any name other than
    the four fields, such as the one of the general question, changes
    nothing in the query and its validation: at most the list of
    clarifications made differs. *)
Theorem clarify_query_reads_detected_fields (py_float : string -> result Q)
    (pq : ParsedQuery) (rs1 rs2 : gmap string string) :
  (forall a, In a (detect_ambiguities pq) ->
             rs1 !! field_name a = rs2 !! field_name a) ->
  clarify_query py_float pq (Some rs1) = clarify_query py_float pq (Some rs2)
  /\ forall k response,
       ~ In k ["product_type"; "price_range"; "usage_context"; "feature_preferences"] ->
       exists r r',
         clarify_query py_float pq (Some rs1) = Ok r
         /\ clarify_query py_float pq (Some (<[k := response]> rs1)) = Ok r'
         /\ parsed_query r' = parsed_query r
         /\ is_valid r' = is_valid r
         /\ validation_errors r' = validation_errors r.
Proof.
  intros H. split.
  - unfold clarify_query. cbv [from_option id].
    now rewrite (apply_responses_agree py_float rs1 rs2 _ H).
  - intros k response Hk. unfold clarify_query. cbv [from_option id].
    destruct (apply_responses_other_key py_float rs1 k response
                (detect_ambiguities pq) Hk pq [] [])
      as (q' & m & m0 & -> & ->).
    cbn [mbind result_bind].
    eexists; eexists. split; [reflexivity |]. split; [reflexivity |].
    repeat split.
Qed.

Lemma clarify_query_reads_detected_fields_witness :
  clarify_query float_literal laptop_query (Some {[ "price_range" := "75000" ]})
  = clarify_query float_literal laptop_query
      (Some {[ "price_range" := "75000"; "product_type" := "phone" ]}).
Proof.
  apply (clarify_query_reads_detected_fields float_literal laptop_query
           {[ "price_range" := "75000" ]}
           {[ "price_range" := "75000"; "product_type" := "phone" ]}).
  intros a Ha. vm_compute in Ha.
  destruct Ha as [<- | [<- | []]]; reflexivity.
Defined.

(** ** Answers to the product-type and usage-context questions *)

Lemma find_by_value_none {A} (value : A -> string) (members : list A) (s : string) :
  (forall x, In x members -> value x <> s) ->
  find (fun y => String.eqb (value y) s) members = None.
Proof.
  intros H. induction members as [| x rest IH]; [reflexivity |].
  cbn [find]. destruct (String.eqb_spec (value x) s) as [E | _].
  - now destruct (H x (or_introl eq_refl)).
  - apply IH. intros y Hy. apply H. now right.
Qed.

Lemma usage_value_listed (response : string) :
  existsb (String.eqb response) (map UsageContextEnum.value UsageContextEnum.members)
  = true
  <-> exists c, UsageContextEnum.value c = response.
Proof.
  rewrite existsb_exists. split.
  - intros (v & Hin & Hv). apply String.eqb_eq in Hv. subst v.
    apply in_map_iff in Hin as (c & Hc & _). eauto.
  - intros (c & Hc). exists response. split; [| apply String.eqb_refl].
    apply in_map_iff. exists c. split; [exact Hc |].
    destruct c; simpl; tauto.
Qed.

(** X20.  An answer to the product-type or to the usage-context question
    is applied exactly when it is, letter for letter, the value of a member
    of the enumeration: then the field becomes that member (for the usage
    context, the list with that member only); any other answer leaves the
    query as it was, and none raises. *)
Theorem enum_answers_applied_iff_values (py_float : string -> result Q)
    (q : ParsedQuery) (a : ClarificationRequest) (response : string) :
  (field_name a = "product_type" ->
     (forall p, ProductTypeEnum.value p = response ->
        apply_response py_float q a response = Ok (set_product_type q p))
     /\ ((forall p, ProductTypeEnum.value p <> response) ->
         apply_response py_float q a response = Ok q))
  /\ (field_name a = "usage_context" ->
        (forall c, UsageContextEnum.value c = response ->
           apply_response py_float q a response = Ok (set_usage_context q [c]))
        /\ ((forall c, UsageContextEnum.value c <> response) ->
            apply_response py_float q a response = Ok q)).
Proof.
  split; intros Hn; unfold apply_response; rewrite Hn; cbn [String.eqb Ascii.eqb Bool.eqb].
  - split.
    + intros p <-.
      replace (ProductTypeEnum.of_value (ProductTypeEnum.value p)) with (Ok p)
        by (now destruct p).
      reflexivity.
    + intros Hno. unfold ProductTypeEnum.of_value.
      rewrite find_by_value_none by (intros x _; apply Hno). reflexivity.
  - split.
    + intros c <-.
      replace (existsb _ _) with true by (now destruct c).
      replace (UsageContextEnum.of_value (UsageContextEnum.value c)) with (Ok c)
        by (now destruct c).
      reflexivity.
    + intros Hno.
      destruct (existsb _ _) eqn:E; [| reflexivity].
      apply usage_value_listed in E as (c & Hc). now destruct (Hno c).
Qed.

Lemma enum_answers_applied_iff_values_witness :
  apply_response float_literal laptop_query product_type_request "phone"
  = Ok (set_product_type laptop_query ProductTypeEnum.PHONE)
  /\ apply_response float_literal laptop_query usage_context_request "Gym"
     = Ok laptop_query.
Proof.
  destruct (enum_answers_applied_iff_values float_literal laptop_query
              product_type_request "phone") as [[Hp _] _]; [reflexivity |].
  destruct (enum_answers_applied_iff_values float_literal laptop_query
              usage_context_request "Gym") as [_ [_ Hc]]; [reflexivity |].
  split; [apply Hp; reflexivity |].
  apply Hc. intros c; destruct c; discriminate.
Defined.

(* ===================================================================== *)
(** * The parser in binary64                                               *)
(* ===================================================================== *)

(** ** Rounding to binary64 *)

Lemma round_half_even_le (q : Q) (k : Z) :
  q <= inject_Z k -> (round_half_even q <= k)%Z.
Proof.
  destruct q as [n d]. unfold Qle, round_half_even. simpl Qnum. simpl Qden.
  intros H. rewrite Z.mul_1_r in H.
  pose proof (Z.div_mod n (Zpos d) ltac:(lia)) as Hdm.
  pose proof (Z.mod_pos_bound n (Zpos d) ltac:(lia)) as Hr.
  assert (Hf : (n / Zpos d <= k)%Z) by (apply Z.div_le_upper_bound; lia).
  assert (Hf1 : (0 < n mod Zpos d -> n / Zpos d + 1 <= k)%Z) by nia.
  destruct (Z.compare_spec (2 * (n mod Zpos d)) (Zpos d)) as [E | E | E].
  - destruct (Z.even _); [exact Hf | apply Hf1; lia].
  - exact Hf.
  - apply Hf1; lia.
Qed.

Lemma round_half_even_ge (q : Q) (k : Z) :
  inject_Z k <= q -> (k <= round_half_even q)%Z.
Proof.
  destruct q as [n d]. unfold Qle, round_half_even. simpl Qnum. simpl Qden.
  intros H. rewrite Z.mul_1_r in H.
  pose proof (Z.div_mod n (Zpos d) ltac:(lia)) as Hdm.
  pose proof (Z.mod_pos_bound n (Zpos d) ltac:(lia)) as Hr.
  assert (Hf : (k <= n / Zpos d)%Z) by (apply Z.div_le_lower_bound; lia).
  destruct (Z.compare_spec (2 * (n mod Zpos d)) (Zpos d)) as [E | E | E];
    [destruct (Z.even _) | |]; lia.
Qed.

Lemma pow2_pos (e : Z) : 0 < 2 ^ e.
Proof. apply Qpower_0_lt. reflexivity. Qed.

Lemma pow2_add (a b : Z) : 2 ^ (a + b) == 2 ^ a * 2 ^ b.
Proof. apply Qpower_plus. discriminate. Qed.

Lemma pow2_sub (a b : Z) : 2 ^ (a - b) == 2 ^ a / 2 ^ b.
Proof. apply Qpower_minus. discriminate. Qed.

Lemma pow2_le (a b : Z) : (a <= b)%Z -> 2 ^ a <= 2 ^ b.
Proof. intros H. apply Qpower_le_compat_l; [exact H | discriminate]. Qed.

Lemma pow2_lt_inv (a b : Z) : 2 ^ a < 2 ^ b -> (a < b)%Z.
Proof. intros H. apply (Qpower_lt_compat_l_inv 2); [exact H | reflexivity]. Qed.

Lemma pow2_inject (n : Z) : (0 <= n)%Z -> inject_Z (2 ^ n) == 2 ^ n.
Proof. intros H. now rewrite Zpower_Qpower. Qed.

Lemma Qabs_nonneg_eq (x : Q) : 0 <= x -> Qabs x = x.
Proof.
  destruct x as [a b]. unfold Qle. simpl. intros H.
  unfold Qabs. f_equal. apply Z.abs_eq. lia.
Qed.

Lemma ilog2_spec (q : Q) :
  0 < q -> 2 ^ B64.ilog2 q <= q /\ q < 2 ^ (B64.ilog2 q + 1).
Proof.
  intros Hq. destruct q as [a b].
  assert (Ha : (0 < a)%Z) by (unfold Qlt in Hq; simpl in Hq; lia).
  unfold B64.ilog2. cbn [Qnum Qden].
  set (la := Z.log2 a). set (lb := Z.log2 (Zpos b)).
  pose proof (Z.log2_spec a Ha) as [Ha1 Ha2].
  pose proof (Z.log2_spec (Zpos b) ltac:(lia)) as [Hb1 Hb2].
  fold la in Ha1, Ha2. fold lb in Hb1, Hb2.
  assert (Hla : (0 <= la)%Z) by apply Z.log2_nonneg.
  assert (Hlb : (0 <= lb)%Z) by apply Z.log2_nonneg.
  assert (QA1 : 2 ^ la <= inject_Z a)
    by (rewrite <- pow2_inject by lia; now rewrite <- Zle_Qle).
  assert (QA2 : inject_Z a < 2 ^ (la + 1))
    by (rewrite <- pow2_inject by lia; rewrite <- Zlt_Qlt; exact Ha2).
  assert (QB1 : 2 ^ lb <= inject_Z (Zpos b))
    by (rewrite <- pow2_inject by lia; now rewrite <- Zle_Qle).
  assert (QB2 : inject_Z (Zpos b) < 2 ^ (lb + 1))
    by (rewrite <- pow2_inject by lia; rewrite <- Zlt_Qlt; exact Hb2).
  assert (Hq' : a # b == inject_Z a / inject_Z (Zpos b)) by apply Qmake_Qdiv.
  pose proof (pow2_pos la) as Pla. pose proof (pow2_pos lb) as Plb.
  pose proof (pow2_pos (la + 1)) as Pla1. pose proof (pow2_pos (lb + 1)) as Plb1.
  assert (PB : 0 < inject_Z (Zpos b)) by (rewrite <- (Zlt_Qlt 0); lia).
  destruct (Qle_bool (2 ^ (la - lb)) (a # b)) eqn:Hc.
  - apply Qle_bool_iff in Hc. split; [exact Hc |].
    replace (la - lb + 1)%Z with ((la + 1) - lb)%Z by ring.
    rewrite pow2_sub, Hq'.
    apply Qlt_shift_div_l; [exact Plb |].
    unfold Qdiv. rewrite <- Qmult_assoc, (Qmult_comm (/ _)), Qmult_assoc.
    apply Qlt_shift_div_r; [exact PB |]. nra.
  - assert (Hlt : a # b < 2 ^ (la - lb)).
    { apply Qnot_le_lt. intros H. apply Qle_bool_iff in H. congruence. }
    split.
    + replace (la - lb - 1)%Z with (la - (lb + 1))%Z by ring.
      rewrite pow2_sub, Hq'.
      apply Qle_shift_div_r; [exact Plb1 |].
      unfold Qdiv. rewrite <- Qmult_assoc, (Qmult_comm (/ _)), Qmult_assoc.
      apply Qle_shift_div_l; [exact PB |]. nra.
    + now replace (la - lb - 1 + 1)%Z with (la - lb)%Z by ring.
Qed.

Lemma binary64_nonneg (p : Q) : binary64 p -> 0 <= p.
Proof.
  intros (_ & M & E & HM & _ & ->).
  apply Qmult_le_0_compat; [| apply Qlt_le_weak, pow2_pos].
  rewrite <- (Zle_Qle 0). lia.
Qed.

Lemma Qred_idempotent (q : Q) : Qred (Qred q) = Qred q.
Proof. apply Qred_complete, Qred_correct. Qed.

Section Nearest.

Variable x : Q.
Hypothesis Hx : 0 < x.

Lemma exponent_positive :
  B64.exponent x = Z.max (B64.ilog2 x - 52) (-1074).
Proof.
  unfold B64.exponent. now rewrite (Qabs_nonneg_eq x) by now apply Qlt_le_weak.
Qed.

Lemma nearest_unfold :
  B64.nearest x
  = if Qle_bool (2 ^ 1024)
         (Qabs (Qred (inject_Z (round_half_even (x / 2 ^ B64.exponent x))
                      * 2 ^ B64.exponent x)))
    then B64.Inf false
    else B64.Finite (Qred (inject_Z (round_half_even (x / 2 ^ B64.exponent x))
                           * 2 ^ B64.exponent x)).
Proof.
  unfold B64.nearest.
  assert (Hz : Qeq_bool x 0 = false).
  { destruct (Qeq_bool x 0) eqn:E; [| reflexivity].
    apply Qeq_bool_iff in E. rewrite E in Hx. discriminate. }
  assert (Hs : Qltb x 0 = false) by (apply Qltb_ge; now apply Qlt_le_weak).
  now rewrite Hz, Hs.
Qed.

Lemma nearest_mantissa_nonneg :
  (0 <= round_half_even (x / 2 ^ B64.exponent x))%Z.
Proof.
  apply round_half_even_ge. change (inject_Z 0) with 0.
  apply Qlt_le_weak, Qlt_shift_div_l; [apply pow2_pos |]. now rewrite Qmult_0_l.
Qed.

Lemma nearest_mantissa_bound :
  (round_half_even (x / 2 ^ B64.exponent x) <= 2 ^ 53)%Z.
Proof.
  apply round_half_even_le.
  rewrite (pow2_inject 53) by lia.
  apply Qlt_le_weak, Qlt_shift_div_r; [apply pow2_pos |].
  rewrite <- pow2_add.
  destruct (ilog2_spec x Hx) as [_ Hup].
  eapply Qlt_le_trans; [exact Hup |].
  apply pow2_le. rewrite exponent_positive. lia.
Qed.

Lemma nearest_value_nonneg :
  0 <= Qred (inject_Z (round_half_even (x / 2 ^ B64.exponent x))
             * 2 ^ B64.exponent x).
Proof.
  rewrite Qred_correct.
  apply Qmult_le_0_compat; [| apply Qlt_le_weak, pow2_pos].
  rewrite <- (Zle_Qle 0). apply nearest_mantissa_nonneg.
Qed.

Lemma nearest_le_positive (p : Q) :
  x <= p -> binary64 p ->
  exists r, B64.nearest x = B64.Finite r /\ 0 <= r /\ r <= p /\ Qred r = r.
Proof.
  intros Hxp (Hfin & M & E & HM & HE & Hp).
  pose proof nearest_value_nonneg as Hnn.
  rewrite nearest_unfold.
  set (e := B64.exponent x) in *.
  set (m := round_half_even (x / 2 ^ e)) in *.
  assert (He : (e <= E)%Z).
  { unfold e. rewrite exponent_positive. apply Z.max_lub; [| exact HE].
    destruct (ilog2_spec x Hx) as [Hlo _].
    assert (H2 : 2 ^ B64.ilog2 x < 2 ^ (53 + E)).
    { eapply Qle_lt_trans; [exact Hlo |].
      eapply Qle_lt_trans; [exact Hxp |].
      rewrite Hp, pow2_add.
      apply Qmult_lt_compat_r; [apply pow2_pos |].
      rewrite <- (pow2_inject 53) by lia. rewrite <- Zlt_Qlt. lia. }
    apply pow2_lt_inv in H2. lia. }
  assert (HK : p == inject_Z (M * 2 ^ (E - e)) * 2 ^ e).
  { rewrite Hp, inject_Z_mult, pow2_inject by lia.
    rewrite <- Qmult_assoc, <- pow2_add.
    now replace (E - e + e)%Z with E by ring. }
  assert (Hm : (m <= M * 2 ^ (E - e))%Z).
  { apply round_half_even_le.
    apply Qle_shift_div_r; [apply pow2_pos |]. now rewrite <- HK. }
  assert (Hr : Qred (inject_Z m * 2 ^ e) <= p).
  { rewrite Qred_correct, HK.
    apply Qmult_le_compat_r; [| apply Qlt_le_weak, pow2_pos].
    now rewrite <- Zle_Qle. }
  exists (Qred (inject_Z m * 2 ^ e)).
  split; [| split; [exact Hnn | split; [exact Hr | apply Qred_idempotent]]].
  rewrite (Qabs_nonneg_eq _ Hnn).
  destruct (Qle_bool _ _) eqn:Hc; [| reflexivity].
  apply Qle_bool_iff in Hc. exfalso.
  apply (Qlt_irrefl p). eapply Qlt_le_trans; [exact Hfin |].
  eapply Qle_trans; [exact Hc | exact Hr].
Qed.

Lemma nearest_positive_cases :
  B64.nearest x = B64.Inf false
  \/ exists r, B64.nearest x = B64.Finite r /\ binary64 r /\ Qred r = r.
Proof.
  pose proof nearest_value_nonneg as Hnn.
  pose proof nearest_mantissa_nonneg as H0.
  pose proof nearest_mantissa_bound as H1.
  rewrite nearest_unfold.
  assert (He : (-1074 <= B64.exponent x)%Z) by (rewrite exponent_positive; lia).
  set (e := B64.exponent x) in *.
  set (m := round_half_even (x / 2 ^ e)) in *.
  rewrite (Qabs_nonneg_eq _ Hnn).
  destruct (Qle_bool _ _) eqn:Hc; [now left | right].
  exists (Qred (inject_Z m * 2 ^ e)).
  split; [reflexivity |]. split; [| apply Qred_idempotent].
  split.
  { apply Qnot_le_lt. intros H. apply Qle_bool_iff in H. congruence. }
  destruct (Z.eq_dec m (2 ^ 53)%Z) as [Em | Nm].
  - exists (2 ^ 52)%Z, (e + 1)%Z. split; [lia |]. split; [lia |].
    rewrite Qred_correct, Em, pow2_add.
    change (inject_Z (2 ^ 53)%Z) with (inject_Z (2 ^ 52)%Z * 2 ^ 1). ring.
  - exists m, e. split; [lia |]. split; [exact He |]. apply Qred_correct.
Qed.

End Nearest.

Lemma nearest_zero (x : Q) : x == 0 -> B64.nearest x = B64.Finite 0.
Proof.
  intros H. unfold B64.nearest.
  now rewrite (proj2 (Qeq_bool_iff x 0) H).
Qed.

Lemma binary64_zero : binary64 0.
Proof.
  split; [apply pow2_pos |].
  exists 0%Z, 0%Z. split; [lia |]. split; [lia |]. reflexivity.
Qed.

(** Rounding never goes past a representable bound. *)
Lemma nearest_le (x p : Q) :
  0 <= x -> x <= p -> binary64 p ->
  exists r, B64.nearest x = B64.Finite r /\ 0 <= r /\ r <= p /\ Qred r = r.
Proof.
  intros Hx Hxp Hp.
  destruct (Qlt_le_dec 0 x) as [Hpos | Hneg].
  - now apply nearest_le_positive.
  - exists 0. rewrite nearest_zero by (apply Qle_antisym; assumption).
    split; [reflexivity |]. split; [apply Qle_refl |].
    split; [now apply Qle_trans with x | reflexivity].
Qed.

(** Rounding a non-negative number gives a price value. *)
Lemma nearest_price_value (x : Q) : 0 <= x -> price_value (B64.nearest x).
Proof.
  intros Hx.
  destruct (Qlt_le_dec 0 x) as [Hpos | Hneg].
  - destruct (nearest_positive_cases x Hpos) as [-> | (r & -> & Hr & Hred)].
    + now left.
    + right. eauto.
  - rewrite nearest_zero by (apply Qle_antisym; assumption).
    right. exists 0. split; [reflexivity |]. split; [apply binary64_zero | reflexivity].
Qed.

(** ** Rounding gives a nearest value *)

Lemma round_half_even_nearest (q : Q) (k : Z) :
  Qabs (inject_Z (round_half_even q) - q) <= Qabs (inject_Z k - q).
Proof.
  destruct q as [n d].
  assert (H : (Z.abs (round_half_even (n # d) * Zpos d - n)
               <= Z.abs (k * Zpos d - n))%Z).
  { unfold round_half_even. simpl Qnum. simpl Qden.
    pose proof (Z.div_mod n (Zpos d) ltac:(lia)) as Hdm.
    pose proof (Z.mod_pos_bound n (Zpos d) ltac:(lia)) as Hr.
    set (f := (n / Zpos d)%Z) in *. set (r := (n mod Zpos d)%Z) in *.
    assert (Hk : (k <= f \/ f + 1 <= k)%Z) by lia.
    destruct (Z.compare_spec (2 * r) (Zpos d)) as [E | E | E];
      [destruct (Z.even f) | |]; destruct Hk; nia. }
  unfold Qle, Qabs, Qminus, Qplus, Qopp, inject_Z. simpl Qnum. simpl Qden.
  rewrite !Z.mul_1_r.
  replace (round_half_even (n # d) * Zpos d + - n)%Z
    with (round_half_even (n # d) * Zpos d - n)%Z by ring.
  replace (k * Zpos d + - n)%Z with (k * Zpos d - n)%Z by ring.
  apply Z.mul_le_mono_nonneg_r; [lia | exact H].
Qed.

(** No binary64 value is closer to a non-negative number than the value it
    is rounded to. *)
Lemma nearest_is_nearest (x r : Q) :
  0 <= x -> B64.nearest x = B64.Finite r ->
  forall y, binary64 y -> Qabs (r - x) <= Qabs (y - x).
Proof.
  intros Hx Hr y Hy.
  destruct (Qlt_le_dec 0 x) as [Hpos | Hneg].
  2: { assert (Hz : x == 0) by (apply Qle_antisym; assumption).
       rewrite (nearest_zero x Hz) in Hr. injection Hr as <-.
       setoid_replace (0 - x) with 0 using relation Qeq by (rewrite Hz; ring).
       apply Qabs_nonneg. }
  rewrite (nearest_unfold x Hpos) in Hr.
  destruct (Qle_bool _ _); [discriminate |]. injection Hr as <-.
  pose proof (exponent_positive x Hpos) as He.
  set (e := B64.exponent x) in *.
  set (m := round_half_even (x / 2 ^ e)).
  pose proof (pow2_pos e) as Pe.
  assert (Hscale : forall K : Z,
             Qabs (Qred (inject_Z m * 2 ^ e) - x)
             <= Qabs (inject_Z K * 2 ^ e - x)).
  { intros K. rewrite Qred_correct.
    setoid_replace (inject_Z m * 2 ^ e - x)
      with ((inject_Z m - x / 2 ^ e) * 2 ^ e) using relation Qeq by (field; lra).
    setoid_replace (inject_Z K * 2 ^ e - x)
      with ((inject_Z K - x / 2 ^ e) * 2 ^ e) using relation Qeq by (field; lra).
    rewrite !Qabs_Qmult, (Qabs_pos (2 ^ e)) by lra.
    apply Qmult_le_compat_r; [| lra].
    apply round_half_even_nearest. }
  destruct Hy as (_ & M & E & HM & HE & Hy).
  destruct (Z_le_gt_dec e E) as [HeE | HeE].
  - assert (HK : y == inject_Z (M * 2 ^ (E - e)) * 2 ^ e).
    { rewrite Hy, inject_Z_mult, pow2_inject by lia.
      rewrite <- Qmult_assoc, <- pow2_add.
      now replace (E - e + e)%Z with E by ring. }
    rewrite HK. apply Hscale.
  - assert (Hi : e = (B64.ilog2 x - 52)%Z) by lia.
    destruct (ilog2_spec x Hpos) as [Hlo _].
    assert (Hg : 2 ^ B64.ilog2 x == inject_Z (2 ^ 52) * 2 ^ e).
    { rewrite pow2_inject by lia. rewrite <- pow2_add.
      now replace (52 + e)%Z with (B64.ilog2 x) by lia. }
    assert (Hyg : y < 2 ^ B64.ilog2 x).
    { rewrite Hy.
      apply Qlt_le_trans with (2 ^ 53 * 2 ^ E).
      - apply Qmult_lt_compat_r; [apply pow2_pos |].
        rewrite <- (pow2_inject 53) by lia. rewrite <- Zlt_Qlt. lia.
      - rewrite <- pow2_add. apply pow2_le. lia. }
    eapply Qle_trans; [apply (Hscale (2 ^ 52)%Z) |].
    rewrite <- Hg.
    rewrite (Qabs_neg (2 ^ B64.ilog2 x - x)) by lra.
    rewrite (Qabs_neg (y - x)) by lra. lra.
Qed.

(** ** The order of the price values *)

Lemma price_value_cases (x : B64.float) :
  price_value x ->
  x = B64.Inf false \/ exists q, x = B64.Finite q /\ 0 <= q /\ Qred q = q.
Proof.
  intros [-> | (q & -> & Hq & Hred)]; [now left | right].
  exists q. split; [reflexivity |]. split; [now apply binary64_nonneg | exact Hred].
Qed.

Lemma leb64_finite (a b : Q) :
  B64.leb (B64.Finite a) (B64.Finite b) = true <-> a <= b.
Proof.
  unfold B64.leb, B64.ltb, B64.eqb. rewrite orb_true_iff, Qltb_lt, Qeq_bool_iff.
  split; [intros [H | H]; [now apply Qlt_le_weak | rewrite H; apply Qle_refl] |].
  intros H. destruct (Qlt_le_dec a b) as [Hlt | Hge]; [now left | right].
  now apply Qle_antisym.
Qed.

Lemma ltb64_finite (a b : Q) :
  B64.ltb (B64.Finite a) (B64.Finite b) = true <-> a < b.
Proof. apply Qltb_lt. Qed.

Lemma Qred_eq (a b : Q) : Qred a = a -> Qred b = b -> a == b -> a = b.
Proof. intros Ha Hb H. rewrite <- Ha, <- Hb. now apply Qred_complete. Qed.

Lemma leb64_refl (x : B64.float) : price_value x -> B64.leb x x = true.
Proof.
  intros H. apply price_value_cases in H as [-> | (q & -> & _)]; [reflexivity |].
  apply leb64_finite, Qle_refl.
Qed.

Lemma leb64_total (x y : B64.float) :
  price_value x -> price_value y -> B64.leb x y = true \/ B64.leb y x = true.
Proof.
  intros Hx Hy.
  apply price_value_cases in Hx as [-> | (a & -> & _)];
    apply price_value_cases in Hy as [-> | (b & -> & _)];
    try (now left); try (now right).
  rewrite !leb64_finite. destruct (Qlt_le_dec a b); [left; now apply Qlt_le_weak | now right].
Qed.

Lemma leb64_trans (x y z : B64.float) :
  price_value x -> price_value y -> price_value z ->
  B64.leb x y = true -> B64.leb y z = true -> B64.leb x z = true.
Proof.
  intros Hx Hy Hz.
  apply price_value_cases in Hx as [-> | (a & -> & _)];
    apply price_value_cases in Hy as [-> | (b & -> & _)];
    apply price_value_cases in Hz as [-> | (c & -> & _)];
    try reflexivity; try discriminate; try (intros; assumption).
  rewrite !leb64_finite. intros. now apply Qle_trans with b.
Qed.

Lemma leb64_antisym (x y : B64.float) :
  price_value x -> price_value y ->
  B64.leb x y = true -> B64.leb y x = true -> x = y.
Proof.
  intros Hx Hy.
  apply price_value_cases in Hx as [-> | (a & -> & _ & Ha)];
    apply price_value_cases in Hy as [-> | (b & -> & _ & Hb)];
    try reflexivity; try discriminate.
  rewrite !leb64_finite. intros H1 H2. f_equal.
  apply Qred_eq; [assumption | assumption | now apply Qle_antisym].
Qed.

Lemma leb64_not_ltb (x y : B64.float) :
  price_value x -> price_value y -> B64.leb x y = true -> B64.ltb y x = false.
Proof.
  intros Hx Hy.
  apply price_value_cases in Hx as [-> | (a & -> & _)];
    apply price_value_cases in Hy as [-> | (b & -> & _)];
    try reflexivity; try discriminate.
  rewrite leb64_finite. intros H. now apply Qltb_ge.
Qed.

Lemma eqb64_eq (x y : B64.float) :
  price_value x -> price_value y -> (B64.eqb x y = true <-> x = y).
Proof.
  intros Hx Hy.
  apply price_value_cases in Hx as [-> | (a & -> & _ & Ha)];
    apply price_value_cases in Hy as [-> | (b & -> & _ & Hb)];
    try (split; [reflexivity | reflexivity]); try (split; discriminate).
  unfold B64.eqb. rewrite Qeq_bool_iff. split.
  - intros H. f_equal. now apply Qred_eq.
  - intros [= ->]. reflexivity.
Qed.

Lemma geb64_zero (x : B64.float) :
  price_value x -> B64.geb x (B64.of_int 0) = true.
Proof.
  intros H. apply price_value_cases in H as [-> | (q & -> & Hq & _)]; [reflexivity |].
  unfold B64.geb. change (B64.of_int 0) with (B64.Finite 0). now apply leb64_finite.
Qed.

(** The constructor accepts every ordered pair of price values. *)
Lemma PriceRange64_new_ok (lo hi : B64.float) :
  B64.geb lo (B64.of_int 0) = true -> B64.geb hi (B64.of_int 0) = true ->
  B64.ltb hi lo = false ->
  B64.PriceRange_new lo hi = Ok (B64.mkPriceRange lo hi).
Proof.
  intros H1 H2 H3. unfold B64.PriceRange_new. now rewrite H1, H2, H3.
Qed.

Lemma literal_07 : B64.literal 0.7 = B64.Finite seven_tenths.
Proof. vm_compute. reflexivity. Qed.

(** The product of a price value with the literal 0.7 is a value between
    0 and that price. *)
Lemma mul_07_bounds (p : B64.float) :
  price_value p ->
  B64.geb (B64.mul p (B64.literal 0.7)) (B64.of_int 0) = true
  /\ B64.leb (B64.mul p (B64.literal 0.7)) p = true
  /\ B64.ltb p (B64.mul p (B64.literal 0.7)) = false.
Proof.
  intros [-> | (q & -> & Hq & Hred)]; rewrite literal_07.
  - repeat split.
  - cbn [B64.mul].
    pose proof (binary64_nonneg q Hq) as H0.
    assert (H7 : 0 <= seven_tenths <= 1) by (split; discriminate).
    destruct (nearest_le (q * seven_tenths) q)
      as (r & -> & Hr0 & Hrq & _); [nra | nra | exact Hq |].
    split; [| split].
    + unfold B64.geb. change (B64.of_int 0) with (B64.Finite 0). now apply leb64_finite.
    + now apply leb64_finite.
    + now apply Qltb_ge.
Qed.

Lemma mul_07_accepted (p : B64.float) :
  price_value p ->
  B64.PriceRange_new (B64.mul p (B64.literal 0.7)) p
  = Ok (B64.mkPriceRange (B64.mul p (B64.literal 0.7)) p).
Proof.
  intros Hp. destruct (mul_07_bounds p Hp) as (H1 & _ & H3).
  apply PriceRange64_new_ok; [exact H1 | now apply geb64_zero | exact H3].
Qed.

(** ** The set and the sort of the prices *)

Lemma mem64_spec (x : B64.float) (l : list B64.float) :
  price_value x -> Forall price_value l -> (B64.mem x l = true <-> In x l).
Proof.
  intros Hx Hl. unfold B64.mem. rewrite existsb_exists. rewrite List.Forall_forall in Hl.
  split.
  - intros (y & Hy & E). apply eqb64_eq in E; [now subst | exact Hx | now apply Hl].
  - intros H. exists x. split; [exact H |]. now apply eqb64_eq.
Qed.

Lemma list_of_set64_In (l : list B64.float) :
  Forall price_value l -> forall x, In x (B64.list_of_set l) <-> In x l.
Proof.
  induction 1 as [| a l Ha Hl IH]; intros x; cbn [B64.list_of_set In]; [tauto |].
  destruct (B64.mem a l) eqn:Hmem.
  - apply mem64_spec in Hmem; [| exact Ha | exact Hl].
    rewrite IH. split; [tauto |]. intros [<- | H]; assumption.
  - cbn [In]. now rewrite IH.
Qed.

Lemma insert_sorted64_In (x y : B64.float) (l : list B64.float) :
  In y (B64.insert_sorted x l) <-> y = x \/ In y l.
Proof.
  induction l as [| a l IH]; cbn [B64.insert_sorted In].
  - intuition.
  - destruct (B64.leb x a); cbn [In]; rewrite ?IH; intuition.
Qed.

Lemma list_sort64_In (y : B64.float) (l : list B64.float) :
  In y (B64.list_sort l) <-> In y l.
Proof.
  induction l as [| a l IH]; cbn [B64.list_sort fold_right In]; [tauto |].
  fold (B64.list_sort l). rewrite insert_sorted64_In, IH. intuition.
Qed.

Lemma insert_sorted64_sorted (x : B64.float) (l : list B64.float) :
  price_value x -> Forall price_value l ->
  StronglySorted (fun a b => B64.leb a b = true) l ->
  StronglySorted (fun a b => B64.leb a b = true) (B64.insert_sorted x l).
Proof.
  intros Hx Hl Hs. induction Hs as [| a l Hs IH Ha]; cbn [B64.insert_sorted].
  - repeat constructor.
  - apply List.Forall_cons_iff in Hl as [Hpa Hpl].
    pose proof Ha as Hall.
    rewrite List.Forall_forall in Ha, Hpl.
    destruct (B64.leb x a) eqn:Hxa.
    + constructor; [now constructor |].
      constructor; [exact Hxa |].
      apply List.Forall_forall. intros b Hb.
      apply (leb64_trans x a b); auto.
    + assert (Hax : B64.leb a x = true)
        by (destruct (leb64_total x a Hx Hpa); congruence).
      constructor; [apply IH; now apply List.Forall_forall |].
      apply List.Forall_forall. intros b Hb.
      apply insert_sorted64_In in Hb as [-> | Hb]; [exact Hax | now apply Ha].
Qed.

Lemma list_sort64_sorted (l : list B64.float) :
  Forall price_value l ->
  StronglySorted (fun a b => B64.leb a b = true) (B64.list_sort l).
Proof.
  induction 1 as [| a l Ha Hl IH]; cbn [B64.list_sort fold_right]; [constructor |].
  fold (B64.list_sort l).
  apply insert_sorted64_sorted; [exact Ha | | exact IH].
  apply List.Forall_forall. intros y Hy. apply (proj1 (list_sort64_In y l)) in Hy.
  rewrite List.Forall_forall in Hl. now apply Hl.
Qed.

Lemma sorted64_hd_smallest (l : list B64.float) :
  Forall price_value l ->
  StronglySorted (fun a b => B64.leb a b = true) l -> l <> [] ->
  is_smallest64 (List.hd B64.NaN l) l.
Proof.
  intros Hp Hs Hne. destruct l as [| a l]; [congruence |].
  apply StronglySorted_inv in Hs as [_ Ha]. rewrite List.Forall_forall in Ha.
  apply List.Forall_cons_iff in Hp as [Hpa _].
  cbn [List.hd]. split; [now left |].
  intros y [<- | Hy]; [now apply leb64_refl | now apply Ha].
Qed.

Lemma sorted64_last_largest (l : list B64.float) :
  Forall price_value l ->
  StronglySorted (fun a b => B64.leb a b = true) l -> l <> [] ->
  is_largest64 (List.last l B64.NaN) l.
Proof.
  intros Hp Hs. induction Hs as [| a l Hl IH Ha]; [congruence |]. intros _.
  apply List.Forall_cons_iff in Hp as [Hpa Hpl].
  destruct l as [| b l].
  - cbn [List.last]. split; [now left |]. intros y [<- | []]. now apply leb64_refl.
  - destruct IH as [Hin Hmax]; [exact Hpl | discriminate |].
    change (List.last (a :: b :: l) B64.NaN) with (List.last (b :: l) B64.NaN).
    split; [now right |].
    intros y [<- | Hy]; [| now apply Hmax].
    rewrite List.Forall_forall in Ha. now apply Ha.
Qed.

(** The sorted set of a list of price values: the same values, its head
    the smallest and its last element the largest. *)
Lemma sorted_set64 (l : list B64.float) :
  Forall price_value l -> l <> [] ->
  let s := B64.list_sort (B64.list_of_set l) in
  (forall x, In x s <-> In x l)
  /\ is_smallest64 (List.hd B64.NaN s) l
  /\ is_largest64 (List.last s B64.NaN) l.
Proof.
  intros Hp Hne s.
  assert (Hin : forall x, In x s <-> In x l).
  { intros x. unfold s. now rewrite list_sort64_In, list_of_set64_In. }
  assert (Hps : Forall price_value s).
  { apply List.Forall_forall. intros x Hx. apply Hin in Hx.
    rewrite List.Forall_forall in Hp. now apply Hp. }
  assert (Hsorted : StronglySorted (fun a b => B64.leb a b = true) s).
  { apply list_sort64_sorted. apply List.Forall_forall. intros x Hx.
    apply (proj1 (list_of_set64_In l Hp x)) in Hx.
    rewrite List.Forall_forall in Hp. now apply Hp. }
  assert (Hsne : s <> []).
  { destruct l as [| a l]; [congruence |].
    intros E. assert (Ha : In a s) by (apply Hin; now left).
    rewrite E in Ha. exact Ha. }
  destruct (sorted64_hd_smallest s Hps Hsorted Hsne) as [H1 H2].
  destruct (sorted64_last_largest s Hps Hsorted Hsne) as [H3 H4].
  split; [exact Hin |]. split.
  - split; [now apply Hin |]. intros y Hy. now apply H2, Hin.
  - split; [now apply Hin |]. intros y Hy. now apply H4, Hin.
Qed.

Lemma is_smallest64_unique (x y : B64.float) (l l' : list B64.float) :
  Forall price_value l ->
  Permutation l l' -> is_smallest64 x l -> is_smallest64 y l' -> x = y.
Proof.
  intros Hp Hperm [Hx Hmin] [Hy Hmin'].
  rewrite List.Forall_forall in Hp.
  assert (Hy' : In y l) by (eapply Permutation_in; [symmetry; exact Hperm | exact Hy]).
  apply leb64_antisym; auto.
  apply Hmin'. eapply Permutation_in; [exact Hperm | exact Hx].
Qed.

Lemma is_largest64_unique (x y : B64.float) (l l' : list B64.float) :
  Forall price_value l ->
  Permutation l l' -> is_largest64 x l -> is_largest64 y l' -> x = y.
Proof.
  intros Hp Hperm [Hx Hmax] [Hy Hmax'].
  rewrite List.Forall_forall in Hp.
  assert (Hy' : In y l) by (eapply Permutation_in; [symmetry; exact Hperm | exact Hy]).
  apply leb64_antisym; auto.
  apply Hmax'. eapply Permutation_in; [exact Hperm | exact Hx].
Qed.

(** ** The price path in binary64 *)

Lemma mapM_clean_price64 (ms : list string) :
  mapM B64.clean_price ms = (ps ← mapM clean_price ms; Ok (map B64.nearest ps)).
Proof.
  induction ms as [| m ms IH]; [reflexivity |].
  cbn [mapM]. rewrite IH.
  destruct (mapM clean_price ms) as [ps |];
    unfold B64.clean_price, clean_price;
    destruct (float_of_digits _) as [n |]; reflexivity.
Qed.

(** The binary64 prices are the exact ones, each rounded. *)
Lemma price_mentions64 (query : string) :
  exists exact,
    price_mentions query = Ok exact
    /\ Forall (Qle 0) exact
    /\ B64.price_mentions query = Ok (map B64.nearest exact).
Proof.
  destruct (price_mentions_total query) as [exact He].
  exists exact. split; [exact He |].
  split; [now apply (price_mentions_nonneg query) |].
  unfold B64.price_mentions. rewrite mapM_clean_price64.
  unfold price_mentions in He. now rewrite He.
Qed.

Lemma price_mentions64_values (query : string) (prices : list B64.float) :
  B64.price_mentions query = Ok prices ->
  Forall price_value prices /\ length prices = length (price_matches query).
Proof.
  destruct (price_mentions64 query) as (exact & He & Hpos & H64).
  rewrite H64. intros [= <-]. split.
  - apply List.Forall_map. eapply List.Forall_impl; [| exact Hpos].
    intros q Hq. now apply nearest_price_value.
  - rewrite length_map. now apply mapM_clean_price_length.
Qed.

Lemma list_of_set64_single (p : B64.float) (l : list B64.float) :
  price_value p -> l <> [] -> (forall x, In x l -> x = p) ->
  B64.list_of_set l = [p].
Proof.
  intros Hp. induction l as [| a l IH]; [congruence |]. intros _ Hall.
  assert (Ha : a = p) by (apply Hall; now left). subst a.
  cbn [B64.list_of_set]. destruct l as [| b l]; [reflexivity |].
  assert (Hmem : B64.mem p (b :: l) = true).
  { assert (Hb : b = p) by (apply Hall; right; now left). subst b.
    cbn [B64.mem existsb]. now rewrite (proj2 (eqb64_eq p p Hp Hp) eq_refl). }
  rewrite Hmem. apply IH; [discriminate |].
  intros x Hx. apply Hall. now right.
Qed.

(** One price value: the range from its product with 0.7 to itself. *)
Lemma range_of_prices64_single (prices : list B64.float) (p : B64.float) :
  price_value p -> In p prices -> (forall x, In x prices -> x = p) ->
  B64.range_of_prices prices
  = Ok (Some (B64.mkPriceRange (B64.mul p (B64.literal 0.7)) p), B64.literal 0.75).
Proof.
  intros Hp Hin Hall.
  assert (Hne : prices <> []) by (intros E; rewrite E in Hin; exact Hin).
  unfold B64.range_of_prices.
  rewrite (list_of_set64_single p prices Hp Hne Hall).
  destruct prices as [| x l]; [congruence |].
  cbn [B64.list_sort fold_right B64.insert_sorted length Nat.eqb List.hd].
  now rewrite mul_07_accepted.
Qed.

(** Two different price values: the range from the smallest to the
    largest. *)
Lemma range_of_prices64_several (prices : list B64.float) :
  Forall price_value prices ->
  (exists a b, In a prices /\ In b prices /\ a <> b) ->
  exists pr,
    B64.range_of_prices prices = Ok (Some pr, B64.literal 0.85)
    /\ is_smallest64 (B64.min_price pr) prices
    /\ is_largest64 (B64.max_price pr) prices.
Proof.
  intros Hp (a & b & Ha & Hb & Hab).
  assert (Hne : prices <> []) by (intros E; rewrite E in Ha; exact Ha).
  destruct (sorted_set64 prices Hp Hne) as (Hin & Hmin & Hmax).
  unfold B64.range_of_prices.
  set (s := B64.list_sort (B64.list_of_set prices)) in *.
  assert (Hlen : (length s =? 1)%nat = false).
  { destruct s as [| x [| y s']] eqn:Es; [| | reflexivity].
    - apply Hin in Ha. destruct Ha.
    - exfalso. apply Hab.
      apply Hin in Ha as [<- | []]. now apply Hin in Hb as [<- | []]. }
  destruct prices as [| x l]; [congruence |].
  rewrite Hlen.
  rewrite List.Forall_forall in Hp.
  destruct Hmin as [Hmin1 Hmin2]. destruct Hmax as [Hmax1 Hmax2].
  rewrite PriceRange64_new_ok.
  - cbn [mbind result_bind]. eexists. split; [reflexivity |].
    cbn [B64.min_price B64.max_price]. split; split; assumption.
  - apply geb64_zero. now apply Hp.
  - apply geb64_zero. now apply Hp.
  - apply leb64_not_ltb; [now apply Hp | now apply Hp |]. now apply Hmin2.
Qed.

(** Every non-empty list of price values gives a range, one of the two
    ways. *)
Lemma range_of_prices64_cases (prices : list B64.float) :
  Forall price_value prices -> prices <> [] ->
  (exists p, In p prices /\ (forall x, In x prices -> x = p)
     /\ B64.range_of_prices prices
        = Ok (Some (B64.mkPriceRange (B64.mul p (B64.literal 0.7)) p),
              B64.literal 0.75))
  \/ (exists pr, (exists a b, In a prices /\ In b prices /\ a <> b)
        /\ B64.range_of_prices prices = Ok (Some pr, B64.literal 0.85)
        /\ is_smallest64 (B64.min_price pr) prices
        /\ is_largest64 (B64.max_price pr) prices).
Proof.
  intros Hp Hne. destruct prices as [| p l]; [congruence |].
  assert (Hpp : price_value p) by (apply List.Forall_cons_iff in Hp; tauto).
  destruct (forallb (B64.eqb p) l) eqn:Hall.
  - left. exists p.
    assert (H : forall x, In x (p :: l) -> x = p).
    { intros x [<- | Hx]; [reflexivity |].
      rewrite forallb_forall in Hall. specialize (Hall x Hx).
      rewrite List.Forall_forall in Hp. symmetry.
      apply (eqb64_eq p x); [exact Hpp | apply Hp; now right | exact Hall]. }
    split; [now left |]. split; [exact H |].
    apply range_of_prices64_single; [exact Hpp | now left | exact H].
  - right.
    assert (Hex : exists b, In b l /\ p <> b).
    { apply not_true_iff_false in Hall.
      destruct (existsb (fun x => negb (B64.eqb p x)) l) eqn:Hex.
      - apply existsb_exists in Hex as (b & Hb & Hpb).
        exists b. split; [exact Hb |]. intros <-.
        rewrite (proj2 (eqb64_eq p p Hpp Hpp) eq_refl) in Hpb. discriminate.
      - exfalso. apply Hall. apply forallb_forall. intros x Hx.
        destruct (B64.eqb p x) eqn:E; [reflexivity |].
        assert (existsb (fun x => negb (B64.eqb p x)) l = true)
          by (apply existsb_exists; exists x; now rewrite E).
        congruence. }
    destruct Hex as (b & Hb & Hpb).
    assert (Hd : exists a b, In a (p :: l) /\ In b (p :: l) /\ a <> b)
      by (exists p, b; repeat split; [now left | now right | exact Hpb]).
    destruct (range_of_prices64_several (p :: l) Hp Hd) as (pr & H1 & H2 & H3).
    exists pr. auto.
Qed.

(** ** The confidences in binary64 *)

Lemma extract_product_type64 (query : string) :
  B64.extract_product_type query
  = (fst (extract_product_type query), B64.literal (snd (extract_product_type query))).
Proof.
  unfold B64.extract_product_type, extract_product_type.
  now destruct (scan_products _ _) as [[p c] |].
Qed.

Lemma extract_features64 (query : string) :
  B64.extract_features query
  = (fst (extract_features query),
     if is_nil (fst (extract_features query)) then B64.literal 0 else B64.literal 0.8).
Proof.
  unfold B64.extract_features, extract_features. cbn [fst].
  now destruct (filter _ _).
Qed.

Lemma remove_dups_NoDup {A} `{EqDecision A} (l : list A) :
  NoDup l -> remove_dups l = l.
Proof.
  induction 1 as [| x l Hx Hl IH]; [reflexivity |].
  cbn [remove_dups]. destruct (decide_rel _ x l); [contradiction | now rewrite IH].
Qed.

Lemma context_hits_NoDup (hit : list string -> bool)
    (table : list (UsageContextEnum.t * list string)) :
  NoDup (map fst table) ->
  NoDup (flat_map (fun '(context, keywords) =>
                     if hit keywords then [context : UsageContextEnum.t] else [])
                  table)
  /\ (length (flat_map (fun '(context, keywords) =>
                          if hit keywords then [context : UsageContextEnum.t] else [])
                       table) <= length table)%nat.
Proof.
  induction table as [| [c kw] rest IH]; cbn [map fst flat_map length].
  - intros _. split; [constructor | lia].
  - intros H. apply NoDup_cons in H as [Hc Hrest].
    destruct (IH Hrest) as [IH1 IH2].
    destruct (hit kw); cbn [app length]; [| split; [exact IH1 | lia]].
    split; [| lia]. apply NoDup_cons. split; [| exact IH1].
    intros Hin. apply Hc. apply list_elem_of_In in Hin.
    apply in_flat_map in Hin as ([c' kw'] & HT & Hin').
    destruct (hit kw'); [| destruct Hin'].
    destruct Hin' as [<- | []].
    apply list_elem_of_In, in_map_iff. now exists (c', kw').
Qed.

Lemma map_const_repeat64 {A} (c : B64.float) (l : list A) :
  map (fun _ => c) l = repeat c (length l).
Proof. induction l as [| x l IH]; cbn; [reflexivity | now rewrite IH]. Qed.

(** The mean of one to seven copies of the literal 0.85, with the
    additions made from left to right. *)
Lemma mean_085 (k : nat) :
  (1 <= k <= 7)%nat ->
  ((k <= 6)%nat -> B64.mean (repeat (B64.literal 0.85) k) = B64.literal 0.85)
  /\ (B64.mean (repeat (B64.literal 0.85) k) = B64.literal 0.85
      \/ B64.mean (repeat (B64.literal 0.85) k) = below_085).
Proof.
  intros Hk.
  assert (H : (k = 1 \/ k = 2 \/ k = 3 \/ k = 4 \/ k = 5 \/ k = 6 \/ k = 7)%nat) by lia.
  destruct H as [-> | [-> | [-> | [-> | [-> | [-> | ->]]]]]];
    (split; [intros ?; try lia; vm_compute; reflexivity |]);
    vm_compute; auto.
Qed.

(** What [extract_usage_context] returns in binary64: the contexts of the
    exact computation, and the mean of as many 0.85s. *)
Lemma extract_usage_context64 (query : string) :
  fst (B64.extract_usage_context query) = fst (extract_usage_context query)
  /\ (length (fst (B64.extract_usage_context query)) <= 7)%nat
  /\ snd (B64.extract_usage_context query)
     = (if is_nil (fst (B64.extract_usage_context query)) then B64.literal 0
        else B64.mean (repeat (B64.literal 0.85)
                         (length (fst (B64.extract_usage_context query))))).
Proof.
  unfold B64.extract_usage_context, extract_usage_context.
  match goal with |- context [flat_map ?f CONTEXT_KEYWORDS] =>
    destruct (context_hits_NoDup
                (fun keywords => existsb (fun keyword => contains keyword (normalize_text query)) keywords)
                CONTEXT_KEYWORDS) as [Hnd Hlen];
      [apply (bool_decide_unpack _); vm_compute; exact I |];
    set (hits := flat_map f CONTEXT_KEYWORDS) in *
  end.
  change (length CONTEXT_KEYWORDS) with 7%nat in Hlen.
  destruct hits as [| c l] eqn:E; cbn [fst snd is_nil].
  - split; [reflexivity |]. split; [cbn; lia | reflexivity].
  - rewrite (remove_dups_NoDup (c :: l) Hnd). cbn [is_nil].
    split; [reflexivity |]. split; [exact Hlen |].
    now rewrite map_const_repeat64.
Qed.

Lemma extract_usage_context64_confidence (query : string) :
  fst (B64.extract_usage_context query) = []
  \/ snd (B64.extract_usage_context query) = B64.literal 0.85
  \/ snd (B64.extract_usage_context query) = below_085.
Proof.
  destruct (extract_usage_context64 query) as (_ & Hlen & Hc).
  destruct (fst (B64.extract_usage_context query)) as [| c l] eqn:E; [now left | right].
  rewrite Hc. cbn [is_nil].
  apply mean_085. cbn [length] in *. lia.
Qed.

(** The mean of the confidences passes the bounds of the schema, whatever
    the extractors found. *)
Lemma parse64_confidence_accepted (pc prc cc fc : B64.float)
    (has_price has_context has_feature : bool) :
  In pc [B64.literal 0.95; B64.literal 0.85; B64.literal 0.3] ->
  In prc [B64.literal 0.75; B64.literal 0.85] ->
  In cc [B64.literal 0.85; below_085] ->
  fc = B64.literal 0.8 ->
  let confidences :=
    ([pc] ++ (if has_price then [prc] else [])
          ++ (if has_context then [cc] else [])
          ++ (if has_feature then [fc] else []))%list in
  B64.geb (B64.mean confidences) (B64.literal 0)
  && B64.leb (B64.mean confidences) (B64.literal 1) = true.
Proof.
  intros Hpc Hprc Hcc ->.
  destruct Hpc as [<- | [<- | [<- | []]]];
    destruct Hprc as [<- | [<- | []]];
    destruct Hcc as [<- | [<- | []]];
    destruct has_price, has_context, has_feature;
    vm_compute; reflexivity.
Qed.

(** The parser returns in binary64 whenever the price extraction does: the
    mean confidence always passes the bounds of the schema. *)
Lemma parse64_returns (query : string) (o : option B64.PriceRange) (c : B64.float) :
  B64.extract_price_range query = Ok (o, c) ->
  o = None \/ c = B64.literal 0.75 \/ c = B64.literal 0.85 ->
  exists pq, B64.parse query = Ok pq /\ B64.price_range pq = o.
Proof.
  intros Hprice Hc. unfold B64.parse.
  rewrite extract_product_type64, Hprice, extract_features64.
  cbn [mbind result_bind].
  pose proof (extract_usage_context64_confidence query) as Hcc.
  destruct (B64.extract_usage_context query) as [cs cc]. cbn [fst snd] in Hcc.
  assert (Hpc : In (B64.literal (snd (extract_product_type query)))
                   [B64.literal 0.95; B64.literal 0.85; B64.literal 0.3]).
  { destruct (extract_product_type_cases query) as [-> | (p & k & -> & _ & [-> | ->])];
      cbn [snd In]; auto. }
  set (pc := B64.literal (snd (extract_product_type query))) in *.
  set (fs := fst (extract_features query)).
  unfold B64.ParsedQuery_new.
  match goal with |- context [B64.mean ?l] => set (confidences := l) end.
  assert (Hok : B64.geb (B64.mean confidences) (B64.literal 0)
                && B64.leb (B64.mean confidences) (B64.literal 1) = true).
  { set (prc := match o with
                | Some _ => c
                | None => B64.literal 0.75
                end).
    set (ccc := if is_nil cs then B64.literal 0.85 else cc).
    assert (Hprc : In prc [B64.literal 0.75; B64.literal 0.85]).
    { unfold prc. destruct o as [pr |]; [| now left].
      destruct Hc as [Hc | [-> | ->]]; [discriminate | now left | right; now left]. }
    assert (Hccc : In ccc [B64.literal 0.85; below_085]).
    { unfold ccc. destruct cs as [| x cs']; [now left |]. cbn [is_nil].
      destruct Hcc as [Hcc | [-> | ->]]; [discriminate | now left | right; now left]. }
    pose proof (parse64_confidence_accepted pc prc ccc (B64.literal 0.8)
                  (if o is Some _ then true else false)
                  (negb (is_nil cs)) (negb (is_nil fs))
                  Hpc Hprc Hccc eq_refl) as H.
    cbv zeta in H.
    replace confidences with
      ([pc] ++ (if (if o is Some _ then true else false) then [prc] else [])
            ++ (if negb (is_nil cs) then [ccc] else [])
            ++ (if negb (is_nil fs) then [B64.literal 0.8] else []))%list;
      [exact H |].
    unfold confidences, prc, ccc.
    destruct o, (is_nil cs), (is_nil fs); reflexivity. }
  rewrite Hok. eexists. split; reflexivity.
Qed.

Lemma extract_price_range64_cases (query : string) :
  exists prices, B64.price_mentions query = Ok prices
    /\ Forall price_value prices
    /\ length prices = length (price_matches query)
    /\ B64.extract_price_range query = B64.range_of_prices prices.
Proof.
  destruct (price_mentions64 query) as (exact & _ & _ & H64).
  exists (map B64.nearest exact).
  destruct (price_mentions64_values query _ H64) as [Hp Hlen].
  split; [exact H64 |]. split; [exact Hp |]. split; [exact Hlen |].
  unfold B64.extract_price_range. now rewrite H64.
Qed.

(** ** The normalized text, in the words of the claim *)

Lemma is_space_whitespace (c : ascii) : is_space c = true <-> whitespace c.
Proof.
  unfold is_space, whitespace. set (n := nat_of_ascii c).
  rewrite orb_true_iff, !andb_true_iff, !Nat.leb_le.
  cbn [In]. lia.
Qed.

Lemma lower_lowercase (s : string) : lowercase s (lower s).
Proof.
  induction s as [| c s IH]; cbn [lower]; [constructor |].
  unfold lower_ascii, is_upper.
  destruct ((65 <=? nat_of_ascii c)%nat && (nat_of_ascii c <=? 90)%nat) eqn:E.
  - apply andb_true_iff in E as [E1 E2]. apply Nat.leb_le in E1, E2.
    now apply lowercase_letter.
  - apply lowercase_other; [| exact IH].
    intros [H1 H2]. apply Nat.leb_le in H1, H2. rewrite H1, H2 in E. discriminate.
Qed.

Lemma blank_empty : blank "".
Proof. intros c []. Qed.

Lemma blank_cons (c : ascii) (s : string) :
  is_space c = true -> blank s -> blank (String c s).
Proof.
  intros Hc Hs x [<- | Hx]; [now apply is_space_whitespace | now apply Hs].
Qed.

Lemma lstrip_decomposition (s : string) :
  exists l, s = l ++ lstrip s /\ blank l.
Proof.
  induction s as [| c s (l & Hl & Hb)]; cbn [lstrip].
  - exists "". split; [reflexivity | apply blank_empty].
  - destruct (is_space c) eqn:Hc.
    + exists (String c l). split; [| now apply blank_cons].
      change (String c l ++ lstrip s) with (String c (l ++ lstrip s)). now rewrite <- Hl.
    + exists "". split; [reflexivity | apply blank_empty].
Qed.

Lemma rstrip_decomposition (s : string) :
  exists r, s = rstrip s ++ r /\ blank r.
Proof.
  induction s as [| c s (r & Hr & Hb)]; cbn [rstrip].
  - exists "". split; [reflexivity | apply blank_empty].
  - destruct (rstrip s) as [| d t] eqn:E.
    + change ("" ++ r) with r in Hr. subst r.
      destruct (is_space c) eqn:Hc.
      * exists (String c s). split; [reflexivity | now apply blank_cons].
      * exists s. split; [reflexivity | exact Hb].
    + exists r. split; [| exact Hb].
      change (String c (String d t) ++ r) with (String c (String d t ++ r)).
      now rewrite <- Hr.
Qed.

(** What [rstrip] returns does not end with whitespace. *)
Lemma rstrip_last (s t : string) (c : ascii) :
  rstrip s = t ++ String c "" -> is_space c = false.
Proof.
  revert t. induction s as [| a s IH]; intros t; cbn [rstrip].
  - destruct t; discriminate.
  - destruct (rstrip s) as [| d u] eqn:E.
    + destruct (is_space a) eqn:Ha; [destruct t; discriminate |].
      destruct t as [| b t]; cbn.
      * intros [= <-]. exact Ha.
      * intros [= _ H]. destruct t; discriminate.
    + destruct t as [| b t]; [discriminate |].
      intros [= _ H]. now apply (IH t).
Qed.

Lemma strip_trimmed (s : string) : trimmed (strip s).
Proof.
  unfold strip. split.
  - intros c t E Hw. apply is_space_whitespace in Hw.
    destruct (lstrip_head s) as [H | (d & u & H & Hd)]; rewrite H in E.
    + discriminate.
    + destruct (rstrip_head d u Hd) as [u' Hu]. rewrite Hu in E.
      injection E as <- _. congruence.
  - intros t c E Hw. apply is_space_whitespace in Hw.
    apply rstrip_last in E. congruence.
Qed.

(** The text the parser searches is the query lowercased and stripped. *)
Lemma normalize_text_lowercased_stripped (query : string) :
  lowercased_stripped query (normalize_text query).
Proof.
  unfold normalize_text. rewrite <- lower_strip.
  destruct (lstrip_decomposition query) as (l & Hl & Hbl).
  destruct (rstrip_decomposition (lstrip query)) as (r & Hr & Hbr).
  exists l, (strip query), r.
  split; [| split; [exact Hbl | split; [exact Hbr | split;
           [apply strip_trimmed | apply lower_lowercase]]]].
  unfold strip. now rewrite <- Hr.
Qed.

Lemma find_first {A} (f : A -> bool) (l : list A) (x : A) :
  find f l = Some x ->
  exists before after,
    l = (before ++ x :: after)%list /\ f x = true
    /\ forall y, In y before -> f y = false.
Proof.
  induction l as [| a l IH]; cbn [find]; [discriminate |].
  destruct (f a) eqn:Ha.
  - intros [= <-]. exists [], l. split; [reflexivity |]. split; [exact Ha | intros y []].
  - intros H. destruct (IH H) as (before & after & -> & Hx & Hb).
    exists (a :: before), after. split; [reflexivity |]. split; [exact Hx |].
    intros y [<- | Hy]; [exact Ha | now apply Hb].
Qed.

Lemma not_occurs (k t : string) : contains k t = false -> ~ occurs k t.
Proof.
  intros H Ho. apply contains_spec in Ho. congruence.
Qed.


(** ** The price range of the parser, in binary64 *)

(** Every price is a number written in the query, rounded. *)
Lemma price_mentions64_written (query : string) (prices : list B64.float) :
  B64.price_mentions query = Ok prices ->
  forall p, In p prices ->
  exists written n,
    In written (price_matches query)
    /\ clean_price written = Ok n /\ 0 <= n /\ p = B64.nearest n.
Proof.
  unfold B64.price_mentions. revert prices.
  induction (price_matches query) as [| m ms IH]; intros prices; cbn [mapM].
  - intros [= <-] p [].
  - destruct (B64.clean_price m) as [y |] eqn:Hy;
      cbn [mbind result_bind]; [| discriminate].
    destruct (mapM B64.clean_price ms) as [ps |];
      cbn [mbind result_bind mret result_ret]; [| discriminate].
    unfold B64.clean_price in Hy.
    change (float_of_digits (remove_char "." (remove_char "," m)))
      with (clean_price m) in Hy.
    destruct (clean_price m) as [n |] eqn:Hn; [| discriminate].
    injection Hy as <-.
    intros [= <-] p [<- | Hin].
    + exists m, n. split; [now left |]. split; [exact Hn |].
      split; [now apply (clean_price_nonneg m) | reflexivity].
    + destruct (IH ps eq_refl p Hin) as (w & k & Hw & Hk & Hk0 & ->).
      exists w, k. split; [now right |]. auto.
Qed.

(** The product with the literal 0.7 of a finite price: the binary64
    value nearest to the exact product with the value of the literal. *)
Lemma mul_07_nearest (q : Q) :
  binary64 q ->
  exists lo, B64.mul (B64.Finite q) (B64.literal 0.7) = B64.Finite lo
    /\ forall y, binary64 y ->
         Qabs (lo - q * seven_tenths) <= Qabs (y - q * seven_tenths).
Proof.
  intros Hq. rewrite literal_07. cbn [B64.mul].
  pose proof (binary64_nonneg q Hq) as H0.
  assert (H7 : 0 <= seven_tenths <= 1) by (split; discriminate).
  destruct (nearest_le (q * seven_tenths) q) as (r & Hr & _);
    [nra | nra | exact Hq |].
  exists r. split; [exact Hr |].
  apply nearest_is_nearest; [nra | exact Hr].
Qed.







(** X9.  On a query of ASCII characters and rupee signs,
    [extract_price_range] never raises.  It returns no range, with
    confidence 0, exactly when no price pattern matches; otherwise the
    confidence is 0.75 or 0.85 and the range has a minimum that is at
    least 0 and at most the maximum, the maximum being a number written
    in the query rounded to binary64, possibly the infinity. *)
Theorem extract_price_range_outcome (query : string) :
  plain_text query ->
  exists o c, B64.extract_price_range query = Ok (o, c)
    /\ (o = None <-> price_matches query = [])
    /\ (o = None -> c = B64.literal 0)
    /\ (forall pr, o = Some pr ->
          (c = B64.literal 0.75 \/ c = B64.literal 0.85)
          /\ B64.geb (B64.min_price pr) (B64.of_int 0) = true
          /\ B64.leb (B64.min_price pr) (B64.max_price pr) = true
          /\ price_value (B64.max_price pr)).
Proof.
  intros _.
  destruct (extract_price_range64_cases query) as (prices & Hm & Hp & Hlen & ->).
  destruct prices as [| p l] eqn:E.
  - exists None, (B64.literal 0). split; [reflexivity |].
    split; [| split; [reflexivity | discriminate]].
    split; [intros _ | reflexivity].
    destruct (price_matches query); [reflexivity | discriminate Hlen].
  - rewrite <- E in *.
    assert (Hne : prices <> []) by (rewrite E; discriminate).
    assert (Hms : price_matches query <> [])
      by (intros H; rewrite H, E in Hlen; discriminate Hlen).
    rewrite List.Forall_forall in Hp.
    destruct (range_of_prices64_cases prices (proj2 (List.Forall_forall _ _) Hp) Hne)
      as [(q & Hq & Hall & ->) | (pr & _ & -> & [Hmin1 Hmin2] & [Hmax1 Hmax2])].
    + eexists; eexists. split; [reflexivity |].
      split; [split; [discriminate | intros H; contradiction] |].
      split; [discriminate |].
      intros pr [= <-]. cbn [B64.min_price B64.max_price].
      destruct (mul_07_bounds q (Hp q Hq)) as (H1 & H2 & _).
      split; [now left |]. split; [exact H1 |]. split; [exact H2 | now apply Hp].
    + eexists; eexists. split; [reflexivity |].
      split; [split; [discriminate | intros H; contradiction] |].
      split; [discriminate |].
      intros pr' [= <-].
      split; [now right |]. split; [apply geb64_zero; now apply Hp |].
      split; [now apply Hmin2 | now apply Hp].
Qed.

Lemma extract_price_range_outcome_witness :
  plain_text "cable under 3"
  /\ B64.extract_price_range "cable under 3"
     = Ok (Some (B64.mkPriceRange
                   (B64.Finite (1182194902184755 # 562949953421312))
                   (B64.Finite 3)),
           B64.literal 0.75)
  /\ B64.extract_price_range "a good laptop" = Ok (None, B64.literal 0).
Proof.
  assert (Ha : plain_text "cable under 3") by reflexivity.
  split; [exact Ha |].
  destruct (extract_price_range_outcome "cable under 3" Ha) as (o & c & H & _).
  split; [| vm_compute; reflexivity].
  rewrite H. vm_compute in H. injection H as <- <-. vm_compute. reflexivity.
Defined.

(** X5.  On a query of ASCII characters and rupee signs,
    [extract_usage_context] returns each context at most once; a
    context is returned exactly when one of its keywords occurs in the
    query lowercased and stripped.  The confidence is 0 when none is found
    and the binary64 mean of as many 0.85s otherwise: 0.85 for one to six
    contexts, and never further from it than the next value below,
    0.8499999999999999. *)
Theorem extract_usage_context_contexts (query : string) :
  plain_text query ->
  exists text,
    lowercased_stripped query text
    /\ NoDup (fst (B64.extract_usage_context query))
    /\ (forall c, In c (fst (B64.extract_usage_context query)) <->
          exists keywords keyword,
            In (c, keywords) CONTEXT_KEYWORDS /\ In keyword keywords
            /\ occurs keyword text)
    /\ (fst (B64.extract_usage_context query) = [] ->
        snd (B64.extract_usage_context query) = B64.literal 0)
    /\ ((1 <= length (fst (B64.extract_usage_context query)) <= 6)%nat ->
        snd (B64.extract_usage_context query) = B64.literal 0.85)
    /\ (fst (B64.extract_usage_context query) <> [] ->
        snd (B64.extract_usage_context query) = B64.literal 0.85
        \/ snd (B64.extract_usage_context query) = below_085).
Proof.
  intros _. exists (normalize_text query).
  split; [apply normalize_text_lowercased_stripped |].
  destruct (extract_usage_context64 query) as (Hfst & Hlen & Hconf).
  split.
  { rewrite Hfst. unfold extract_usage_context.
    destruct (flat_map _ CONTEXT_KEYWORDS); cbn [fst];
      [constructor | apply NoDup_remove_dups]. }
  split.
  { intros c. rewrite Hfst, extract_usage_context_found.
    split; intros (keywords & keyword & H1 & H2 & H3); exists keywords, keyword;
      (split; [exact H1 |]; split; [exact H2 |]); now apply contains_spec. }
  rewrite Hconf.
  destruct (fst (B64.extract_usage_context query)) as [| c l]; cbn [is_nil length] in *.
  - split; [reflexivity |]. split; [lia | congruence].
  - split; [discriminate |].
    destruct (mean_085 (S (length l)) ltac:(lia)) as [H6 H7].
    split; [intros H; apply H6; lia | intros _; exact H7].
Qed.

Lemma extract_usage_context_contexts_witness :
  plain_text "Headphones for the GYM and for travel"
  /\ B64.extract_usage_context "Headphones for the GYM and for travel"
     = ([UsageContextEnum.GYM; UsageContextEnum.TRAVEL], B64.literal 0.85).
Proof.
  assert (Ha : plain_text "Headphones for the GYM and for travel") by reflexivity.
  split; [exact Ha |].
  destruct (extract_usage_context_contexts _ Ha) as (text & _ & _ & _ & _ & H & _).
  assert (E : fst (B64.extract_usage_context "Headphones for the GYM and for travel")
              = [UsageContextEnum.GYM; UsageContextEnum.TRAVEL])
    by (vm_compute; reflexivity).
  rewrite E in H. specialize (H ltac:(cbn; lia)).
  destruct (B64.extract_usage_context _) as [cs c]. cbn [fst snd] in *.
  now subst.
Defined.

(** ** The product type *)


